(** * react-json-form-autofill: the ingest / transform / merge pipeline

    A shallow embedding of the core of the library ([parseJson],
    [flattenObject], [applyMapping], [mergeData], [processJsonData] and
    the [processJson] of the plain-state hook [useJsonAutoFill]), followed
    by the properties its documentation states about them.

    Modelling conventions.
    - A JavaScript value is a term of [JsValue].  The code under study
      never computes with a number, so a number carries an integer.
    - An object is the list of its own enumerable properties in creation
      order, which is the order [Object.keys] reports for keys that are
      not canonical array indices; its keys are pairwise distinct.  Reads
      ([o[k]], [k in o]) consult own properties only: what every object
      inherits from [Object.prototype] is outside the model.
    - A function that may throw returns a [Completion]; an awaited
      promise is its settled value.
    - [JSON.parse] belongs to the platform and is a parameter of the
      pipeline.
    - Where the identity of an object matters (does [mergeData] write to
      its arguments, is its result a new object) the merge engine is run
      a second time over an explicit store, in module [Store], and the two
      models are related by [StoreFacts.mergeData_store_refines]. *)

From Stdlib Require Import ZArith Ascii.
From stdpp Require Import base list strings gmap.

Local Open Scope string_scope.
Local Open Scope list_scope.

(** ** Values *)

#[local] Unset Elimination Schemes.

Inductive JsValue : Type :=
| JUndefined
| JNull
| JBool (b : bool)
| JNum (n : Z)
| JStr (s : string)
| JArr (elems : list JsValue)
| JObj (props : list (string * JsValue))
| JDate (t : Z)
| JRegExp (source : string).

#[local] Set Elimination Schemes.

(** [Record<string, unknown>]: own enumerable properties, in order. *)
Definition Obj : Type := list (string * JsValue).

(** Number of constructors of a value: a bound on the depth of the
    recursion of [deepMerge] over it. *)
Fixpoint js_size (v : JsValue) : nat :=
  match v with
  | JArr elems =>
      S ((fix sum (l : list JsValue) : nat :=
            match l with [] => 0 | x :: l' => js_size x + sum l' end) elems)
  | JObj props =>
      S ((fix sum (l : list (string * JsValue)) : nat :=
            match l with [] => 0 | (_, x) :: l' => js_size x + sum l' end) props)
  | _ => 1
  end.

Definition typeof (v : JsValue) : string :=
  match v with
  | JUndefined => "undefined"
  | JBool _ => "boolean"
  | JNum _ => "number"
  | JStr _ => "string"
  | JNull | JArr _ | JObj _ | JDate _ | JRegExp _ => "object"
  end.

Definition is_null (v : JsValue) : bool :=
  match v with JNull => true | _ => false end.

Definition Array_isArray (v : JsValue) : bool :=
  match v with JArr _ => true | _ => false end.

Definition instanceof_Date (v : JsValue) : bool :=
  match v with JDate _ => true | _ => false end.

Definition instanceof_RegExp (v : JsValue) : bool :=
  match v with JRegExp _ => true | _ => false end.

(** A primitive: anything whose [typeof] is not ["object"], and [null]. *)
Definition is_primitive (v : JsValue) : bool :=
  match v with
  | JUndefined | JNull | JBool _ | JNum _ | JStr _ => true
  | _ => false
  end.

(** JavaScript truthiness ([!v] is [negb (truthy v)]). *)
Definition truthy (v : JsValue) : bool :=
  match v with
  | JUndefined | JNull => false
  | JBool b => b
  | JNum n => negb (n =? 0)%Z
  | JStr s => negb (String.eqb s "")
  | _ => true
  end.

(** ** Own properties *)

(** The operations on property lists do not depend on what a property
    holds; they are shared by the value model and by the store.  The
    definitions built on them read [in], [o[k]] and [o[k] = v] on own
    properties: they are what the code does on objects none of whose
    keys is a property name of [Object.prototype].  Module [Chain]
    further down runs the same functions with the prototype consulted,
    and its facts say where the two readings agree. *)

Definition Object_keys {V : Type} (o : list (string * V)) : list string := map fst o.

Fixpoint obj_lookup {V : Type} (k : string) (o : list (string * V)) : option V :=
  match o with
  | [] => None
  | (k', v) :: rest => if String.eqb k' k then Some v else obj_lookup k rest
  end.

(** [hasOwnProperty.call(o, k)]; also [k in o] when [k] is no property
    name of [Object.prototype] (module [Chain] below has the test on
    every key). *)
Definition has_key {V : Type} (k : string) (o : list (string * V)) : bool :=
  match obj_lookup k o with Some _ => true | None => false end.

(** [o[k] = v]: overwrite in place, or create the property last (for
    the key [__proto__] on an object that does not own it, see
    [Chain.assign]). *)
Fixpoint obj_set {V : Type} (k : string) (v : V) (o : list (string * V))
  : list (string * V) :=
  match o with
  | [] => [(k, v)]
  | (k', v') :: rest =>
      if String.eqb k' k then (k', v) :: rest else (k', v') :: obj_set k v rest
  end.

(** [o[k]], on own properties *)
Definition obj_get (o : Obj) (k : string) : JsValue :=
  match obj_lookup k o with Some v => v | None => JUndefined end.

(** [{ ...dst, ...src }] given the object built so far: every own key of
    [src] is read and defined on the object under construction. *)
Definition spread {V : Type} (src dst : list (string * V)) : list (string * V) :=
  fold_left
    (fun acc key =>
       match obj_lookup key src with
       | Some v => obj_set key v acc
       | None => acc
       end)
    (Object_keys src) dst.

(** ** src/core/mergeStrategies.ts *)

Inductive MergeStrategy : Type := Merge | Replace | Strict | Deep.

Definition isPlainObject (value : JsValue) : bool :=
  String.eqb (typeof value) "object"
  && negb (is_null value)
  && negb (Array_isArray value)
  && negb (instanceof_Date value)
  && negb (instanceof_RegExp value).

(** The cast [value as Record<string, unknown>], used once
    [isPlainObject value] holds. *)
Definition as_obj (value : JsValue) : Obj :=
  match value with JObj props => props | _ => [] end.

(** The value [deepMerge] stores under a key, given what the target and
    the source hold there; [deepMerge] itself is the loop of the [JObj]
    case, see [deepMerge] and [deepMerge_unfold]. *)
Fixpoint merge_value (targetVal sourceVal : JsValue) {struct sourceVal} : JsValue :=
  match sourceVal with
  | JObj source =>
      match targetVal with
      | JObj target =>
          JObj ((fix loop (entries : Obj) (result : Obj) {struct entries} : Obj :=
                   match entries with
                   | [] => result
                   | (key, sv) :: rest =>
                       loop rest (obj_set key (merge_value (obj_get target key) sv) result)
                   end) source (spread target []))
      | _ => sourceVal
      end
  | _ => sourceVal
  end.

(** One turn of the loop of [deepMerge]: [result[key]] becomes the
    merge of the two values when both are plain objects, and the value of
    the source otherwise. *)
Definition deepMerge_step (target : Obj) (result : Obj) (entry : string * JsValue) : Obj :=
  let '(key, sourceVal) := entry in
  obj_set key
    (if isPlainObject (obj_get target key) && isPlainObject sourceVal
     then merge_value (obj_get target key) sourceVal
     else sourceVal)
    result.

(** [deepMerge(target, source)]; see [deepMerge_unfold] for the equation
    in the shape of the source. *)
Definition deepMerge (target source : Obj) : Obj :=
  fold_left (deepMerge_step target) source (spread target []).

(** What one key holds after [deepMerge], from what the two sides hold:
    the summary of the deep strategy on own properties. *)
Definition deep_at (tv : option JsValue) (sv : JsValue) : JsValue :=
  let targetVal := match tv with Some v => v | None => JUndefined end in
  if isPlainObject targetVal && isPlainObject sv
  then JObj (deepMerge (as_obj targetVal) (as_obj sv))
  else sv.

Definition mergeData (current incoming : Obj) (strategy : MergeStrategy) : Obj :=
  match strategy with
  | Replace => incoming
  | Strict =>
      let filtered :=
        fold_left
          (fun acc key =>
             if has_key key incoming then obj_set key (obj_get incoming key) acc else acc)
          (Object_keys current) [] in
      spread filtered (spread current [])
  | Deep => deepMerge current incoming
  | Merge => spread incoming (spread current [])
  end.


(** ** The merge engine over a store

    In the source, [current], [incoming] and the result of [mergeData]
    are references.  This module runs the same code over an explicit
    store, where writing to an object is visible through every reference
    to it, so that "does not mutate its arguments" and "returns a new
    object" are statements one can prove or refute. *)

Module Store.

(** The merge engine on trees, by the names used once the operations of
    this module are in scope. *)
Abbreviation tree_isPlainObject := isPlainObject.
Abbreviation tree_deepMerge := deepMerge.
Abbreviation tree_mergeData := mergeData.

(** Locations are natural numbers; the store is the list of its cells. *)
Abbreviation loc := nat (only parsing).

Inductive Val : Type :=
| VUndefined
| VNull
| VBool (b : bool)
| VNum (n : Z)
| VStr (s : string)
| VRef (l : loc).

Inductive Cell : Type :=
| CObj (props : list (string * Val))
| CArr (elems : list Val)
| CDate (t : Z)
| CRegExp (source : string).

Abbreviation Heap := (list Cell) (only parsing).

(** Computations on the store; [None] stands for a recursion cut off by
    lack of fuel. *)
Definition M (A : Type) : Type := Heap -> option (A * Heap).

#[global] Instance M_ret : MRet M := fun A (a : A) h => Some (a, h).

#[global] Instance M_bind : MBind M :=
  fun A B (k : A -> M B) (c : M A) h =>
    match c h with
    | Some (a, h') => k a h'
    | None => None
    end.

Definition out_of_fuel {A : Type} : M A := fun _ => None.

(** A new object, at the first free location. *)
Definition alloc (c : Cell) : M loc := fun h => Some (length h, h ++ [c]).

(** The own enumerable properties behind a reference. *)
Definition props_at (h : Heap) (l : loc) : list (string * Val) :=
  match h !! l with
  | Some (CObj props) => props
  | _ => []
  end.

Definition own_props (l : loc) : M (list (string * Val)) :=
  fun h => Some (props_at h l, h).

(** [Object.keys(o)] *)
Definition keys_of (l : loc) : M (list string) :=
  props ← own_props l ; mret (Object_keys props).

(** [o[key]], on own properties *)
Definition get (l : loc) (key : string) : M Val :=
  props ← own_props l ;
  mret (match obj_lookup key props with Some v => v | None => VUndefined end).

(** [key in o], on own properties *)
Definition has (l : loc) (key : string) : M bool :=
  props ← own_props l ; mret (has_key key props).

(** [o[key] = v]: the object behind [l] changes in place. *)
Definition put (l : loc) (key : string) (v : Val) : M unit :=
  fun h =>
    Some (tt, match h !! l with
              | Some (CObj props) => <[l := CObj (obj_set key v props)]> h
              | _ => h
              end).

Definition plain_in (h : Heap) (value : Val) : bool :=
  match value with
  | VRef l => match h !! l with Some (CObj _) => true | _ => false end
  | _ => false
  end.

Definition isPlainObject (value : Val) : M bool :=
  fun h => Some (plain_in h value, h).

Definition ref_of (value : Val) : loc :=
  match value with VRef l => l | _ => 0 end.

(** [for (const x of items) body(x)] *)
Fixpoint for_each {A : Type} (items : list A) (body : A -> M unit) : M unit :=
  match items with
  | [] => mret tt
  | x :: rest => body x ;; for_each rest body
  end.

(** One turn of the loop of [deepMerge]; [recur] is the recursive call. *)
Definition deepMerge_body (recur : loc -> loc -> M loc)
    (target source result : loc) (key : string) : M unit :=
  targetVal ← get target key ;
  sourceVal ← get source key ;
  plainTarget ← isPlainObject targetVal ;
  plainSource ← isPlainObject sourceVal ;
  if plainTarget && plainSource
  then merged ← recur (ref_of targetVal) (ref_of sourceVal) ;
       put result key (VRef merged)
  else put result key sourceVal.

Fixpoint deepMerge (fuel : nat) (target source : loc) : M loc :=
  match fuel with
  | 0 => out_of_fuel
  | S fuel =>
      targetProps ← own_props target ;
      result ← alloc (CObj (spread targetProps [])) ;
      keys ← keys_of source ;
      for_each keys (deepMerge_body (deepMerge fuel) target source result) ;;
      mret result
  end.

(** One turn of the reduction of the strict case. *)
Definition strict_body (incoming filtered : loc) (key : string) : M unit :=
  present ← has incoming key ;
  if (present : bool)
  then v ← get incoming key ; put filtered key v
  else (mret tt : M unit).

Definition mergeData (fuel : nat) (current incoming : loc) (strategy : MergeStrategy)
  : M loc :=
  match strategy with
  | Replace => (mret incoming : M loc)
  | Strict =>
      keys ← keys_of current ;
      filtered ← alloc (CObj []) ;
      for_each keys (strict_body incoming filtered) ;;
      currentProps ← own_props current ;
      filteredProps ← own_props filtered ;
      alloc (CObj (spread filteredProps (spread currentProps [])))
  | Deep => deepMerge fuel current incoming
  | Merge =>
      currentProps ← own_props current ;
      incomingProps ← own_props incoming ;
      alloc (CObj (spread incomingProps (spread currentProps [])))
  end.


#[local] Unset Elimination Schemes.

(** The store value [v] stands for the tree [x], and every object on the
    way lies at a location that satisfies [P]: whatever is reachable from
    [v] is allocated, without cycles, and spells [x]. *)
Inductive denotes_within (P : nat -> Prop) (h : list Cell) : Val -> JsValue -> Prop :=
| denotes_undefined : denotes_within P h VUndefined JUndefined
| denotes_null : denotes_within P h VNull JNull
| denotes_bool b : denotes_within P h (VBool b) (JBool b)
| denotes_num n : denotes_within P h (VNum n) (JNum n)
| denotes_str s : denotes_within P h (VStr s) (JStr s)
| denotes_obj l props xs :
    P l -> h !! l = Some (CObj props) ->
    NoDup (Object_keys props) ->
    Forall2 (fun p q => fst p = fst q /\ denotes_within P h (snd p) (snd q)) props xs ->
    denotes_within P h (VRef l) (JObj xs)
| denotes_arr l elems xs :
    P l -> h !! l = Some (CArr elems) ->
    Forall2 (denotes_within P h) elems xs ->
    denotes_within P h (VRef l) (JArr xs)
| denotes_date l t :
    P l -> h !! l = Some (CDate t) -> denotes_within P h (VRef l) (JDate t)
| denotes_regexp l s :
    P l -> h !! l = Some (CRegExp s) -> denotes_within P h (VRef l) (JRegExp s).

#[local] Set Elimination Schemes.

Definition denotes (h : Heap) (v : Val) (x : JsValue) : Prop :=
  denotes_within (fun _ => True) h v x.

(** Two property lists with the same keys, whose values correspond. *)
Definition props_denote (P : nat -> Prop) (h : Heap)
    (props : list (string * Val)) (xs : Obj) : Prop :=
  Forall2 (fun p q => fst p = fst q /\ denotes_within P h (snd p) (snd q)) props xs.

(** Cells below [n] are the same in [h'] as in [h], and nothing was
    deallocated. *)
Definition frame (n : nat) (h h' : Heap) : Prop :=
  length h <= length h' /\ forall l : loc, l < n -> h' !! l = h !! l.

(** What [deepMerge] achieves when the source stands for the tree [x]. *)
Definition merges (x : JsValue) : Prop :=
  forall sx, x = JObj sx ->
  forall fuel (h : Heap) target source tx (P : nat -> Prop),
    denotes_within P h (VRef target) (JObj tx) ->
    denotes_within P h (VRef source) (JObj sx) ->
    js_size x <= fuel ->
    (forall l, length h <= l -> P l) ->
    exists l h',
      Store.deepMerge fuel target source h = Some (l, h')
      /\ denotes_within P h' (VRef l) (JObj (tree_deepMerge tx sx)).


(** [{user: {name: "Ann", tags: [..]}, id: 7}] at 3 and
    [{user: {tags: [..], age: 3}}] at 6. *)
Definition nested_heap : Heap :=
  [CArr [VStr "a"];
   CObj [("name", VStr "Ann"); ("tags", VRef 0)];
   CArr [VStr "b"];
   CObj [("user", VRef 1); ("id", VNum 7)];
   CObj [("tags", VRef 2); ("age", VNum 3)];
   CDate 0;
   CObj [("user", VRef 4); ("since", VRef 5)]].

End Store.

(** ** src/core/flattenObject.ts *)

(** [parentKey ? `${parentKey}.${key}` : key]; the empty string is falsy. *)
Definition join_key (parentKey key : string) : string :=
  if String.eqb parentKey "" then key else parentKey +:+ "." +:+ key.

(** The test that sends [flattenObject] into a value. *)
Definition flatten_descends (value : JsValue) : bool :=
  negb (is_null value)
  && String.eqb (typeof value) "object"
  && negb (Array_isArray value)
  && negb (instanceof_Date value).

(** What [flattenObject] does with the value found under [newKey]: the
    body of its loop.  A regular expression passes the test above and has
    no own enumerable property, so the recursive call writes nothing. *)
Fixpoint flatten_value (newKey : string) (value : JsValue) (result : Obj)
  {struct value} : Obj :=
  match value with
  | JObj props =>
      (fix loop (entries : Obj) (result : Obj) {struct entries} : Obj :=
         match entries with
         | [] => result
         | (key, v) :: rest => loop rest (flatten_value (join_key newKey key) v result)
         end) props result
  | JRegExp _ => result
  | _ => obj_set newKey value result
  end.

(** [flattenObject(obj, parentKey, result)]; see [flattenObject_unfold]
    for the equation in the shape of the source. *)
Definition flattenObject (obj : Obj) (parentKey : string) (result : Obj) : Obj :=
  fold_left
    (fun result '(key, value) => flatten_value (join_key parentKey key) value result)
    obj result.

(** ** src/core/applyMapping.ts *)

Definition FieldMap : Type := list (string * string).

Fixpoint fieldMap_lookup (key : string) (fieldMap : FieldMap) : option string :=
  match fieldMap with
  | [] => None
  | (k, dest) :: rest => if String.eqb k key then Some dest else fieldMap_lookup key rest
  end.

Definition applyMapping (data : Obj) (fieldMap : option FieldMap) : Obj :=
  match fieldMap with
  | None => data
  | Some fieldMap =>
      fold_left
        (fun mapped key =>
           let mappedKey :=
             match fieldMap_lookup key fieldMap with
             | Some dest => dest
             | None => key
             end in
           obj_set mappedKey (obj_get data key) mapped)
        (Object_keys data) []
  end.

(** ** Dot-path reconstruction *)

(** [s.split(".")] *)
Fixpoint split_dot (s : string) : list string :=
  match s with
  | EmptyString => [EmptyString]
  | String c s' =>
      if Ascii.eqb c "."%char then EmptyString :: split_dot s'
      else match split_dot s' with
           | [] => [String c EmptyString]
           | seg :: segs => String c seg :: segs
           end
  end.

(** Writes [v] at the end of [path], creating or entering the objects on
    the way. *)
Fixpoint set_path (path : list string) (v : JsValue) (o : Obj) : Obj :=
  match path with
  | [] => o
  | k :: rest =>
      match rest with
      | [] => obj_set k v o
      | _ :: _ =>
          let child := match obj_lookup k o with Some (JObj c) => c | _ => [] end in
          obj_set k (JObj (set_path rest v child)) o
      end
  end.

(** Modelled from the spec: the repository has no inverse of
    [flattenObject]; the spec's "un-flattening" is taken to be the usual
    dot-path reconstruction, which splits every key at its dots and
    rebuilds the nested objects in the order of the flat keys. *)
Definition unflatten (flat : Obj) : Obj :=
  fold_left (fun acc '(key, v) => set_path (split_dot key) v acc) flat [].

(** *** Trees that the reconstruction can recover *)

Fixpoint has_dot (s : string) : bool :=
  match s with
  | EmptyString => false
  | String c s' => Ascii.eqb c "."%char || has_dot s'
  end.

Fixpoint nodup_keys (ks : list string) : bool :=
  match ks with
  | [] => true
  | k :: rest => negb (existsb (String.eqb k) rest) && nodup_keys rest
  end.

(** Every leaf of the tree is a primitive (objects are inner nodes). *)
Fixpoint primitive_leaves (v : JsValue) : bool :=
  match v with
  | JObj props =>
      (fix all (entries : Obj) : bool :=
         match entries with
         | [] => true
         | (_, x) :: rest => primitive_leaves x && all rest
         end) props
  | _ => is_primitive v
  end.

(** No key, at any depth, contains a dot. *)
Fixpoint dot_free_keys (v : JsValue) : bool :=
  match v with
  | JObj props =>
      (fix all (entries : Obj) : bool :=
         match entries with
         | [] => true
         | (k, x) :: rest => negb (has_dot k) && dot_free_keys x && all rest
         end) props
  | _ => true
  end.

(** No object below the root is empty. *)
Fixpoint no_empty_object (v : JsValue) : bool :=
  match v with
  | JObj props =>
      (fix all (entries : Obj) : bool :=
         match entries with
         | [] => true
         | (_, x) :: rest =>
             negb (match x with JObj [] => true | _ => false end)
             && no_empty_object x && all rest
         end) props
  | _ => true
  end.

(** The keys of every object of the tree are pairwise distinct, as they
    are in every JavaScript object. *)
Fixpoint distinct_keys (v : JsValue) : bool :=
  match v with
  | JObj props =>
      nodup_keys (Object_keys props)
      && (fix all (entries : Obj) : bool :=
            match entries with
            | [] => true
            | (_, x) :: rest => distinct_keys x && all rest
            end) props
  | JArr elems =>
      (fix all (l : list JsValue) : bool :=
         match l with
         | [] => true
         | x :: rest => distinct_keys x && all rest
         end) elems
  | _ => true
  end.

(** The leaves of a tree with their paths, in the order [flattenObject]
    meets them. *)
Fixpoint leaves_value (path : list string) (value : JsValue)
  {struct value} : list (list string * JsValue) :=
  match value with
  | JObj props =>
      (fix loop (entries : Obj) : list (list string * JsValue) :=
         match entries with
         | [] => []
         | (key, v) :: rest => leaves_value (path ++ [key]) v ++ loop rest
         end) props
  | JRegExp _ => []
  | _ => [(path, value)]
  end.

Definition join_path (path : list string) : string := fold_left join_key path "".

(** The two entries of the root that come back changed or not at all: an
    object under the empty key, whose keys are then joined to no prefix,
    and a leaf under [__proto__], which the assignment does not store. *)
Definition root_entry_kept (entry : string * JsValue) : bool :=
  let '(k, v) := entry in
  if String.eqb k "" then negb (flatten_descends v)
  else if String.eqb k "__proto__" then flatten_descends v
  else true.

Definition root_kept (o : Obj) : bool := forallb root_entry_kept o.

(** Objects that flattening followed by reconstruction gives back: keys
    are distinct and hold no dot, and every value is either a leaf that
    [flattenObject] stores as it is, or a non-empty object of the same
    kind; at the root ([top]) no object lies under the empty key and no
    leaf under [__proto__]. *)
Inductive recovers (top : bool) : Obj -> Prop :=
| recovers_nil : recovers top []
| recovers_leaf k v rest :
    has_dot k = false -> ~ In k (Object_keys rest) ->
    flatten_descends v = false ->
    (top = true -> k <> "__proto__") ->
    recovers top rest -> recovers top ((k, v) :: rest)
| recovers_node k props rest :
    has_dot k = false -> ~ In k (Object_keys rest) ->
    (top = true -> k <> "") ->
    props <> [] -> recovers false props ->
    recovers top rest -> recovers top ((k, JObj props) :: rest).

(** Rebuilds an object from leaves given with their paths. *)
Definition build (acc : Obj) (leaves : list (list string * JsValue)) : Obj :=
  fold_left (fun acc '(q, x) => set_path q x acc) leaves acc.

Definition under (k : string) (leaf : list string * JsValue) : list string * JsValue :=
  (k :: fst leaf, snd leaf).

Definition child_of (k : string) (o : Obj) : Obj :=
  match obj_lookup k o with Some (JObj c) => c | _ => [] end.

(** ** src/types.ts *)

Inductive JsonAutoFillErrorCode : Type :=
| PARSE_ERROR
| VALIDATION_ERROR
| FILE_READ_ERROR
| FILE_TOO_LARGE
| INVALID_FILE_TYPE.

Record JsonAutoFillError : Type := mkError {
  message : string;
  code : JsonAutoFillErrorCode
}.

(** What a [throw] (or a rejected promise) carries: a
    [JsonAutoFillError], another [Error] with its message, or a value
    that is no [Error] at all. *)
Inductive Thrown : Type :=
| ThrowAutoFill (e : JsonAutoFillError)
| ThrowError (msg : string)
| ThrowOther.

(** How a call ends. *)
Inductive Completion (A : Type) : Type :=
| Return (a : A)
| Throw (t : Thrown).

Arguments Return {A} a.
Arguments Throw {A} t.

#[global] Instance Completion_ret : MRet Completion := @Return.

#[global] Instance Completion_bind : MBind Completion :=
  fun A B (k : A -> Completion B) (c : Completion A) =>
    match c with
    | Return a => k a
    | Throw t => Throw t
    end.

(** ** src/core/parseJson.ts *)

Definition DANGEROUS_KEYS : gset string :=
  {[ "__proto__"; "constructor"; "prototype" ]}.

Definition quote : string := String "034"%char EmptyString.

Definition dangerous_key_error (key : string) : JsonAutoFillError :=
  mkError ("Potentially dangerous key " +:+ quote +:+ key +:+ quote +:+ " found in JSON")
          PARSE_ERROR.

(** [Some key] when the scan throws on [key], [None] when it returns.
    The keys of an array are its indices, none of which is dangerous, so
    the loop over an array only recurses into the elements. *)
Fixpoint assertNoPrototypePollution (obj : JsValue) : option string :=
  match obj with
  | JObj props =>
      (fix loop (entries : Obj) : option string :=
         match entries with
         | [] => None
         | (key, v) :: rest =>
             if bool_decide (key ∈ DANGEROUS_KEYS) then Some key
             else match assertNoPrototypePollution v with
                  | Some found => Some found
                  | None => loop rest
                  end
         end) props
  | JArr elems =>
      (fix loop (l : list JsValue) : option string :=
         match l with
         | [] => None
         | v :: rest =>
             match assertNoPrototypePollution v with
             | Some found => Some found
             | None => loop rest
             end
         end) elems
  | _ => None
  end.

(** The structure holds a reserved key somewhere: in an object, at any
    depth, also below arrays. *)
Inductive has_reserved_key : JsValue -> Prop :=
| reserved_here props key v :
    In (key, v) props -> key ∈ DANGEROUS_KEYS -> has_reserved_key (JObj props)
| reserved_in_property props key v :
    In (key, v) props -> has_reserved_key v -> has_reserved_key (JObj props)
| reserved_in_element elems v :
    In v elems -> has_reserved_key v -> has_reserved_key (JArr elems).

(** A value that is an object, not null and not an array. *)
Definition top_level_object (v : JsValue) : Prop :=
  typeof v = "object" /\ v <> JNull /\ Array_isArray v = false.

Section Pipeline.

(** [JSON.parse] of the platform: the parsed value, or [None] when it
    throws a [SyntaxError].  The reviver passed by [parseJson] returns
    every value unchanged. *)
Variable JSON_parse : string -> option JsValue.

Definition parseJson (text : string) : JsonAutoFillError + Obj :=
  match JSON_parse text with
  | None => inl (mkError "Invalid JSON file" PARSE_ERROR)
  | Some parsed =>
      if negb (String.eqb (typeof parsed) "object")
         || is_null parsed
         || Array_isArray parsed
      then inl (mkError "JSON must be a top-level object (not an array or primitive)"
                        PARSE_ERROR)
      else match assertNoPrototypePollution parsed with
           | Some key => inl (dangerous_key_error key)
           | None => inr (as_obj parsed)
           end
  end.

(** ** src/core/processJsonData.ts *)

Inductive JsonInput : Type :=
| InputText (text : string)
| InputObject (obj : Obj).

Record Options : Type := mkOptions {
  mergeStrategy : option MergeStrategy;
  fieldMap : option FieldMap;
  flatten : option bool;
  transform : option (Obj -> Completion Obj);
  validate : option (Obj -> Completion JsValue);
  onBeforeFill : option (Obj -> Completion JsValue);
  onAfterFill : option (Obj -> Completion unit);
  onError : option (JsonAutoFillError -> Completion unit);
  onSuccess : option (Obj -> Completion unit)
}.

(** [options?.field] *)
Definition opt {A : Type} (options : option Options) (field : Options -> option A)
  : option A :=
  match options with Some o => field o | None => None end.

Definition validation_failed : JsonAutoFillError :=
  mkError "Validation failed" VALIDATION_ERROR.

Definition processJsonData (jsonInput : JsonInput) (options : option Options)
  : Completion (Obj * bool) :=
  parsed ← match jsonInput with
            | InputText text =>
                match parseJson text with
                | inl e => Throw (ThrowAutoFill e)
                | inr o => Return o
                end
            | InputObject o => Return o
            end ;
  let shouldFlatten :=
    match opt options flatten with Some false => false | _ => true end in
  let processed := if shouldFlatten then flattenObject parsed "" [] else parsed in
  let mapped := applyMapping processed (opt options fieldMap) in
  transformed ← match opt options transform with
                 | Some f => f mapped
                 | None => Return mapped
                 end ;
  _ ← match opt options validate with
       | Some f =>
           isValid ← f transformed ;
           if negb (truthy isValid) then Throw (ThrowAutoFill validation_failed)
           else Return tt
       | None => Return tt
       end ;
  match opt options onBeforeFill with
  | Some f =>
      shouldProceed ← f transformed ;
      match shouldProceed with
      | JBool false => Return (transformed, true)
      | _ => Return (transformed, false)
      end
  | None => Return (transformed, false)
  end.

(** ** src/hooks/useJsonAutoFill.ts *)

(** The calls [processJson] makes to its environment, in order. *)
Inductive Event : Type :=
| CallSetFormData (applied : Obj)
| CallOnAfterFill (data : Obj)
| CallOnSuccess (data : Obj)
| CallOnError (e : JsonAutoFillError).

(** One run of [processJson]: how the promise settles, the content of
    the state container afterwards, and the calls made. *)
Record Run : Type := mkRun {
  settled : Completion bool;
  formData : Obj;
  calls : list Event
}.

(** The [catch] clause: wrap what was thrown, report it. *)
Definition autoFillError (error : Thrown) : JsonAutoFillError :=
  match error with
  | ThrowAutoFill e => e
  | ThrowError msg => mkError msg PARSE_ERROR
  | ThrowOther => mkError "Unknown error" PARSE_ERROR
  end.

Definition catch_clause (options : option Options) (error : Thrown)
    (state : Obj) (made : list Event) : Run :=
  let e := autoFillError error in
  match opt options onError with
  | Some report =>
      match report e with
      | Return _ => mkRun (Return false) state (made ++ [CallOnError e])
      | Throw t => mkRun (Throw t) state (made ++ [CallOnError e])
      end
  | None => mkRun (Return false) state made
  end.

(** [opts?.callback?.(data)]: the call, when the callback is configured,
    and the calls made so far. *)
Definition call_optional (callback : option (Obj -> Completion unit))
    (event : Event) (data : Obj) (made : list Event)
  : Completion unit * list Event :=
  match callback with
  | Some f => (f data, made ++ [event])
  | None => (Return tt, made)
  end.

(** [processJson(jsonInput)] of [useJsonAutoFill(setFormData, options)],
    run against a container that holds [prev] and applies an updater
    as soon as it is handed one. *)
Definition processJson (options : option Options) (prev : Obj) (jsonInput : JsonInput)
  : Run :=
  match processJsonData jsonInput options with
  | Throw t => catch_clause options t prev []
  | Return (data, cancelled) =>
      if cancelled then mkRun (Return false) prev []
      else
        let strategy :=
          match opt options mergeStrategy with Some s => s | None => Merge end in
        let next := mergeData prev data strategy in
        let made := [CallSetFormData next] in
        let '(after, made) :=
          call_optional (opt options onAfterFill) (CallOnAfterFill data) data made in
        match after with
        | Throw t => catch_clause options t next made
        | Return _ =>
            let '(success, made) :=
              call_optional (opt options onSuccess) (CallOnSuccess data) data made in
            match success with
            | Throw t => catch_clause options t next made
            | Return _ => mkRun (Return true) next made
            end
        end
  end.

End Pipeline.

(** The destination of a source key under a field map:
    [fieldMap[key] ?? key]. *)
Definition mapped_key (fieldMap : FieldMap) (key : string) : string :=
  match fieldMap_lookup key fieldMap with
  | Some dest => dest
  | None => key
  end.

(** What the pipeline hands to the mapper. *)
Definition flattened_input (options : option Options) (parsed : Obj) : Obj :=
  match opt options flatten with
  | Some false => parsed
  | _ => flattenObject parsed "" []
  end.

(** The same options with the pre-fill gate taken out. *)
Definition without_gate (options : Options) : Options :=
  mkOptions (mergeStrategy options) (fieldMap options) (flatten options)
    (transform options) (validate options) None
    (onAfterFill options) (onError options) (onSuccess options).

(** ** Sample data *)

Definition nested_sample : Obj :=
  [("user", JObj [("first_name", JStr "Jane"); ("last_name", JStr "Doe");
                  ("contact", JObj [("email", JStr "j@x.com")])]);
   ("age", JNum 30); ("nickname", JNull)].

Definition scenario_input : Obj :=
  [("user", JObj [("first_name", JStr "Jane"); ("last_name", JStr "Doe");
                  ("contact", JObj [("email", JStr "j@x.com")])])].

Definition scenario_fieldMap : FieldMap :=
  [("user.first_name", "firstName"); ("user.last_name", "lastName");
   ("user.contact.email", "email")].

Definition no_options : Options :=
  mkOptions None None None None None None None None None.

Definition scenario_options : Options :=
  mkOptions None (Some scenario_fieldMap) None None None None None None None.

Definition scenario_output : Obj :=
  [("firstName", JStr "Jane"); ("lastName", JStr "Doe"); ("email", JStr "j@x.com")].

(** An object with reserved keys at several depths. *)
Definition polluted_input : Obj :=
  [("__proto__", JObj [("polluted", JBool true)]);
   ("profile", JObj [("constructor", JStr "x")]);
   ("list", JArr [JObj [("prototype", JNum 1)]])].

(** Options whose post-fill callback throws. *)
Definition throwing_after_fill : Options :=
  mkOptions None None None None None None
    (Some (fun _ => Throw (ThrowError "boom")))
    (Some (fun _ => Return tt))
    (Some (fun _ => Return tt)).

(** A stand-in for the platform parser that knows no text. *)
Definition parse_nothing (text : string) : option JsValue := None.

(** The calls [processJson] makes on success, given which callbacks are
    configured. *)
Definition success_calls (options : option Options) (next data : Obj) : list Event :=
  CallSetFormData next
  :: (match opt options onAfterFill with Some _ => [CallOnAfterFill data] | None => [] end)
  ++ (match opt options onSuccess with Some _ => [CallOnSuccess data] | None => [] end).

(** [opts?.mergeStrategy ?? "merge"] *)
Definition configured_strategy (options : option Options) : MergeStrategy :=
  match opt options mergeStrategy with Some s => s | None => Merge end.

Definition deep_current : Obj :=
  [("user", JObj [("name", JStr "Ann"); ("tags", JArr [JStr "a"]);
                  ("address", JObj [("city", JStr "Oslo"); ("zip", JStr "0150")])]);
   ("id", JNum 7)].

Definition deep_incoming : Obj :=
  [("user", JObj [("tags", JArr [JStr "b"]);
                  ("address", JObj [("city", JStr "Bergen")])]);
   ("since", JDate 0)].

(** A stand-in for the platform parser on a text whose parse is known. *)
Definition parse_as (parsed : JsValue) (text : string) : option JsValue := Some parsed.
From stdpp Require pretty.


(** ** Further definitions: the rest of the library *)

(** The last source key, in the order of [Object.keys], that a field map
    sends to [dest]. *)
Definition last_source (fieldMap : FieldMap) (dest : string) (keys : list string)
  : option string :=
  find (fun key => String.eqb (mapped_key fieldMap key) dest) (rev keys).

(** No value of the object is one that [flattenObject] would descend
    into. *)
Definition flat_object (o : Obj) : Prop :=
  Forall (fun entry => flatten_descends (snd entry) = false) o.

(** What the pipeline hands to the validation stage, for an input that is
    already an object: the mapped data, through the transform when one is
    configured. *)
Definition transformed_input (options : option Options) (obj : Obj) : Completion Obj :=
  match opt options transform with
  | Some f => f (applyMapping (flattened_input options obj) (opt options fieldMap))
  | None => Return (applyMapping (flattened_input options obj) (opt options fieldMap))
  end.

(** ** src/hooks/useJsonAutoFillFormik.ts and src/hooks/useJsonAutoFillRHF.ts

    A binding is modelled by how its promise settles and by the calls it
    makes, in order.  The form library is the environment: its methods
    ([setValues], [setFieldValue], [reset], [setValue]) are taken to
    return, and what they do to the form is theirs; [formikBag.values]
    and [getValues()] are the object the binding reads. *)

(** [FormikAutoFillOptions]: the shared options and [shouldValidate]. *)
Record FormikOptions : Type := mkFormikOptions {
  formik_shared : Options;
  shouldValidate : option bool
}.

(** [RHFAutoFillOptions]: the shared options, [setValueOptions] and
    [resetOptions]. *)
Record RHFOptions : Type := mkRHFOptions {
  rhf_shared : Options;
  setValueOptions : option Obj;
  resetOptions : option Obj
}.

(** The calls a binding makes: to the form library, and to the callbacks
    of the caller. *)
Inductive BindingCall : Type :=
| FormikSetValues (values : Obj) (validate : bool)
| FormikSetFieldValue (field : string) (value : JsValue) (validate : bool)
| RHFReset (values : Obj) (options : option Obj)
| RHFSetValue (name : string) (value : JsValue) (options : Obj)
| Notify (event : Event).

Record BindingRun : Type := mkBindingRun {
  binding_settled : Completion bool;
  binding_calls : list BindingCall
}.

(** The [catch] clause of both bindings. *)
Definition binding_catch (shared : option Options) (error : Thrown)
    (made : list BindingCall) : BindingRun :=
  let e := autoFillError error in
  match opt shared onError with
  | Some report =>
      match report e with
      | Return _ => mkBindingRun (Return false) (made ++ [Notify (CallOnError e)])
      | Throw t => mkBindingRun (Throw t) (made ++ [Notify (CallOnError e)])
      end
  | None => mkBindingRun (Return false) made
  end.

(** The end of the [try] block of both bindings: [onAfterFill], then
    [onSuccess], then [true]. *)
Definition binding_finish (shared : option Options) (data : Obj)
    (made : list BindingCall) : BindingRun :=
  let '(after, made) :=
    match opt shared onAfterFill with
    | Some f => (f data, made ++ [Notify (CallOnAfterFill data)])
    | None => (Return tt, made)
    end in
  match after with
  | Throw t => binding_catch shared t made
  | Return _ =>
      let '(success, made) :=
        match opt shared onSuccess with
        | Some f => (f data, made ++ [Notify (CallOnSuccess data)])
        | None => (Return tt, made)
        end in
      match success with
      | Throw t => binding_catch shared t made
      | Return _ => mkBindingRun (Return true) made
      end
  end.

(** What the Formik binding does to the form, given the values the bag
    held when the hook was rendered. *)
Definition formik_apply (strategy : MergeStrategy) (validate : bool)
    (values data : Obj) : list BindingCall :=
  match strategy with
  | Replace => [FormikSetValues data validate]
  | Strict =>
      fold_left
        (fun made key =>
           if has_key key values
           then made ++ [FormikSetFieldValue key (obj_get data key) validate]
           else made)
        (Object_keys data) []
  | _ => [FormikSetValues (mergeData values data strategy) validate]
  end.

(** The default of [setValueOptions]. *)
Definition default_setValueOptions : Obj :=
  [("shouldValidate", JBool true); ("shouldDirty", JBool true);
   ("shouldTouch", JBool true)].

Definition getFieldsToSet (current incoming : Obj) (strategy : MergeStrategy) : Obj :=
  match strategy with
  | Strict =>
      fold_left
        (fun result key =>
           if has_key key current then obj_set key (obj_get incoming key) result
           else result)
        (Object_keys incoming) []
  | _ => incoming
  end.

(** What the React Hook Form binding does to the form; [currentValues] is
    what [getValues()] returns. *)
Definition rhf_apply (strategy : MergeStrategy) (options : option RHFOptions)
    (currentValues data : Obj) : list BindingCall :=
  let setOptions :=
    match options with
    | Some o => match setValueOptions o with Some s => s | None => default_setValueOptions end
    | None => default_setValueOptions
    end in
  match strategy with
  | Replace =>
      [RHFReset data (match options with Some o => resetOptions o | None => None end)]
  | _ =>
      let fieldsToSet := getFieldsToSet currentValues data strategy in
      map (fun '(key, value) => RHFSetValue key value setOptions) fieldsToSet
  end.

(** [opts?.shouldValidate ?? true] *)
Definition should_validate (options : option FormikOptions) : bool :=
  match options with
  | Some o => match shouldValidate o with Some b => b | None => true end
  | None => true
  end.

Section Bindings.

Variable JSON_parse : string -> option JsValue.

(** [processJson] of [useJsonAutoFillFormik(formikBag, options)]. *)
Definition processJson_formik (options : option FormikOptions) (values : Obj)
    (jsonInput : JsonInput) : BindingRun :=
  let shared := match options with Some o => Some (formik_shared o) | None => None end in
  match processJsonData JSON_parse jsonInput shared with
  | Throw t => binding_catch shared t []
  | Return (data, cancelled) =>
      if cancelled then mkBindingRun (Return false) []
      else
        let strategy := configured_strategy shared in
        let validate := should_validate options in
        binding_finish shared data (formik_apply strategy validate values data)
  end.

(** [processJson] of [useJsonAutoFillRHF(formMethods, options)]. *)
Definition processJson_rhf (options : option RHFOptions) (currentValues : Obj)
    (jsonInput : JsonInput) : BindingRun :=
  let shared := match options with Some o => Some (rhf_shared o) | None => None end in
  match processJsonData JSON_parse jsonInput shared with
  | Throw t => binding_catch shared t []
  | Return (data, cancelled) =>
      if cancelled then mkBindingRun (Return false) []
      else
        let strategy := configured_strategy shared in
        binding_finish shared data (rhf_apply strategy options currentValues data)
  end.

End Bindings.

(** The fields of [data] that a strict fill touches: those whose key the
    current values already have. *)
Definition strict_fields (current data : Obj) : Obj :=
  List.filter (fun entry => has_key (fst entry) current) data.

(** The callbacks of the caller among the calls of a binding, and among
    the calls of the plain-state hook. *)
Fixpoint notifications (made : list BindingCall) : list Event :=
  match made with
  | [] => []
  | Notify event :: rest => event :: notifications rest
  | _ :: rest => notifications rest
  end.

Fixpoint callbacks (made : list Event) : list Event :=
  match made with
  | [] => []
  | CallSetFormData _ :: rest => callbacks rest
  | event :: rest => event :: callbacks rest
  end.

(** The same options under another merge strategy. *)
Definition with_strategy (strategy : MergeStrategy) (o : Options) : Options :=
  mkOptions (Some strategy) (fieldMap o) (flatten o) (transform o) (validate o)
    (onBeforeFill o) (onAfterFill o) (onError o) (onSuccess o).

(** ** src/hooks/useJsonPaste.ts, src/hooks/useJsonDragAndDrop.ts,
       src/components/JsonFileUploader.tsx

    The three adapters hand text to [onJsonLoaded] / [onJsonPasted]
    (in an application: [processJson]) and errors to [onError].  A
    handler is modelled by how it completes and by the calls it makes,
    in order.  Starting a [FileReader] is a call; what the reader does
    later is not part of the handler.  Event bookkeeping
    ([preventDefault], [stopPropagation], the [isDragging] flag, the
    reset of the input element) is left out.  Sizes and limits are
    natural numbers of bytes. *)

Record File : Type := mkFile {
  file_name : string;
  file_type : string;
  file_size : N
}.

Inductive AdapterCall : Type :=
| Forward (text : string)
| Report (error : JsonAutoFillError)
| ReadAsText (file : File).

(** [s.startsWith(prefix)] and [s.endsWith(suffix)] *)
Definition startsWith (s prefix : string) : bool := String.prefix prefix s.

Definition endsWith (s suffix : string) : bool :=
  let n := String.length s in
  let m := String.length suffix in
  (m <=? n)%nat && String.eqb (String.substring (n - m) m s) suffix.

(** [onError?.(error)] after the calls [made]. *)
Definition report (onError : option (JsonAutoFillError -> Completion unit))
    (error : JsonAutoFillError) (made : list AdapterCall)
  : Completion unit * list AdapterCall :=
  match onError with
  | Some f => (f error, made ++ [Report error])
  | None => (Return tt, made)
  end.

Definition paste_error : JsonAutoFillError :=
  mkError "Pasted content is not valid JSON" PARSE_ERROR.

(** [handlePaste(e)]; [clipboard] is what
    [e.clipboardData?.getData("text/plain")] evaluates to, [None] when
    it is [undefined].  [String.prototype.trim] belongs to the platform
    and is a parameter, like [JSON.parse]. *)
Definition handlePaste (trim : string -> string)
    (JSON_parse : string -> option JsValue) (enabled : bool)
    (onJsonPasted : string -> Completion unit)
    (onError : option (JsonAutoFillError -> Completion unit))
    (clipboard : option string) : Completion unit * list AdapterCall :=
  if negb enabled then (Return tt, [])
  else
    match clipboard with
    | None => (Return tt, [])
    | Some raw =>
        let text := trim raw in
        if String.eqb text "" then (Return tt, [])
        else if negb (startsWith text "{") && negb (startsWith text "[")
        then (Return tt, [])
        else
          let '(attempt, made) :=
            match JSON_parse text with
            | None => (Throw ThrowOther, [])
            | Some _ => (onJsonPasted text, [Forward text])
            end in
          match attempt with
          | Return _ => (Return tt, made)
          | Throw _ => report onError paste_error made
          end
    end.

Definition DEFAULT_MAX_FILE_SIZE : N := 1048576.

(** [(num / den).toFixed(1)] for natural numbers [num] and [den] with
    [den] a power of two and [num] below 2^53: the quotient is exact in
    floating point, and [toFixed] picks the nearest number of tenths,
    the larger one on a tie.  For a larger [num] the definition is not
    what the language computes (a natural number need not be a number of
    the language, and from 10^21 on [toFixed] prints an exponent); the
    sizes of files are below 2^53. *)
Definition toFixed1 (num den : N) : string :=
  let tenths := ((10 * num * 2 + den) / (2 * den))%N in
  pretty.pretty (tenths / 10)%N +:+ "." +:+ pretty.pretty (tenths mod 10)%N.

Definition formatBytes (bytes : N) : string :=
  if (bytes <? 1024)%N then pretty.pretty bytes +:+ " B"
  else if (bytes <? 1048576)%N then toFixed1 bytes 1024 +:+ " KB"
  else toFixed1 bytes 1048576 +:+ " MB".

(** The test both the drop handler and the uploader apply to a file. *)
Definition is_json_file (file : File) : bool :=
  endsWith (file_name file) ".json" || String.eqb (file_type file) "application/json".

Definition no_json_files_error : JsonAutoFillError :=
  mkError "No JSON files found in the dropped items." INVALID_FILE_TYPE.

Definition drop_too_large_error (file : File) (maxFileSize : N) : JsonAutoFillError :=
  mkError ("File " +:+ quote +:+ file_name file +:+ quote +:+ " is too large ("
           +:+ formatBytes (file_size file) +:+ "). Maximum: "
           +:+ formatBytes maxFileSize +:+ ".")
          FILE_TOO_LARGE.

(** The loop of [handleDrop] over the JSON files. *)
Fixpoint drop_loop (maxFileSize : N)
    (onError : option (JsonAutoFillError -> Completion unit))
    (jsonFiles : list File) (made : list AdapterCall)
  : Completion unit * list AdapterCall :=
  match jsonFiles with
  | [] => (Return tt, made)
  | file :: rest =>
      if (maxFileSize <? file_size file)%N then
        match report onError (drop_too_large_error file maxFileSize) made with
        | (Return _, made) => drop_loop maxFileSize onError rest made
        | (Throw t, made) => (Throw t, made)
        end
      else drop_loop maxFileSize onError rest (made ++ [ReadAsText file])
  end.

(** [handleDrop(e)] on the files of [e.dataTransfer.files]. *)
Definition handleDrop (disabled : bool) (maxFileSize : N)
    (onError : option (JsonAutoFillError -> Completion unit))
    (files : list File) : Completion unit * list AdapterCall :=
  if disabled then (Return tt, [])
  else
    let jsonFiles := List.filter is_json_file files in
    if (List.length jsonFiles =? 0)%nat
    then report onError no_json_files_error []
    else drop_loop maxFileSize onError jsonFiles [].

Definition invalid_type_error (file : File) : JsonAutoFillError :=
  mkError ("Invalid file type: " +:+ quote
           +:+ (if String.eqb (file_type file) "" then file_name file
                else file_type file)
           +:+ quote +:+ ". Expected a .json file.")
          INVALID_FILE_TYPE.

Definition upload_too_large_error (file : File) (maxFileSize : N) : JsonAutoFillError :=
  mkError ("File " +:+ quote +:+ file_name file +:+ quote +:+ " too large ("
           +:+ formatBytes (file_size file) +:+ "). Maximum allowed: "
           +:+ formatBytes maxFileSize +:+ ".")
          FILE_TOO_LARGE.

(** [processFile(file)] of the uploader. *)
Definition processFile (maxFileSize : N)
    (onError : option (JsonAutoFillError -> Completion unit))
    (file : File) (made : list AdapterCall)
  : Completion unit * list AdapterCall :=
  if negb (endsWith (file_name file) ".json")
     && negb (String.eqb (file_type file) "application/json")
  then report onError (invalid_type_error file) made
  else if (maxFileSize <? file_size file)%N
  then report onError (upload_too_large_error file maxFileSize) made
  else (Return tt, made ++ [ReadAsText file]).

(** [handleChange(e)] of the uploader on [e.target.files], [None] when
    the input has no file list. *)
Fixpoint upload_loop (maxFileSize : N)
    (onError : option (JsonAutoFillError -> Completion unit))
    (fileList : list File) (made : list AdapterCall)
  : Completion unit * list AdapterCall :=
  match fileList with
  | [] => (Return tt, made)
  | file :: rest =>
      match processFile maxFileSize onError file made with
      | (Return _, made) => upload_loop maxFileSize onError rest made
      | (Throw t, made) => (Throw t, made)
      end
  end.

Definition handleChange (maxFileSize : N)
    (onError : option (JsonAutoFillError -> Completion unit))
    (files : option (list File)) : Completion unit * list AdapterCall :=
  match files with
  | None => (Return tt, [])
  | Some fileList => upload_loop maxFileSize onError fileList []
  end.

(** The files a handler starts to read, in order. *)
Fixpoint files_read (made : list AdapterCall) : list File :=
  match made with
  | [] => []
  | ReadAsText file :: rest => file :: files_read rest
  | _ :: rest => files_read rest
  end.

Fixpoint errors_reported (made : list AdapterCall) : list JsonAutoFillError :=
  match made with
  | [] => []
  | Report error :: rest => error :: errors_reported rest
  | _ :: rest => errors_reported rest
  end.

(** The files either handler accepts under a limit. *)
Definition readable (maxFileSize : N) (file : File) : bool :=
  is_json_file file && (file_size file <=? maxFileSize)%N.

(** A handler for errors that returns whenever it is called. *)
Definition returns (onError : option (JsonAutoFillError -> Completion unit)) : Prop :=
  match onError with
  | Some f => forall e, f e = Return tt
  | None => True
  end.

(** Three files: one within the default limit, one that is not JSON,
    one over the limit. *)
Definition sample_files : list File :=
  [mkFile "form.json" "application/json" 2048;
   mkFile "notes.txt" "text/plain" 10;
   mkFile "dump.json" "" 1048577].

Definition top_level_error : JsonAutoFillError :=
  mkError "JSON must be a top-level object (not an array or primitive)" PARSE_ERROR.

(** The object under construction at [result] holds, under every key,
    a value that satisfies [origin]. *)
Definition built_from (origin : string -> Store.Val -> Prop) (result : nat)
    (h : list Store.Cell) : Prop :=
  exists props,
    h !! result = Some (Store.CObj props)
    /\ forall key v, obj_lookup key props = Some v -> origin key v.

(** ** What every object inherits

    Every object that [JSON.parse] returns, and every object that an
    object literal or a spread creates, has [Object.prototype] as its
    prototype.  [Object.keys], a spread and [hasOwnProperty] see own
    properties only, and so do the definitions above.  The operators
    [key in o], [o[key]] and [o[key] = v] also consult the prototype:
    they find the functions of [Object.prototype] and its accessor
    [__proto__].  Module [Chain] runs [mergeData], [deepMerge],
    [flattenObject] and [applyMapping] once more with the three operators
    as the language defines them, on objects whose prototype is
    [Object.prototype].  The two models agree on objects none of whose
    keys is a property name of [Object.prototype].

    An assignment to [__proto__] that makes a value of the data the
    prototype of an object under construction leaves this model: the
    function then returns [None]. *)

Module Chain.

(** The function-valued properties of [Object.prototype], each with the
    [name] of its function. *)
Definition Object_prototype_functions : list (string * string) :=
  [("constructor", "Object");
   ("__defineGetter__", "__defineGetter__");
   ("__defineSetter__", "__defineSetter__");
   ("hasOwnProperty", "hasOwnProperty");
   ("__lookupGetter__", "__lookupGetter__");
   ("__lookupSetter__", "__lookupSetter__");
   ("isPrototypeOf", "isPrototypeOf");
   ("propertyIsEnumerable", "propertyIsEnumerable");
   ("toString", "toString");
   ("valueOf", "valueOf");
   ("toLocaleString", "toLocaleString")].

(** The property names of [Object.prototype]. *)
Definition inherited (key : string) : bool :=
  String.eqb key "__proto__" || has_key key Object_prototype_functions.

(** [key in o] *)
Definition has (key : string) (o : Obj) : bool := has_key key o || inherited key.

(** What [o[key]] finds: an own value, a function of [Object.prototype],
    the prototype itself (the getter of [__proto__]), or nothing
    ([undefined]). *)
Inductive Found : Type :=
| Own (v : JsValue)
| InheritedFunction (name : string)
| ThePrototype
| Nothing.

(** [o[key]] *)
Definition get (o : Obj) (key : string) : Found :=
  match obj_lookup key o with
  | Some v => Own v
  | None =>
      if String.eqb key "__proto__" then ThePrototype
      else match obj_lookup key Object_prototype_functions with
           | Some name => InheritedFunction name
           | None => Nothing
           end
  end.

(** What the setter of [__proto__] does with a value: it ignores a
    primitive, keeps the prototype when handed [Object.prototype], and
    makes any other object, and [null], the new prototype. *)
Inductive SetterEffect : Type := Ignores | Keeps | Replaces.

(** [o[key] = v].  An own property is overwritten.  A new key is created,
    also under a name that [Object.prototype] holds a function for, since
    those are writable data properties.  A new [__proto__] goes to the
    setter instead, and creates no property. *)
Definition assign {V : Type} (effect : V -> SetterEffect) (key : string) (v : V)
    (o : list (string * V)) : option (list (string * V)) :=
  if String.eqb key "__proto__" && negb (has_key key o)
  then match effect v with
       | Ignores | Keeps => Some o
       | Replaces => None
       end
  else Some (obj_set key v o).

(** The setter on a value of the data: [typeof v] is ["object"] exactly
    for [null] and for the objects. *)
Definition data_effect (v : JsValue) : SetterEffect :=
  if String.eqb (typeof v) "object" then Replaces else Ignores.

(** *** src/core/mergeStrategies.ts *)

(** [isPlainObject(target[key])]: a function is not a plain object,
    [Object.prototype] is one. *)
Definition plain_found (found : Found) : bool :=
  match found with
  | Own v => isPlainObject v
  | ThePrototype => true
  | InheritedFunction _ | Nothing => false
  end.

(** [deepMerge(Object.prototype, source)]: the spread of the target
    copies nothing, as [Object.prototype] has no enumerable property, and
    none of the values read from it is a plain object (its [__proto__]
    reads [null]), so every value of the source is assigned. *)
Definition deepMerge_prototype (source : Obj) : option Obj :=
  fold_left
    (fun result '(key, sourceVal) =>
       result ← result ; assign data_effect key sourceVal result)
    source (Some []).

(** The value [deepMerge] computes for a key, given the own value of the
    target and the value of the source; see [merge_value]. *)
Fixpoint merge_value (targetVal sourceVal : JsValue) {struct sourceVal}
  : option JsValue :=
  match targetVal, sourceVal with
  | JObj target, JObj source =>
      JObj <$>
      (fix loop (entries : Obj) (result : option Obj) {struct entries} : option Obj :=
         match entries with
         | [] => result
         | (key, sv) :: rest =>
             loop rest
               (result ← result ;
                match get target key with
                | Own tv =>
                    if isPlainObject tv && isPlainObject sv
                    then merged ← merge_value tv sv ;
                         assign data_effect key merged result
                    else assign data_effect key sv result
                | ThePrototype =>
                    if isPlainObject sv
                    then merged ← deepMerge_prototype (as_obj sv) ;
                         assign data_effect key (JObj merged) result
                    else assign data_effect key sv result
                | InheritedFunction _ | Nothing => assign data_effect key sv result
                end)
         end) source (Some (spread target []))
  | _, _ => Some sourceVal
  end.

(** One turn of the loop of [deepMerge]. *)
Definition deepMerge_step (target : Obj) (result : option Obj)
    (entry : string * JsValue) : option Obj :=
  let '(key, sourceVal) := entry in
  result ← result ;
  match get target key with
  | Own targetVal =>
      if isPlainObject targetVal && isPlainObject sourceVal
      then merged ← merge_value targetVal sourceVal ;
           assign data_effect key merged result
      else assign data_effect key sourceVal result
  | ThePrototype =>
      if isPlainObject sourceVal
      then merged ← deepMerge_prototype (as_obj sourceVal) ;
           assign data_effect key (JObj merged) result
      else assign data_effect key sourceVal result
  | InheritedFunction _ | Nothing => assign data_effect key sourceVal result
  end.

Definition deepMerge (target source : Obj) : option Obj :=
  fold_left (deepMerge_step target) source (Some (spread target [])).

(** What a property of the object that [mergeData] returns can hold: a
    value of the data, or what the strict strategy read from
    [Object.prototype]. *)
Inductive Stored : Type :=
| Data (v : JsValue)
| BuiltinFunction (name : string)
| ObjectPrototype.

Definition stored (found : Found) : Stored :=
  match found with
  | Own v => Data v
  | InheritedFunction name => BuiltinFunction name
  | ThePrototype => ObjectPrototype
  | Nothing => Data JUndefined
  end.

Definition stored_effect (s : Stored) : SetterEffect :=
  match s with
  | Data v => data_effect v
  | BuiltinFunction _ => Replaces
  | ObjectPrototype => Keeps
  end.

Definition data (o : Obj) : list (string * Stored) :=
  map (fun '(key, v) => (key, Data v)) o.

(** One turn of the reduction of the strict case. *)
Definition strict_step (incoming : Obj) (acc : option (list (string * Stored)))
    (key : string) : option (list (string * Stored)) :=
  acc ← acc ;
  if has key incoming
  then assign stored_effect key (stored (get incoming key)) acc
  else Some acc.

Definition mergeData (current incoming : Obj) (strategy : MergeStrategy)
  : option (list (string * Stored)) :=
  match strategy with
  | Replace => Some (data incoming)
  | Strict =>
      filtered ← fold_left (strict_step incoming) (Object_keys current) (Some []) ;
      Some (spread filtered (spread (data current) []))
  | Deep => data <$> deepMerge current incoming
  | Merge => Some (spread (data incoming) (spread (data current) []))
  end.

(** *** src/core/flattenObject.ts *)

Fixpoint flatten_value (newKey : string) (value : JsValue) (result : option Obj)
  {struct value} : option Obj :=
  match value with
  | JObj props =>
      (fix loop (entries : Obj) (result : option Obj) {struct entries} : option Obj :=
         match entries with
         | [] => result
         | (key, v) :: rest => loop rest (flatten_value (join_key newKey key) v result)
         end) props result
  | JRegExp _ => result
  | _ => result ← result ; assign data_effect newKey value result
  end.

Definition flattenObject (obj : Obj) (parentKey : string) (result : Obj) : option Obj :=
  fold_left
    (fun result '(key, value) => flatten_value (join_key parentKey key) value result)
    obj (Some result).

(** *** src/core/applyMapping.ts *)

(** The text of a built-in function, as V8 prints it. *)
Definition native_source (name : string) : string :=
  "function " +:+ name +:+ "() { [native code] }".

(** [fieldMap[key] ?? key], as a property key.  The field map holds
    strings; what it inherits is a function, which as a property key is
    its text, or, under [__proto__], [Object.prototype], which as a
    property key is ["[object Object]"]. *)
Definition mappedKey (fieldMap : FieldMap) (key : string) : string :=
  match fieldMap_lookup key fieldMap with
  | Some dest => dest
  | None =>
      if String.eqb key "__proto__" then "[object Object]"
      else match obj_lookup key Object_prototype_functions with
           | Some name => native_source name
           | None => key
           end
  end.

Definition applyMapping (data : Obj) (fieldMap : option FieldMap) : option Obj :=
  match fieldMap with
  | None => Some data
  | Some fieldMap =>
      fold_left
        (fun mapped key =>
           mapped ← mapped ;
           assign data_effect (mappedKey fieldMap key) (obj_get data key) mapped)
        (Object_keys data) (Some [])
  end.

(** *** src/hooks/useJsonAutoFillFormik.ts *)

(** The strict branch of the Formik binding: the loop over
    [Object.keys(data)] with its test [key in formikBag.values]. *)
Definition formik_apply_strict (validate : bool) (values data : Obj)
  : list BindingCall :=
  fold_left
    (fun made key =>
       if has key values
       then made ++ [FormikSetFieldValue key (obj_get data key) validate]
       else made)
    (Object_keys data) [].

Definition getFieldsToSet (current incoming : Obj) (strategy : MergeStrategy)
  : option Obj :=
  match strategy with
  | Strict =>
      fold_left
        (fun result key =>
           result ← result ;
           if has key current
           then assign data_effect key (obj_get incoming key) result
           else Some result)
        (Object_keys incoming) (Some [])
  | _ => Some incoming
  end.

Definition rhf_apply (strategy : MergeStrategy) (options : option RHFOptions)
    (currentValues data : Obj) : option (list BindingCall) :=
  let setOptions :=
    match options with
    | Some o => match setValueOptions o with Some s => s | None => default_setValueOptions end
    | None => default_setValueOptions
    end in
  match strategy with
  | Replace =>
      Some [RHFReset data (match options with Some o => resetOptions o | None => None end)]
  | _ =>
      fieldsToSet ← getFieldsToSet currentValues data strategy ;
      Some (map (fun '(key, value) => RHFSetValue key value setOptions) fieldsToSet)
  end.

(** *** Where the two models agree *)

(** No object of the tree, reached through objects, has the key
    [__proto__]. *)
Fixpoint no_proto_key (v : JsValue) : bool :=
  match v with
  | JObj props =>
      (fix all (entries : Obj) : bool :=
         match entries with
         | [] => true
         | (key, x) :: rest =>
             negb (String.eqb key "__proto__") && no_proto_key x && all rest
         end) props
  | _ => true
  end.

(** No key of the object is a property name of [Object.prototype]. *)
Definition plain_keys {V : Type} (o : list (string * V)) : Prop :=
  Forall (fun key => inherited key = false) (Object_keys o).

(** Every key of the data is mentioned by the field map or is not a
    property name of [Object.prototype], and none is sent to
    [__proto__]. *)
Definition mappable (data : Obj) (fieldMap : FieldMap) : Prop :=
  Forall (fun key => (has_key key fieldMap = true \/ inherited key = false)
                     /\ mapped_key fieldMap key <> "__proto__")
         (Object_keys data).

End Chain.

(** A tree with an empty key at the root and below it, and an object
    under the key [__proto__]. *)
Definition empty_key_sample : Obj :=
  [("", JNum 0);
   ("a", JObj [("", JNum 1); ("b", JObj [("", JStr "x"); ("c", JNull)])]);
   ("__proto__", JObj [("d", JBool true)])].

(** Options with every callback after the fill configured, and the same
    behind a pre-fill gate that answers [false]. *)
Definition all_callbacks : Options :=
  mkOptions None None None None None None
    (Some (fun _ => Return tt)) (Some (fun _ => Return tt)) (Some (fun _ => Return tt)).

Definition closed_gate : Options :=
  mkOptions None None None None None (Some (fun _ => Return (JBool false)))
    (Some (fun _ => Return tt)) (Some (fun _ => Return tt)) (Some (fun _ => Return tt)).

(** [key] is a key of an object of the structure, at any depth, also
    below arrays. *)
Inductive key_occurs (key : string) : JsValue -> Prop :=
| occurs_here props v :
    In (key, v) props -> key_occurs key (JObj props)
| occurs_in_property props k v :
    In (k, v) props -> key_occurs key v -> key_occurs key (JObj props)
| occurs_in_element elems v :
    In v elems -> key_occurs key v -> key_occurs key (JArr elems).

(** ** The readers that a drop starts

    [handleDrop] gives every reader it starts two callbacks; the reader
    calls one of them after the handler has returned. *)

(** How a [FileReader] ends: the [load] event, with what
    [event.target?.result] holds when that is a string, or the [error]
    event. *)
Inductive ReadOutcome : Type :=
| Loaded (result : option string)
| Failed.

Definition drop_read_error (file : File) : JsonAutoFillError :=
  mkError ("Failed to read file " +:+ quote +:+ file_name file +:+ quote +:+ ".")
          FILE_READ_ERROR.

(** [reader.onload] and [reader.onerror] of the reader of [file]. *)
Definition drop_reader_done (onJsonLoaded : string -> Completion unit)
    (onError : option (JsonAutoFillError -> Completion unit))
    (file : File) (outcome : ReadOutcome) : Completion unit * list AdapterCall :=
  match outcome with
  | Loaded (Some text) => (onJsonLoaded text, [Forward text])
  | Loaded None => (Return tt, [])
  | Failed => report onError (drop_read_error file) []
  end.

(** The calls of a drop: those of the handler, then those of the readers
    it started, taken here in the order in which they were started. *)
Definition drop_session (disabled : bool) (maxFileSize : N)
    (onJsonLoaded : string -> Completion unit)
    (onError : option (JsonAutoFillError -> Completion unit))
    (outcome : File -> ReadOutcome) (files : list File) : list AdapterCall :=
  let made := snd (handleDrop disabled maxFileSize onError files) in
  made
  ++ flat_map
       (fun file => snd (drop_reader_done onJsonLoaded onError file (outcome file)))
       (files_read made).

(** The texts handed on, in order. *)
Fixpoint texts_forwarded (made : list AdapterCall) : list string :=
  match made with
  | [] => []
  | Forward text :: rest => text :: texts_forwarded rest
  | _ :: rest => texts_forwarded rest
  end.

(** What [flattenObject] keeps: distinct keys, no value it would descend
    into, and no key [__proto__]. *)
Definition flattened (o : Obj) : Prop :=
  NoDup (Object_keys o) /\ flat_object o /\ has_key "__proto__" o = false.
(** ** Induction over nested values *)

Lemma JsValue_nested_ind (P : JsValue -> Prop) :
  P JUndefined -> P JNull ->
  (forall b, P (JBool b)) -> (forall n, P (JNum n)) -> (forall s, P (JStr s)) ->
  (forall elems, Forall P elems -> P (JArr elems)) ->
  (forall props, Forall (fun kv => P (snd kv)) props -> P (JObj props)) ->
  (forall t, P (JDate t)) -> (forall s, P (JRegExp s)) ->
  forall v, P v.
Proof.
  intros Hu Hn Hb Hz Hs Ha Ho Hd Hr.
  fix IH 1.
  intros [ | | b | n | s | elems | props | t | s ];
    [ exact Hu | exact Hn | apply Hb | apply Hz | apply Hs | | | apply Hd | apply Hr ].
  - apply Ha. induction elems as [|x l IHl]; constructor; [apply IH | exact IHl].
  - apply Ho. induction props as [|[k x] l IHl]; constructor; [apply IH | exact IHl].
Qed.

(** ** Facts about own properties *)

Lemma obj_lookup_set {V : Type} k k' (v : V) o :
  obj_lookup k (obj_set k' v o) = if String.eqb k' k then Some v else obj_lookup k o.
Proof.
  induction o as [|[k0 v0] o IH]; simpl.
  - destruct (String.eqb_spec k' k); reflexivity.
  - destruct (String.eqb_spec k0 k') as [->|Hne]; simpl.
    + destruct (String.eqb_spec k' k); reflexivity.
    + destruct (String.eqb_spec k0 k) as [->|Hne']; [|exact IH].
      destruct (String.eqb_spec k' k); [congruence | reflexivity].
Qed.

Lemma has_key_In {V : Type} k (o : list (string * V)) :
  has_key k o = true <-> In k (Object_keys o).
Proof.
  unfold has_key. induction o as [|[k0 v0] o IH]; simpl.
  - split; [discriminate | tauto].
  - destruct (String.eqb_spec k0 k) as [->|Hne]; [tauto|].
    rewrite IH. split; [tauto | intros [?|?]; [congruence | assumption]].
Qed.

Lemma obj_lookup_None {V : Type} k (o : list (string * V)) :
  obj_lookup k o = None <-> ~ In k (Object_keys o).
Proof.
  rewrite <- has_key_In. unfold has_key.
  destruct (obj_lookup k o); split; congruence.
Qed.

Lemma obj_lookup_get k o : has_key k o = true -> obj_lookup k o = Some (obj_get o k).
Proof. unfold has_key, obj_get. destruct (obj_lookup k o); [reflexivity | discriminate]. Qed.

Lemma Object_keys_set {V : Type} k k' (v : V) o :
  In k (Object_keys (obj_set k' v o)) <-> k = k' \/ In k (Object_keys o).
Proof.
  rewrite <- !has_key_In. unfold has_key. rewrite obj_lookup_set.
  destruct (String.eqb_spec k' k) as [->|Hne].
  - tauto.
  - destruct (obj_lookup k o); split; try tauto; intros [?|?]; congruence.
Qed.

Lemma obj_lookup_spread_from {V : Type} k (src : list (string * V)) ks dst :
  obj_lookup k
    (fold_left
       (fun acc key =>
          match obj_lookup key src with
          | Some v => obj_set key v acc
          | None => acc
          end)
       ks dst)
  = if bool_decide (elem_of k ks) && has_key k src
    then obj_lookup k src else obj_lookup k dst.
Proof.
  revert dst. induction ks as [|k0 ks IH]; intros dst; simpl.
  - reflexivity.
  - rewrite IH. clear IH. unfold has_key.
    destruct (bool_decide_reflect (elem_of k ks)) as [Hin|Hnin]; simpl.
    + rewrite bool_decide_eq_true_2 by (by right). simpl.
      destruct (obj_lookup k src) eqn:Hk; [reflexivity|].
      destruct (obj_lookup k0 src) eqn:Hk0; [|reflexivity].
      rewrite obj_lookup_set.
      destruct (String.eqb_spec k0 k) as [->|Hne]; [congruence | reflexivity].
    + destruct (String.eqb_spec k0 k) as [->|Hne].
      * rewrite bool_decide_eq_true_2 by (by left). simpl.
        destruct (obj_lookup k src) eqn:Hk; [|reflexivity].
        rewrite obj_lookup_set, String.eqb_refl. reflexivity.
      * rewrite bool_decide_eq_false_2
          by (intros Hin; apply elem_of_cons in Hin as [?|?]; congruence).
        simpl. destruct (obj_lookup k0 src); [|reflexivity].
        rewrite obj_lookup_set.
        destruct (String.eqb_spec k0 k); [congruence | reflexivity].
Qed.

Lemma obj_lookup_spread {V : Type} k (src dst : list (string * V)) :
  obj_lookup k (spread src dst)
  = if has_key k src then obj_lookup k src else obj_lookup k dst.
Proof.
  unfold spread. rewrite obj_lookup_spread_from.
  destruct (has_key k src) eqn:Hk.
  - rewrite bool_decide_eq_true_2
      by (apply list_elem_of_In, has_key_In; exact Hk).
    reflexivity.
  - rewrite andb_false_r. reflexivity.
Qed.

Lemma Object_keys_spread {V : Type} k (src dst : list (string * V)) :
  In k (Object_keys (spread src dst)) <-> In k (Object_keys src) \/ In k (Object_keys dst).
Proof.
  rewrite <- !has_key_In. unfold has_key at 1. rewrite obj_lookup_spread.
  unfold has_key. destruct (obj_lookup k src), (obj_lookup k dst); intuition congruence.
Qed.

(** ** Merge engine: strict and replace *)

Lemma obj_lookup_filtered k incoming ks acc :
  obj_lookup k
    (fold_left
       (fun acc key =>
          if has_key key incoming then obj_set key (obj_get incoming key) acc else acc)
       ks acc)
  = if bool_decide (elem_of k ks) && has_key k incoming
    then obj_lookup k incoming else obj_lookup k acc.
Proof.
  revert acc. induction ks as [|k0 ks IH]; intros acc; simpl.
  - reflexivity.
  - rewrite IH. clear IH.
    destruct (bool_decide_reflect (elem_of k ks)) as [Hin|Hnin]; simpl.
    + rewrite bool_decide_eq_true_2 by (by right). simpl.
      destruct (has_key k incoming) eqn:Hk; [reflexivity|].
      destruct (has_key k0 incoming) eqn:Hk0; [|reflexivity].
      rewrite obj_lookup_set.
      destruct (String.eqb_spec k0 k) as [->|Hne]; [congruence | reflexivity].
    + destruct (String.eqb_spec k0 k) as [->|Hne].
      * rewrite bool_decide_eq_true_2 by (by left). simpl.
        destruct (has_key k incoming) eqn:Hk; [|reflexivity].
        rewrite obj_lookup_set, String.eqb_refl.
        symmetry. apply obj_lookup_get. exact Hk.
      * rewrite bool_decide_eq_false_2
          by (intros Hin; apply elem_of_cons in Hin as [?|?]; congruence).
        simpl. destruct (has_key k0 incoming); [|reflexivity].
        rewrite obj_lookup_set.
        destruct (String.eqb_spec k0 k); [congruence | reflexivity].
Qed.

Lemma obj_lookup_strict k current incoming :
  obj_lookup k (mergeData current incoming Strict)
  = if has_key k current
    then (if has_key k incoming then obj_lookup k incoming else obj_lookup k current)
    else None.
Proof.
  unfold mergeData. rewrite obj_lookup_spread. unfold has_key at 1.
  rewrite !obj_lookup_filtered, obj_lookup_spread. simpl.
  destruct (has_key k current) eqn:Hc.
  - rewrite bool_decide_eq_true_2
      by (apply list_elem_of_In, has_key_In; exact Hc). simpl.
    destruct (has_key k incoming) eqn:Hi; [|reflexivity].
    unfold has_key in Hi. destruct (obj_lookup k incoming); [reflexivity | discriminate].
  - rewrite bool_decide_eq_false_2
      by (rewrite list_elem_of_In, <- has_key_In; congruence).
    reflexivity.
Qed.

(** The strict strategy read on own properties: the result has exactly
    the keys of [current]; a key of [current] is bound to the value of
    [incoming] when [incoming] has that key and to the value of [current]
    otherwise; a key that only [incoming] has is absent. *)
Lemma mergeData_strict_own (current incoming : Obj) :
  (forall k, In k (Object_keys (mergeData current incoming Strict))
             <-> In k (Object_keys current))
  /\ (forall k, obj_lookup k (mergeData current incoming Strict)
                = if has_key k current
                  then (if has_key k incoming
                        then obj_lookup k incoming else obj_lookup k current)
                  else None)
  /\ mergeData [("name", JStr ""); ("email", JStr "")]
               [("name", JStr "Bob"); ("age", JNum 30)] Strict
     = [("name", JStr "Bob"); ("email", JStr "")].
Proof.
  split; [|split; [intros k; apply obj_lookup_strict | reflexivity]].
  intros k. rewrite <- !has_key_In. unfold has_key at 1.
  rewrite obj_lookup_strict.
  destruct (has_key k current) eqn:Hc; [|split; congruence].
  split; [reflexivity | intros _].
  unfold has_key in *.
  destruct (obj_lookup k incoming), (obj_lookup k current); congruence.
Qed.

(** C4.  For all [current] and [incoming], the replace strategy returns
    [incoming] itself: its keys and values are those of [incoming], and
    nothing of [current] survives unless [incoming] has it too. *)
Theorem mergeData_replace_spec (current incoming : Obj) :
  mergeData current incoming Replace = incoming
  /\ (forall k, obj_lookup k (mergeData current incoming Replace) = obj_lookup k incoming)
  /\ (forall k, In k (Object_keys (mergeData current incoming Replace))
                <-> In k (Object_keys incoming)).
Proof. repeat split; auto. Qed.

(** ** Merge engine: deep *)

Lemma isPlainObject_JObj v : isPlainObject v = true <-> exists o, v = JObj o.
Proof.
  split.
  - destruct v; try discriminate. eauto.
  - intros [o ->]. reflexivity.
Qed.

Lemma merge_value_not_plain tv sv :
  isPlainObject tv && isPlainObject sv = false -> merge_value tv sv = sv.
Proof. destruct sv; try reflexivity. destruct tv; try reflexivity. discriminate. Qed.

Lemma merge_value_plain target source :
  merge_value (JObj target) (JObj source) = JObj (deepMerge target source).
Proof.
  unfold deepMerge. simpl. f_equal.
  generalize (spread target []) as result.
  induction source as [|[key sv] rest IH]; intros result; simpl; [reflexivity|].
  rewrite IH. do 2 f_equal.
  destruct (isPlainObject (obj_get target key) && isPlainObject sv) eqn:Hp;
    [reflexivity | apply merge_value_not_plain; exact Hp].
Qed.

(** The loop of [deepMerge] as the source writes it. *)
Lemma deepMerge_unfold target source :
  deepMerge target source
  = fold_left
      (fun result '(key, sourceVal) =>
         let targetVal := obj_get target key in
         if isPlainObject targetVal && isPlainObject sourceVal
         then obj_set key (JObj (deepMerge (as_obj targetVal) (as_obj sourceVal))) result
         else obj_set key sourceVal result)
      source (spread target []).
Proof.
  unfold deepMerge at 1.
  generalize (spread target []) as result.
  induction source as [|[key sv] rest IH]; intros result; simpl; [reflexivity|].
  rewrite IH. f_equal.
  destruct (isPlainObject (obj_get target key) && isPlainObject sv) eqn:Hp; [|reflexivity].
  apply andb_true_iff in Hp as [[t Ht]%isPlainObject_JObj [s ->]%isPlainObject_JObj].
  rewrite Ht. simpl as_obj. rewrite merge_value_plain. reflexivity.
Qed.

Lemma obj_lookup_deep_loop k target source result :
  NoDup (Object_keys source) ->
  obj_lookup k
    (fold_left
       (fun result '(key, sourceVal) =>
          let targetVal := obj_get target key in
          if isPlainObject targetVal && isPlainObject sourceVal
          then obj_set key (JObj (deepMerge (as_obj targetVal) (as_obj sourceVal))) result
          else obj_set key sourceVal result)
       source result)
  = match obj_lookup k source with
    | Some sv => Some (deep_at (obj_lookup k target) sv)
    | None => obj_lookup k result
    end.
Proof.
  revert result. induction source as [|[key sv] rest IH]; intros result Hnd; simpl.
  - reflexivity.
  - simpl in Hnd. apply NoDup_cons in Hnd as [Hnin Hnd].
    rewrite IH by exact Hnd. clear IH.
    destruct (String.eqb_spec key k) as [->|Hne].
    + assert (obj_lookup k rest = None) as ->.
      { apply obj_lookup_None. rewrite <- list_elem_of_In. exact Hnin. }
      unfold deep_at, obj_get.
      destruct (isPlainObject _ && isPlainObject sv);
        rewrite obj_lookup_set, String.eqb_refl; reflexivity.
    + destruct (obj_lookup k rest); [reflexivity|].
      destruct (isPlainObject _ && isPlainObject sv);
        rewrite obj_lookup_set; destruct (String.eqb_spec key k); congruence.
Qed.

(** The deep strategy read on own properties: when both sides hold a
    plain object under a key the two are deep-merged recursively; in
    every other case where [incoming] has the key, its value overwrites;
    a key that only [current] has keeps its value; the keys of the result
    are those of either side. *)
Lemma mergeData_deep_own (current incoming : Obj) :
  NoDup (Object_keys incoming) ->
  (forall v, isPlainObject v = true
             <-> typeof v = "object" /\ v <> JNull /\ Array_isArray v = false
                 /\ instanceof_Date v = false /\ instanceof_RegExp v = false)
  /\ (forall k,
        obj_lookup k (mergeData current incoming Deep)
        = match obj_lookup k incoming, obj_lookup k current with
          | Some sv, Some tv =>
              if isPlainObject tv && isPlainObject sv
              then Some (JObj (mergeData (as_obj tv) (as_obj sv) Deep))
              else Some sv
          | Some sv, None => Some sv
          | None, kept => kept
          end)
  /\ (forall k, In k (Object_keys (mergeData current incoming Deep))
                <-> In k (Object_keys current) \/ In k (Object_keys incoming)).
Proof.
  intros Hnd.
  assert (Hlook : forall k,
            obj_lookup k (mergeData current incoming Deep)
            = match obj_lookup k incoming with
              | Some sv => Some (deep_at (obj_lookup k current) sv)
              | None => obj_lookup k current
              end).
  { intros k. simpl. rewrite deepMerge_unfold, obj_lookup_deep_loop by exact Hnd.
    destruct (obj_lookup k incoming); [reflexivity|].
    rewrite obj_lookup_spread. simpl.
    unfold has_key. destruct (obj_lookup k current); reflexivity. }
  split; [|split].
  - intros v. split.
    + intros [o ->]%isPlainObject_JObj. repeat split; done.
    + intros (Ht & Hn & Ha & Hd & Hr). destruct v; done.
  - intros k. rewrite Hlook. unfold deep_at. simpl.
    destruct (obj_lookup k incoming) as [sv|], (obj_lookup k current) as [tv|];
      try reflexivity.
    destruct (isPlainObject tv && isPlainObject sv); reflexivity.
  - intros k. rewrite <- !has_key_In. unfold has_key. rewrite Hlook.
    destruct (obj_lookup k incoming), (obj_lookup k current); intuition congruence.
Qed.

(** ** Flattener *)

Lemma flatten_value_descends newKey value result :
  flatten_value newKey value result
  = if flatten_descends value
    then flattenObject (as_obj value) newKey result
    else obj_set newKey value result.
Proof.
  destruct value; try reflexivity.
  simpl. unfold flattenObject. revert result.
  induction props as [|[key v] rest IH]; intros result; simpl; [reflexivity | apply IH].
Qed.

(** The loop of [flattenObject] as the source writes it. *)
Lemma flattenObject_unfold obj parentKey result :
  flattenObject obj parentKey result
  = fold_left
      (fun result '(key, value) =>
         let newKey := join_key parentKey key in
         if flatten_descends value
         then flattenObject (as_obj value) newKey result
         else obj_set newKey value result)
      obj result.
Proof.
  unfold flattenObject at 1. revert result.
  induction obj as [|[key value] rest IH]; intros result; simpl; [reflexivity|].
  rewrite IH, flatten_value_descends. reflexivity.
Qed.

Lemma flattenObject_app o1 o2 parentKey result :
  flattenObject (o1 ++ o2) parentKey result
  = flattenObject o2 parentKey (flattenObject o1 parentKey result).
Proof. unfold flattenObject. apply fold_left_app. Qed.

Lemma join_path_snoc path key :
  join_path (path ++ [key]) = join_key (join_path path) key.
Proof. unfold join_path. rewrite fold_left_app. reflexivity. Qed.

(** Flattening writes the leaves, in order, under their joined paths. *)
Lemma flatten_value_leaves value : forall path result,
  flatten_value (join_path path) value result
  = fold_left (fun r '(q, x) => obj_set (join_path q) x r) (leaves_value path value) result.
Proof.
  induction value as [ | | b | n | s | elems _ | props IH | t | s ]
    using JsValue_nested_ind; intros path result; try reflexivity.
  simpl. revert result.
  induction IH as [|[key v] rest Hv _ IHrest]; intros result; [reflexivity|].
  simpl in Hv. rewrite fold_left_app, <- Hv, join_path_snoc. apply IHrest.
Qed.

Lemma flattenObject_leaves obj result :
  flattenObject obj "" result
  = fold_left (fun r '(q, x) => obj_set (join_path q) x r)
      (leaves_value [] (JObj obj)) result.
Proof.
  rewrite <- (flatten_value_leaves (JObj obj) [] result).
  rewrite flatten_value_descends. reflexivity.
Qed.

(** *** Splitting a joined path *)

Lemma split_dot_not_nil s : split_dot s <> [].
Proof.
  destruct s as [|c s]; simpl; [discriminate|].
  destruct (Ascii.eqb c "."); [discriminate|].
  destruct (split_dot s); discriminate.
Qed.

Lemma split_dot_segment k : has_dot k = false -> split_dot k = [k].
Proof.
  induction k as [|c k IH]; simpl; [reflexivity|].
  intros [Hc Hk]%orb_false_iff. rewrite Hc, IH by exact Hk. reflexivity.
Qed.

Lemma split_dot_append s t :
  split_dot (s +:+ "." +:+ t) = split_dot s ++ split_dot t.
Proof.
  induction s as [|c s IH]; simpl; [reflexivity|].
  destruct (Ascii.eqb c "."); [simpl in IH; rewrite IH; reflexivity|].
  simpl in IH. rewrite IH.
  pose proof (split_dot_not_nil s) as Hs.
  destruct (split_dot s); [congruence | reflexivity].
Qed.

Lemma join_key_not_empty parentKey key : parentKey <> "" -> join_key parentKey key <> "".
Proof.
  unfold join_key. intros Hp. destruct (String.eqb_spec parentKey ""); [contradiction|].
  destruct parentKey as [|c p]; [contradiction | discriminate].
Qed.

Lemma join_path_cons k q : join_path (k :: q) = fold_left join_key q k.
Proof. reflexivity. Qed.

Lemma join_path_not_empty k q : k <> "" -> join_path (k :: q) <> "".
Proof.
  intros Hk. induction q as [|s q IH] using rev_ind; [exact Hk|].
  rewrite app_comm_cons, join_path_snoc. apply join_key_not_empty, IH.
Qed.

(** A path whose segments hold no dot is what splitting its joined key
    gives, unless it starts with an empty segment and goes on. *)
Lemma split_dot_join_path k q :
  Forall (fun s => has_dot s = false) (k :: q) -> (q <> [] -> k <> "") ->
  split_dot (join_path (k :: q)) = k :: q.
Proof.
  induction q as [|s q IH] using rev_ind; intros Hdots Hk.
  - apply Forall_cons in Hdots as [Hdot _]. apply split_dot_segment, Hdot.
  - rewrite app_comm_cons in Hdots. apply Forall_app in Hdots as [Hdots [Hs _]%Forall_cons].
    assert (Hne : k <> "") by (apply Hk; destruct q; discriminate).
    rewrite app_comm_cons, join_path_snoc. unfold join_key.
    destruct (String.eqb_spec (join_path (k :: q)) "") as [Hempty|_];
      [exfalso; exact (join_path_not_empty k q Hne Hempty)|].
    rewrite split_dot_append, IH by (exact Hdots || (intros _; exact Hne)).
    rewrite split_dot_segment by exact Hs. reflexivity.
Qed.

(** *** Leaves and their paths *)

Lemma leaves_value_prefix value : forall path,
  leaves_value path value
  = map (fun leaf => (path ++ fst leaf, snd leaf)) (leaves_value [] value).
Proof.
  induction value as [ | | b | n | s | elems _ | props IH | t | s ]
    using JsValue_nested_ind; intros path; simpl; rewrite ?app_nil_r; try reflexivity.
  induction IH as [|[key v] rest Hv _ IHrest]; [reflexivity|].
  simpl in Hv. rewrite map_app, <- IHrest. f_equal.
  rewrite (Hv (path ++ [key])), (Hv [key]), map_map.
  apply map_ext. intros [q x]. simpl. rewrite <- app_assoc. reflexivity.
Qed.

Lemma leaves_props_cons key v rest :
  leaves_value [] (JObj ((key, v) :: rest))
  = map (under key) (leaves_value [] v) ++ leaves_value [] (JObj rest).
Proof. simpl. rewrite (leaves_value_prefix v [key]). reflexivity. Qed.

Lemma leaves_value_atomic path v :
  flatten_descends v = false -> leaves_value path v = [(path, v)].
Proof. destruct v; try reflexivity; discriminate. Qed.

Lemma obj_set_fresh {V : Type} k (v : V) o :
  ~ In k (Object_keys o) -> obj_set k v o = o ++ [(k, v)].
Proof.
  induction o as [|[k0 v0] o IH]; simpl; intros Hk; [reflexivity|].
  destruct (String.eqb_spec k0 k) as [->|Hne]; [tauto|].
  rewrite IH by tauto. reflexivity.
Qed.

Lemma obj_set_twice {V : Type} k (v v' : V) o :
  obj_set k v (obj_set k v' o) = obj_set k v o.
Proof.
  induction o as [|[k0 v0] o IH]; simpl.
  - rewrite String.eqb_refl. reflexivity.
  - destruct (String.eqb_spec k0 k) as [->|Hne]; simpl.
    + rewrite String.eqb_refl. reflexivity.
    + destruct (String.eqb_spec k0 k); [congruence|]. rewrite IH. reflexivity.
Qed.

Lemma child_of_set k c o : child_of k (obj_set k (JObj c) o) = c.
Proof. unfold child_of. rewrite obj_lookup_set, String.eqb_refl. reflexivity. Qed.

Lemma build_app acc l1 l2 : build acc (l1 ++ l2) = build (build acc l1) l2.
Proof. apply fold_left_app. Qed.

(** Leaves that all lie under [k] rebuild one child object under [k]. *)
Lemma build_under k leaves : forall acc,
  leaves <> [] -> Forall (fun leaf => fst leaf <> []) leaves ->
  build acc (map (under k) leaves)
  = obj_set k (JObj (build (child_of k acc) leaves)) acc.
Proof.
  induction leaves as [|[q x] rest IH]; intros acc Hne Hall; [congruence|].
  apply Forall_cons in Hall as [Hq Hall]. simpl in Hq.
  assert (Hstep : set_path (k :: q) x acc
                  = obj_set k (JObj (set_path q x (child_of k acc))) acc).
  { destruct q; [congruence | reflexivity]. }
  destruct rest as [|leaf rest].
  - simpl. exact Hstep.
  - change (build acc (map (under k) ((q, x) :: leaf :: rest)))
      with (build (set_path (k :: q) x acc) (map (under k) (leaf :: rest))).
    rewrite Hstep, IH by (done || exact Hall).
    rewrite child_of_set, obj_set_twice. reflexivity.
Qed.

Lemma recovers_leaves_shape : forall top o,
  recovers top o ->
  Forall (fun leaf => exists k q, fst leaf = k :: q /\ In k (Object_keys o)
                                  /\ Forall (fun s => has_dot s = false) (fst leaf)
                                  /\ (top = true -> q <> [] -> k <> "")
                                  /\ (top = true -> q = [] -> k <> "__proto__"))
         (leaves_value [] (JObj o)).
Proof.
  induction 1 as [ top | top k v rest Hk Hnin Hv Hproto Hrest IHrest
                   | top k props rest Hk Hnin Hne Hnonempty Hprops IHprops Hrest IHrest ].
  - constructor.
  - rewrite leaves_props_cons, leaves_value_atomic by exact Hv.
    simpl. constructor.
    + exists k, []. simpl. repeat split; [tauto | by repeat constructor | done | auto].
    + eapply Forall_impl; [exact IHrest|].
      intros leaf (k' & q & ? & ? & ?). exists k', q. simpl. tauto.
  - rewrite leaves_props_cons. apply Forall_app. split.
    + apply List.Forall_map. eapply Forall_impl; [exact IHprops|].
      intros leaf (k' & q & Hq & _ & Hseg & _). exists k, (fst leaf). simpl.
      repeat split; [tauto | by constructor | auto |].
      intros _ Hnil. rewrite Hq in Hnil. discriminate.
    + eapply Forall_impl; [exact IHrest|].
      intros leaf (k' & q & ? & ? & ?). exists k', q. simpl. tauto.
Qed.

Lemma recovers_leaves_not_nil : forall top o,
  recovers top o -> o <> [] -> leaves_value [] (JObj o) <> [].
Proof.
  induction 1 as [ top | top k v rest Hk Hnin Hv Hproto Hrest IHrest
                   | top k props rest Hk Hnin Hne Hnonempty Hprops IHprops Hrest IHrest ];
    intros Ho; [congruence| |].
  - rewrite leaves_props_cons, leaves_value_atomic by exact Hv. discriminate.
  - rewrite leaves_props_cons. specialize (IHprops Hnonempty).
    destruct (leaves_value [] (JObj props)); [congruence | discriminate].
Qed.

(** Rebuilding from the leaves of such an object appends that object to
    what was there, provided the keys do not clash. *)
Lemma build_leaves : forall top o,
  recovers top o -> forall acc,
  (forall k, In k (Object_keys o) -> ~ In k (Object_keys acc)) ->
  build acc (leaves_value [] (JObj o)) = acc ++ o.
Proof.
  induction 1 as [ top | top k v rest Hk Hnin Hv Hproto Hrest IHrest
                   | top k props rest Hk Hnin Hne Hnonempty Hprops IHprops Hrest IHrest ];
    intros acc Hfresh.
  - simpl. rewrite app_nil_r. reflexivity.
  - rewrite leaves_props_cons, leaves_value_atomic, build_app by exact Hv.
    simpl. rewrite obj_set_fresh by (apply Hfresh; simpl; tauto).
    rewrite IHrest, <- app_assoc; [reflexivity|].
    intros k' Hk'. unfold Object_keys. rewrite map_app, in_app_iff. simpl.
    intros [Hacc|[<-|[]]]; [|tauto].
    apply (Hfresh k'); [simpl; tauto | exact Hacc].
  - assert (Hk_acc : ~ In k (Object_keys acc)) by (apply Hfresh; simpl; tauto).
    rewrite leaves_props_cons, build_app, build_under.
    + assert (child_of k acc = []) as ->.
      { unfold child_of. apply obj_lookup_None in Hk_acc. rewrite Hk_acc. reflexivity. }
      rewrite (IHprops []) by (intros ? _ []). simpl.
      rewrite obj_set_fresh by exact Hk_acc.
      rewrite IHrest, <- app_assoc; [reflexivity|].
      intros k' Hk'. unfold Object_keys. rewrite map_app, in_app_iff. simpl.
      intros [Hacc|[<-|[]]]; [|tauto].
      apply (Hfresh k'); [simpl; tauto | exact Hacc].
    + apply (recovers_leaves_not_nil false); assumption.
    + eapply Forall_impl; [apply recovers_leaves_shape; exact Hprops|].
      intros leaf (k' & q & -> & _). discriminate.
Qed.

Lemma recovers_paths_NoDup : forall top o,
  recovers top o -> List.NoDup (map fst (leaves_value [] (JObj o))).
Proof.
  induction 1 as [ top | top k v rest Hk Hnin Hv Hproto Hrest IHrest
                   | top k props rest Hk Hnin Hne Hnonempty Hprops IHprops Hrest IHrest ].
  - constructor.
  - rewrite leaves_props_cons, leaves_value_atomic by exact Hv. simpl.
    constructor; [|exact IHrest].
    intros ([q x] & Hq & Hin)%in_map_iff. simpl in Hq. subst q.
    pose proof (recovers_leaves_shape top rest Hrest) as Hshape.
    rewrite List.Forall_forall in Hshape.
    destruct (Hshape _ Hin) as (k' & q & Heq & Hk' & _).
    simpl in Heq. congruence.
  - rewrite leaves_props_cons, map_app, map_map. simpl.
    apply List.NoDup_app; [|exact IHrest|].
    + rewrite <- (map_map fst (cons k)).
      apply NoDup_map_NoDup_ForallPairs; [|exact IHprops].
      intros ? ? _ _ ?. congruence.
    + intros p ([q x] & <- & _)%in_map_iff ([q' x'] & Hq' & Hin)%in_map_iff.
      pose proof (recovers_leaves_shape top rest Hrest) as Hshape.
      rewrite List.Forall_forall in Hshape.
      destruct (Hshape _ Hin) as (k' & q0 & Heq & Hk' & _).
      simpl in *. congruence.
Qed.

Lemma recovers_flat_keys_NoDup o :
  recovers true o ->
  List.NoDup (map (fun leaf => join_path (fst leaf)) (leaves_value [] (JObj o))).
Proof.
  intros Ho. apply (NoDup_map_inv split_dot). rewrite map_map.
  erewrite map_ext_in; [apply (recovers_paths_NoDup true); exact Ho|].
  intros leaf Hin. simpl.
  pose proof (recovers_leaves_shape true o Ho) as Hshape.
  rewrite List.Forall_forall in Hshape.
  destruct (Hshape _ Hin) as (k & q & Heq & _ & Hseg & Hk & _).
  rewrite Heq in *. apply split_dot_join_path; [exact Hseg | auto].
Qed.

Lemma write_leaves_fresh (leaves : list (list string * JsValue)) : forall acc : Obj,
  List.NoDup (map (fun leaf => join_path (fst leaf)) leaves) ->
  (forall leaf, In leaf leaves -> ~ In (join_path (fst leaf)) (Object_keys acc)) ->
  fold_left (fun r '(q, x) => obj_set (join_path q) x r) leaves acc
  = acc ++ map (fun leaf => (join_path (fst leaf), snd leaf)) leaves.
Proof.
  induction leaves as [|[q x] rest IH]; intros acc Hnd Hfresh; simpl.
  - rewrite app_nil_r. reflexivity.
  - simpl in Hnd. apply NoDup_cons_iff in Hnd as [Hq Hnd].
    rewrite obj_set_fresh by (apply (Hfresh (q, x)); simpl; tauto).
    rewrite IH, <- app_assoc; [reflexivity | exact Hnd |].
    intros leaf Hin. unfold Object_keys. rewrite map_app, in_app_iff. simpl.
    intros [Hacc|[Heq|[]]].
    + apply (Hfresh leaf); [simpl; tauto | exact Hacc].
    + apply Hq. rewrite Heq. apply (in_map (fun leaf => join_path (fst leaf))), Hin.
Qed.

Lemma unflatten_joined leaves : forall acc,
  Forall (fun leaf => exists k q, fst leaf = k :: q
                                  /\ Forall (fun s => has_dot s = false) (fst leaf)
                                  /\ (q <> [] -> k <> "")) leaves ->
  fold_left (fun acc '(key, v) => set_path (split_dot key) v acc)
    (map (fun leaf => (join_path (fst leaf), snd leaf)) leaves) acc
  = build acc leaves.
Proof.
  induction leaves as [|[p x] rest IH]; intros acc Hall; [reflexivity|].
  apply Forall_cons in Hall as [(k & q & Heq & Hseg & Hk) Hall]. simpl in *.
  subst p. rewrite split_dot_join_path by assumption. apply IH, Hall.
Qed.

(** Flattening such an object and rebuilding it by dot paths gives the
    object back. *)
Lemma unflatten_flattenObject o :
  recovers true o -> unflatten (flattenObject o "" []) = o.
Proof.
  intros Ho. rewrite flattenObject_leaves, write_leaves_fresh.
  - simpl. unfold unflatten. rewrite unflatten_joined.
    + apply (build_leaves true o Ho []). intros ? _ [].
    + eapply Forall_impl; [apply recovers_leaves_shape; exact Ho|].
      intros leaf (k & q & Heq & _ & Hseg & Hk & _). exists k, q. auto.
  - apply recovers_flat_keys_NoDup, Ho.
  - intros ? _ [].
Qed.

Lemma nodup_keys_cons k ks :
  nodup_keys (k :: ks) = true -> ~ In k ks /\ nodup_keys ks = true.
Proof.
  simpl. intros [Hk Hks]%andb_true_iff. split; [|exact Hks].
  intros Hin. apply negb_true_iff in Hk.
  assert (existsb (String.eqb k) ks = true); [|congruence].
  apply existsb_exists. exists k. split; [exact Hin | apply String.eqb_refl].
Qed.

Lemma is_primitive_atomic v : is_primitive v = true -> flatten_descends v = false.
Proof. destruct v; try reflexivity; discriminate. Qed.

(** The executable checks imply [recovers]. *)
Lemma recovers_of_checks top o :
  distinct_keys (JObj o) = true -> primitive_leaves (JObj o) = true ->
  dot_free_keys (JObj o) = true -> no_empty_object (JObj o) = true ->
  (top = true -> root_kept o = true) ->
  recovers top o.
Proof.
  enough (H : forall v, match v with
                        | JObj o =>
                            forall top,
                            distinct_keys v = true -> primitive_leaves v = true ->
                            dot_free_keys v = true -> no_empty_object v = true ->
                            (top = true -> root_kept o = true) ->
                            recovers top o
                        | _ => True
                        end) by exact (H (JObj o) top).
  clear top o.
  induction v as [ | | b | n | s | elems _ | props IH | t | s ]
    using JsValue_nested_ind; try exact I.
  induction IH as [|[key v] rest Hv _ IHrest]; [intros; constructor|].
  intros top Hd Hp Hs He Hroot.
  change (distinct_keys (JObj ((key, v) :: rest)))
    with (nodup_keys (key :: Object_keys rest)
          && (distinct_keys v
              && (fix all (entries : Obj) : bool :=
                    match entries with
                    | [] => true
                    | (_, x) :: rest => distinct_keys x && all rest
                    end) rest)) in Hd.
  apply andb_true_iff in Hd as [[Hnin Hnd]%nodup_keys_cons [Hdv Hdrest]%andb_true_iff].
  simpl in Hp, Hs, He.
  apply andb_true_iff in Hp as [Hpv Hprest].
  apply andb_true_iff in Hs as [[Hkey%negb_true_iff Hsv]%andb_true_iff Hsrest].
  apply andb_true_iff in He as [[Hev Hnv]%andb_true_iff Herest].
  assert (Hroot' : top = true -> root_entry_kept (key, v) = true /\ root_kept rest = true).
  { intros Htop. apply andb_true_iff. exact (Hroot Htop). }
  assert (Hrest : recovers top rest).
  { apply IHrest; simpl; try assumption; [|intros Htop; apply Hroot', Htop].
    rewrite Hnd, Hdrest. reflexivity. }
  assert (Hleaf : flatten_descends v = false -> top = true -> key <> "__proto__").
  { intros Hflat Htop ->. destruct (Hroot' Htop) as [Hkept _].
    simpl in Hkept. rewrite Hflat in Hkept. discriminate. }
  assert (Hnode : flatten_descends v = true -> top = true -> key <> "").
  { intros Hflat Htop ->. destruct (Hroot' Htop) as [Hkept _].
    simpl in Hkept. rewrite Hflat in Hkept. discriminate. }
  destruct v as [ | | b | n | s | elems | props | t | s ];
    try (apply recovers_leaf;
         [assumption | assumption | reflexivity | apply Hleaf; reflexivity | assumption]);
    try discriminate.
  apply recovers_node; try assumption.
  - apply Hnode. reflexivity.
  - destruct props; [discriminate | discriminate].
  - apply (Hv false); try assumption. discriminate.
Qed.

Lemma flattenObject_skip o1 o2 key value parentKey result :
  flatten_descends value = true -> as_obj value = [] ->
  flattenObject (o1 ++ (key, value) :: o2) parentKey result
  = flattenObject (o1 ++ o2) parentKey result.
Proof.
  intros Hd He. rewrite !flattenObject_app.
  change ((key, value) :: o2) with ([(key, value)] ++ o2).
  rewrite flattenObject_app. f_equal.
  unfold flattenObject at 1. simpl.
  rewrite flatten_value_descends, Hd, He. reflexivity.
Qed.

(** C10.  In every input object, at every prefix, a key whose value is a
    non-null object that is neither an array nor a date and has no own
    enumerable property adds nothing to the output of [flattenObject]:
    the output is that of the object without the key.  So
    [flattenObject({a: {}})] is [{}], the output of [{}] itself, and
    flattening loses such keys. *)
Theorem flattenObject_drops_empty_objects :
  (forall o1 o2 key value parentKey result,
      flatten_descends value = true -> as_obj value = [] ->
      flattenObject (o1 ++ (key, value) :: o2) parentKey result
      = flattenObject (o1 ++ o2) parentKey result)
  /\ flattenObject [("a", JObj [])] "" [] = []
  /\ (flattenObject [("a", JObj [])] "" [] = flattenObject [] "" []
      /\ [("a", JObj [])] <> ([] : Obj)).
Proof.
  split; [exact flattenObject_skip|]. repeat split; done.
Qed.

Lemma flattenObject_drops_empty_objects_witness :
  flattenObject ([("x", JNum 1)] ++ ("a", JObj []) :: [("y", JObj [("z", JRegExp "a+")])])
    "" []
  = flattenObject ([("x", JNum 1)] ++ [("y", JObj [("z", JRegExp "a+")])]) "" []
  /\ flattenObject ([("x", JNum 1)] ++ [("y", JObj [("z", JRegExp "a+")])]) "" []
     = [("x", JNum 1)].
Proof.
  split; [|reflexivity].
  apply (proj1 flattenObject_drops_empty_objects); reflexivity.
Defined.

(** ** Safe parser *)

Lemma scan_found v key :
  assertNoPrototypePollution v = Some key ->
  key ∈ DANGEROUS_KEYS /\ has_reserved_key v.
Proof.
  revert key.
  induction v as [ | | b | n | s | elems IH | props IH | t | s ]
    using JsValue_nested_ind; intros found; try discriminate.
  - simpl. induction IH as [|v rest Hv _ IHrest]; [discriminate|].
    destruct (assertNoPrototypePollution v) as [k|] eqn:Hscan.
    + intros [= <-]. destruct (Hv k eq_refl) as [Hk Hres].
      split; [exact Hk|]. apply (reserved_in_element _ v); [by left | exact Hres].
    + intros Hrest. destruct (IHrest Hrest) as [Hk Hres]. split; [exact Hk|].
      inversion Hres as [ | | ? w Hin Hw ]; subst.
      apply (reserved_in_element _ w); [by right | exact Hw].
  - simpl. induction IH as [|[k v] rest Hv _ IHrest]; [discriminate|].
    simpl in Hv. destruct (bool_decide_reflect (k ∈ DANGEROUS_KEYS)) as [Hk|Hk].
    + intros [= <-]. split; [exact Hk|].
      apply (reserved_here _ k v); [by left | exact Hk].
    + destruct (assertNoPrototypePollution v) as [k'|] eqn:Hscan.
      * intros [= <-]. destruct (Hv k' eq_refl) as [Hk' Hres].
        split; [exact Hk'|]. apply (reserved_in_property _ k v); [by left | exact Hres].
      * intros Hrest. destruct (IHrest Hrest) as [Hk' Hres]. split; [exact Hk'|].
        inversion Hres as [ ? k0 w Hin Hw | ? k0 w Hin Hw | ]; subst.
        -- apply (reserved_here _ k0 w); [by right | exact Hw].
        -- apply (reserved_in_property _ k0 w); [by right | exact Hw].
Qed.

Lemma scan_object_finds props key v :
  In (key, v) props ->
  key ∈ DANGEROUS_KEYS \/ (exists found, assertNoPrototypePollution v = Some found) ->
  exists found, assertNoPrototypePollution (JObj props) = Some found.
Proof.
  intros Hin Hhit. simpl. induction props as [|[k0 v0] rest IH]; [destruct Hin|].
  destruct (bool_decide_reflect (k0 ∈ DANGEROUS_KEYS)) as [Hk0|Hk0]; [eauto|].
  destruct (assertNoPrototypePollution v0) as [k'|] eqn:Hscan; [eauto|].
  destruct Hin as [[= -> ->]|Hin]; [|exact (IH Hin)].
  destruct Hhit as [?|[found Hfound]]; [tauto | congruence].
Qed.

Lemma scan_array_finds elems v :
  In v elems ->
  (exists found, assertNoPrototypePollution v = Some found) ->
  exists found, assertNoPrototypePollution (JArr elems) = Some found.
Proof.
  intros Hin Hhit. simpl. induction elems as [|v0 rest IH]; [destruct Hin|].
  destruct (assertNoPrototypePollution v0) as [k'|] eqn:Hscan; [eauto|].
  destruct Hin as [->|Hin]; [|exact (IH Hin)].
  destruct Hhit as [found Hfound]. congruence.
Qed.

Lemma scan_complete v :
  has_reserved_key v -> exists found, assertNoPrototypePollution v = Some found.
Proof.
  induction 1 as [props key v Hin Hkey | props key v Hin _ IH | elems v Hin _ IH].
  - apply (scan_object_finds props key v Hin). by left.
  - apply (scan_object_finds props key v Hin). by right.
  - apply (scan_array_finds elems v Hin IH).
Qed.

Lemma scan_clean v : assertNoPrototypePollution v = None <-> ~ has_reserved_key v.
Proof.
  split.
  - intros Hnone [found Hfound]%scan_complete. congruence.
  - intros Hclean. destruct (assertNoPrototypePollution v) as [k|] eqn:Hscan; [|reflexivity].
    destruct Hclean. exact (proj2 (scan_found v k Hscan)).
Qed.

Lemma scan_scenario_input : assertNoPrototypePollution (JObj scenario_input) = None.
Proof. vm_compute. reflexivity. Qed.

Lemma scan_polluted_input :
  assertNoPrototypePollution (JObj polluted_input) = Some "__proto__".
Proof. vm_compute. reflexivity. Qed.

Lemma top_level_test v :
  negb (String.eqb (typeof v) "object") || is_null v || Array_isArray v = false
  <-> top_level_object v.
Proof.
  unfold top_level_object. destruct v; simpl; split; try discriminate; try done;
    intros (? & ? & ?); congruence.
Qed.

Section ParserProperties.

Variable JSON_parse : string -> option JsValue.

(** C1.  [parseJson text] fails, always with code [PARSE_ERROR],
    exactly when [text] is not valid JSON, or the parsed value is not a
    non-null, non-array object, or the parsed structure holds one of
    the keys [__proto__], [constructor], [prototype] at some depth,
    also in objects below arrays; a top-level array, string, number,
    boolean or null is rejected; in every other case [parseJson]
    returns the parsed object. *)
Theorem parseJson_spec (text : string) :
  (forall e, parseJson JSON_parse text = inl e -> code e = PARSE_ERROR)
  /\ ((exists e, parseJson JSON_parse text = inl e)
      <-> (JSON_parse text = None
           \/ exists v, JSON_parse text = Some v
                        /\ (~ top_level_object v \/ has_reserved_key v)))
  /\ (forall v, JSON_parse text = Some v ->
                is_primitive v || Array_isArray v = true ->
                exists e, parseJson JSON_parse text = inl e /\ code e = PARSE_ERROR)
  /\ (forall v, JSON_parse text = Some v -> top_level_object v ->
                ~ has_reserved_key v ->
                parseJson JSON_parse text = inr (as_obj v)).
Proof.
  unfold parseJson. destruct (JSON_parse text) as [parsed|] eqn:Hparse.
  2:{ repeat split; try discriminate.
      - intros e [= <-]. reflexivity.
      - intros _. by left.
      - eauto. }
  destruct (negb (String.eqb (typeof parsed) "object") || is_null parsed
            || Array_isArray parsed) eqn:Htop.
  { assert (Hnot : ~ top_level_object parsed).
    { intros H%top_level_test. congruence. }
    repeat split.
    - intros e [= <-]. reflexivity.
    - intros _. right. exists parsed. tauto.
    - eauto.
    - intros v [= <-] _. eauto.
    - intros v [= <-] Hv. tauto. }
  apply top_level_test in Htop as Hobj.
  destruct (assertNoPrototypePollution parsed) as [key|] eqn:Hscan.
  - destruct (scan_found parsed key Hscan) as [Hkey Hres].
    repeat split.
    + intros e [= <-]. reflexivity.
    + intros _. right. exists parsed. tauto.
    + eauto.
    + intros v [= <-] _. eauto.
    + intros v [= <-] _ Hclean. tauto.
  - apply scan_clean in Hscan as Hclean.
    repeat split; try discriminate.
    + intros [e He]. discriminate.
    + intros [[=]|(v & [= <-] & [?|?])]; tauto.
    + intros v [= <-] Hv. destruct Hobj as (Ht & Hn & Ha).
      destruct parsed; discriminate || done.
    + intros v [= <-] _ _. reflexivity.
Qed.

End ParserProperties.

Lemma parseJson_spec_witness :
  (exists e, parseJson (parse_as (JObj polluted_input)) "text" = inl e
             /\ code e = PARSE_ERROR)
  /\ (exists e, parseJson (parse_as (JArr [JObj scenario_input])) "text" = inl e
                /\ code e = PARSE_ERROR)
  /\ parseJson (parse_as (JObj scenario_input)) "text" = inr scenario_input.
Proof.
  split; [|split].
  - destruct (parseJson_spec (parse_as (JObj polluted_input)) "text")
      as (Hcode & Hfails & _ & _).
    destruct (proj2 Hfails) as [e He]; [|exists e; split; [exact He | exact (Hcode e He)]].
    right. exists (JObj polluted_input). split; [reflexivity|]. right.
    exact (proj2 (scan_found _ _ scan_polluted_input)).
  - destruct (parseJson_spec (parse_as (JArr [JObj scenario_input])) "text")
      as (_ & _ & Hrejected & _).
    apply (Hrejected (JArr [JObj scenario_input])); reflexivity.
  - destruct (parseJson_spec (parse_as (JObj scenario_input)) "text")
      as (_ & _ & _ & Haccepted).
    apply (Haccepted (JObj scenario_input)); [reflexivity | by repeat split |].
    apply scan_clean, scan_scenario_input.
Defined.

(** ** Mapper *)

Lemma applyMapping_loop_keys fm data ks : forall mapped k',
  In k' (Object_keys
           (fold_left
              (fun mapped key =>
                 let mappedKey :=
                   match fieldMap_lookup key fm with
                   | Some dest => dest
                   | None => key
                   end in
                 obj_set mappedKey (obj_get data key) mapped)
              ks mapped))
  <-> In k' (Object_keys mapped) \/ exists k, In k ks /\ mapped_key fm k = k'.
Proof.
  induction ks as [|k0 ks IH]; intros mapped k'; simpl.
  - split; [tauto | intros [?|(? & [] & _)]; assumption].
  - rewrite IH, Object_keys_set. fold (mapped_key fm k0). split.
    + intros [[->|?]|(k & ? & ?)]; eauto.
    + intros [?|(k & [->|?] & ?)]; eauto.
Qed.

Lemma applyMapping_loop_other fm data key ks : forall mapped,
  (forall k, In k ks -> mapped_key fm k <> key) ->
  obj_lookup key
    (fold_left
       (fun mapped key =>
          let mappedKey :=
            match fieldMap_lookup key fm with
            | Some dest => dest
            | None => key
            end in
          obj_set mappedKey (obj_get data key) mapped)
       ks mapped)
  = obj_lookup key mapped.
Proof.
  induction ks as [|k0 ks IH]; intros mapped Hother; simpl; [reflexivity|].
  rewrite IH by (intros k Hk; apply Hother; by right).
  rewrite obj_lookup_set. fold (mapped_key fm k0).
  destruct (String.eqb_spec (mapped_key fm k0) key) as [Heq|]; [|reflexivity].
  destruct (Hother k0); [by left | exact Heq].
Qed.

Lemma applyMapping_loop_own fm data key ks : forall mapped,
  In key ks -> mapped_key fm key = key ->
  (forall k, In k ks -> mapped_key fm k = key -> k = key) ->
  obj_lookup key
    (fold_left
       (fun mapped key =>
          let mappedKey :=
            match fieldMap_lookup key fm with
            | Some dest => dest
            | None => key
            end in
          obj_set mappedKey (obj_get data key) mapped)
       ks mapped)
  = Some (obj_get data key).
Proof.
  induction ks as [|k0 ks IH]; intros mapped Hin Hown Honly; [destruct Hin|].
  simpl. destruct (in_dec String.string_dec key ks) as [Hlater|Hlast].
  - apply IH; [exact Hlater | exact Hown |]. intros k Hk. apply Honly. by right.
  - destruct Hin as [->|?]; [|tauto].
    rewrite applyMapping_loop_other.
    + fold (mapped_key fm key). rewrite Hown, obj_lookup_set, String.eqb_refl. reflexivity.
    + intros k Hk Heq. apply Hlast. rewrite <- (Honly k); [exact Hk | by right | exact Heq].
Qed.

Lemma applyMapping_pass_through data fm key :
  In key (Object_keys data) -> fieldMap_lookup key fm = None ->
  In key (Object_keys (applyMapping data (Some fm)))
  /\ ((forall k, In k (Object_keys data) -> fieldMap_lookup k fm <> Some key) ->
      obj_lookup key (applyMapping data (Some fm)) = obj_lookup key data).
Proof.
  intros Hin Hnone.
  assert (Hown : mapped_key fm key = key) by (unfold mapped_key; rewrite Hnone; reflexivity).
  split.
  - apply applyMapping_loop_keys. right. exists key. split; assumption.
  - intros Hfree. simpl. rewrite applyMapping_loop_own; try assumption.
    + symmetry. apply obj_lookup_get, has_key_In, Hin.
    + intros k Hk. unfold mapped_key.
      destruct (fieldMap_lookup k fm) as [dest|] eqn:Hk'; [|done].
      intros ->. destruct (Hfree k Hk Hk').
Qed.

(** ** Pipeline orchestrator *)

Section PipelineProperties.

Variable JSON_parse : string -> option JsValue.

Lemma processJsonData_object obj options :
  processJsonData JSON_parse (InputObject obj) options
  = (let mapped := applyMapping (flattened_input options obj) (opt options fieldMap) in
     transformed ← match opt options transform with
                   | Some f => f mapped
                   | None => Return mapped
                   end ;
     _ ← match opt options validate with
         | Some f =>
             isValid ← f transformed ;
             if negb (truthy isValid) then Throw (ThrowAutoFill validation_failed)
             else Return tt
         | None => Return tt
         end ;
     match opt options onBeforeFill with
     | Some f =>
         shouldProceed ← f transformed ;
         match shouldProceed with
         | JBool false => Return (transformed, true)
         | _ => Return (transformed, false)
         end
     | None => Return (transformed, false)
     end).
Proof.
  unfold processJsonData, flattened_input. simpl.
  destruct (opt options flatten) as [[|]|]; reflexivity.
Qed.

Lemma processJsonData_text text options :
  processJsonData JSON_parse (InputText text) options
  = match parseJson JSON_parse text with
    | inl e => Throw (ThrowAutoFill e)
    | inr parsed => processJsonData JSON_parse (InputObject parsed) options
    end.
Proof. unfold processJsonData. destruct (parseJson JSON_parse text); reflexivity. Qed.

Lemma processJsonData_data obj options data cancelled :
  processJsonData JSON_parse (InputObject obj) options = Return (data, cancelled) ->
  match opt options transform with
  | Some f => f (applyMapping (flattened_input options obj) (opt options fieldMap))
  | None => Return (applyMapping (flattened_input options obj) (opt options fieldMap))
  end = Return data.
Proof.
  rewrite processJsonData_object. cbv zeta.
  destruct (match opt options transform with Some f => _ | None => _ end)
    as [transformed|t]; [|discriminate].
  simpl.
  destruct (opt options validate) as [check|]; simpl.
  - destruct (check transformed) as [isValid|]; [|discriminate]. simpl.
    destruct (negb (truthy isValid)); [discriminate|]. simpl.
    destruct (opt options onBeforeFill) as [gate|]; simpl; [|congruence].
    destruct (gate transformed) as [[ | | [|] | | | | | | ]|]; simpl; congruence.
  - destruct (opt options onBeforeFill) as [gate|]; simpl; [|congruence].
    destruct (gate transformed) as [[ | | [|] | | | | | | ]|]; simpl; congruence.
Qed.



(** *** The plain-state binding *)

Lemma processJsonData_gate input opts gate data :
  onBeforeFill opts = Some gate ->
  processJsonData JSON_parse input (Some (without_gate opts)) = Return (data, false) ->
  gate data = Return (JBool false) ->
  processJsonData JSON_parse input (Some opts) = Return (data, true).
Proof.
  intros Hgate.
  assert (Hobj : forall obj,
             processJsonData JSON_parse (InputObject obj) (Some (without_gate opts))
             = Return (data, false) ->
             gate data = Return (JBool false) ->
             processJsonData JSON_parse (InputObject obj) (Some opts)
             = Return (data, true)).
  { intros obj. rewrite !processJsonData_object. unfold flattened_input. simpl.
    rewrite Hgate.
    destruct (match transform opts with Some f => _ | None => _ end)
      as [transformed|]; [|discriminate]. simpl.
    destruct (validate opts) as [check|]; simpl.
    - destruct (check transformed) as [isValid|]; [|discriminate]. simpl.
      destruct (negb (truthy isValid)); [discriminate|]. simpl.
      intros [= <-] ->. reflexivity.
    - intros [= <-] ->. reflexivity. }
  destruct input as [text|obj]; [|apply Hobj].
  rewrite !processJsonData_text.
  destruct (parseJson JSON_parse text) as [e|parsed]; [discriminate | apply Hobj].
Qed.

Lemma processJsonData_cancelled input options data :
  processJsonData JSON_parse input options = Return (data, true) ->
  exists gate, opt options onBeforeFill = Some gate /\ gate data = Return (JBool false).
Proof.
  assert (Hobj : forall obj,
             processJsonData JSON_parse (InputObject obj) options = Return (data, true) ->
             exists gate, opt options onBeforeFill = Some gate
                          /\ gate data = Return (JBool false)).
  { intros obj. rewrite processJsonData_object. cbv zeta.
    destruct (match opt options transform with Some f => _ | None => _ end)
      as [transformed|]; [|discriminate]. simpl.
    assert (Hend : match opt options onBeforeFill with
                   | Some f =>
                       shouldProceed ← f transformed ;
                       match shouldProceed with
                       | JBool false => Return (transformed, true)
                       | _ => Return (transformed, false)
                       end
                   | None => Return (transformed, false)
                   end = Return (data, true) ->
                   exists gate, opt options onBeforeFill = Some gate
                                /\ gate data = Return (JBool false)).
    { destruct (opt options onBeforeFill) as [gate|]; [|discriminate].
      destruct (gate transformed) as [[ | | [|] | | | | | | ]|] eqn:Hgate; simpl;
        try discriminate.
      intros [= <-]. eauto. }
    destruct (opt options validate) as [check|]; simpl; [|exact Hend].
    destruct (check transformed) as [isValid|]; [|discriminate]. simpl.
    destruct (negb (truthy isValid)); [discriminate | exact Hend]. }
  destruct input as [text|obj]; [|apply Hobj].
  rewrite processJsonData_text.
  destruct (parseJson JSON_parse text) as [e|parsed]; [discriminate | apply Hobj].
Qed.

(** C5 (as the code has it).  For every [processJson] invocation of the
    plain-state binding.  When a stage of the pipeline fails, nothing is
    applied to the state container, the configured error callback is
    invoked with the typed error and is the only call made, and
    [processJson] resolves to [false] provided that callback returns.
    When the pipeline succeeds without cancellation and the configured
    [onAfterFill] and [onSuccess] return, the merge result is applied,
    then [onAfterFill], then [onSuccess] are invoked, and [processJson]
    resolves to [true].  When [onBeforeFill] returns exactly [false],
    and only then, the run is cancelled: no callback is invoked, the
    state container is untouched and [processJson] resolves to [false]. *)
Theorem processJson_outcomes (options : option Options) (prev : Obj) (jsonInput : JsonInput) :
  (forall t,
      processJsonData JSON_parse jsonInput options = Throw t ->
      formData (processJson JSON_parse options prev jsonInput) = prev
      /\ match opt options onError with
         | Some report =>
             calls (processJson JSON_parse options prev jsonInput)
             = [CallOnError (autoFillError t)]
             /\ (report (autoFillError t) = Return tt ->
                 settled (processJson JSON_parse options prev jsonInput) = Return false)
         | None =>
             calls (processJson JSON_parse options prev jsonInput) = []
             /\ settled (processJson JSON_parse options prev jsonInput) = Return false
         end)
  /\ (forall data,
        processJsonData JSON_parse jsonInput options = Return (data, false) ->
        (forall f, opt options onAfterFill = Some f -> f data = Return tt) ->
        (forall f, opt options onSuccess = Some f -> f data = Return tt) ->
        processJson JSON_parse options prev jsonInput
        = mkRun (Return true)
            (mergeData prev data (configured_strategy options))
            (success_calls options
               (mergeData prev data (configured_strategy options)) data))
  /\ (forall data,
        processJsonData JSON_parse jsonInput options = Return (data, true) ->
        processJson JSON_parse options prev jsonInput = mkRun (Return false) prev []
        /\ exists gate, opt options onBeforeFill = Some gate
                        /\ gate data = Return (JBool false))
  /\ (forall opts gate data,
        options = Some opts -> onBeforeFill opts = Some gate ->
        processJsonData JSON_parse jsonInput (Some (without_gate opts))
        = Return (data, false) ->
        gate data = Return (JBool false) ->
        processJson JSON_parse options prev jsonInput = mkRun (Return false) prev []).
Proof.
  split; [|split; [|split]].
  - intros t Hthrow. unfold processJson, catch_clause. rewrite Hthrow.
    destruct (opt options onError) as [report|]; [|by repeat split].
    destruct (report (autoFillError t)) as [[]|t'] eqn:Hreport; simpl;
      repeat split; congruence.
  - intros data Hdata Hafter Hsuccess.
    unfold processJson, success_calls, configured_strategy, call_optional.
    rewrite Hdata.
    destruct (opt options onAfterFill) as [after|];
      destruct (opt options onSuccess) as [success|];
      rewrite ?(Hafter _ eq_refl), ?(Hsuccess _ eq_refl); reflexivity.
  - intros data Hdata. split.
    + unfold processJson. rewrite Hdata. reflexivity.
    + exact (processJsonData_cancelled _ _ _ Hdata).
  - intros opts gate data -> Hgate Hdata Hfalse.
    unfold processJson.
    rewrite (processJsonData_gate _ _ _ _ Hgate Hdata Hfalse). reflexivity.
Qed.

End PipelineProperties.


Lemma processJson_outcomes_witness :
  (formData (processJson parse_nothing (Some all_callbacks) [("name", JStr "")]
               (InputText "{"))
   = [("name", JStr "")]
   /\ calls (processJson parse_nothing (Some all_callbacks) [("name", JStr "")]
               (InputText "{"))
      = [CallOnError (mkError "Invalid JSON file" PARSE_ERROR)]
   /\ settled (processJson parse_nothing (Some all_callbacks) [("name", JStr "")]
                 (InputText "{"))
      = Return false)
  /\ processJson parse_nothing (Some all_callbacks) [("name", JStr "")]
       (InputObject [("name", JStr "Bob")])
     = mkRun (Return true) [("name", JStr "Bob")]
         [CallSetFormData [("name", JStr "Bob")];
          CallOnAfterFill [("name", JStr "Bob")];
          CallOnSuccess [("name", JStr "Bob")]]
  /\ processJson parse_nothing (Some closed_gate) [("name", JStr "")]
       (InputObject [("name", JStr "Bob")])
     = mkRun (Return false) [("name", JStr "")] [].
Proof.
  split; [|split].
  - destruct (proj1 (processJson_outcomes parse_nothing (Some all_callbacks)
                       [("name", JStr "")] (InputText "{"))
                (ThrowAutoFill (mkError "Invalid JSON file" PARSE_ERROR)) eq_refl)
      as (Hkept & Hcalls & Hsettled).
    split; [exact Hkept|]. split; [exact Hcalls | exact (Hsettled eq_refl)].
  - apply (proj1 (proj2 (processJson_outcomes parse_nothing (Some all_callbacks)
                           [("name", JStr "")] (InputObject [("name", JStr "Bob")])))
             [("name", JStr "Bob")]);
      [reflexivity | intros f [= <-]; reflexivity | intros f [= <-]; reflexivity].
  - apply (proj2 (proj2 (proj2 (processJson_outcomes parse_nothing (Some closed_gate)
                                  [("name", JStr "")]
                                  (InputObject [("name", JStr "Bob")]))))
             closed_gate (fun _ => Return (JBool false)) [("name", JStr "Bob")]);
      reflexivity.
Defined.

(** C5 as stated fails: the pipeline succeeds without cancellation, the
    merge result is applied, [onAfterFill] throws; then [onSuccess] is
    never invoked, the error callback is, and [processJson] resolves to
    [false]. *)
Lemma processJson_outcomes_counterexample :
  processJsonData parse_nothing (InputObject [("name", JStr "Bob")])
    (Some throwing_after_fill)
  = Return ([("name", JStr "Bob")], false)
  /\ processJson parse_nothing (Some throwing_after_fill) [("name", JStr "")]
       (InputObject [("name", JStr "Bob")])
     = mkRun (Return false) [("name", JStr "Bob")]
         [CallSetFormData [("name", JStr "Bob")];
          CallOnAfterFill [("name", JStr "Bob")];
          CallOnError (mkError "boom" PARSE_ERROR)].
Proof. split; reflexivity. Qed.

(** ** The merge engine over a store: what it leaves alone *)

Module StoreFacts.

Import Store.

Lemma frame_refl n h : frame n h h.
Proof. split; [lia | reflexivity]. Qed.

Lemma frame_trans n h1 h2 h3 : frame n h1 h2 -> frame n h2 h3 -> frame n h1 h3.
Proof.
  intros [Hlen12 H12] [Hlen23 H23]. split; [lia|].
  intros l Hl. rewrite H23, H12 by exact Hl. reflexivity.
Qed.

Lemma frame_weaken n m h h' : m <= n -> frame n h h' -> frame m h h'.
Proof. intros Hmn [Hlen H]. split; [exact Hlen|]. intros l Hl. apply H. lia. Qed.


Lemma frame_alloc n c h : n <= length h -> frame n h (h ++ [c]).
Proof.
  intros Hn. split; [rewrite length_app; lia|].
  intros l Hl. apply lookup_app_l. lia.
Qed.

Lemma frame_put n l key v h h' :
  n <= l -> put l key v h = Some (tt, h') -> frame n h h'.
Proof.
  intros Hn [= <-]. destruct (h !! l) as [[props| | | ]|]; try apply frame_refl.
  split; [rewrite length_insert; lia|].
  intros l' Hl'. apply list_lookup_insert_ne. lia.
Qed.

Lemma for_each_partial {A : Type} (I : Heap -> Prop) (items : list A) body :
  (forall x hc hn, In x items -> I hc -> body x hc = Some (tt, hn) -> I hn) ->
  forall h h', I h -> for_each items body h = Some (tt, h') -> I h'.
Proof.
  induction items as [|x rest IH]; intros Hbody h h' Hh; simpl.
  - intros [= <-]. exact Hh.
  - unfold mbind, M_bind. destruct (body x h) as [[[] hn]|] eqn:Hx; [|discriminate].
    apply IH.
    + intros y hc hm Hy. apply Hbody. by right.
    + apply (Hbody x h hn); [by left | exact Hh | exact Hx].
Qed.

Lemma deepMerge_frame fuel : forall target source h l h',
  deepMerge fuel target source h = Some (l, h') ->
  length h <= l /\ l < length h' /\ frame (length h) h h'.
Proof.
  induction fuel as [|fuel IH]; intros target source h l h'; [discriminate|].
  simpl. unfold mbind, M_bind, own_props, alloc, keys_of, mret, M_ret. simpl.
  set (h1 := h ++ [CObj (spread (props_at h target) [])]).
  destruct (for_each _ _ h1) as [[[] h2]|] eqn:Hloop; [|discriminate].
  intros [= <- <-].
  assert (Hinv : frame (length h) h1 h2 /\ length h1 <= length h2).
  { revert Hloop.
    apply (for_each_partial (fun hc => frame (length h) h1 hc /\ length h1 <= length hc)).
    - intros key hc hn _ [Hframe Hlen].
      unfold deepMerge_body, get, own_props, Store.isPlainObject, mbind, M_bind,
        mret, M_ret. simpl.
      destruct (plain_in hc _ && plain_in hc _).
      + destruct (deepMerge fuel _ _ hc) as [[merged hm]|] eqn:Hrec; [|discriminate].
        intros Hput. apply IH in Hrec as (_ & _ & Hrec).
        pose proof (frame_put (length h) _ _ _ _ _ (Nat.le_refl _) Hput) as Hp.
        assert (Hstep : frame (length h) hc hn).
        { apply (frame_trans _ _ hm); [|exact Hp].
          apply (frame_weaken (length hc)); [|exact Hrec].
          destruct Hframe as [? _]. unfold h1 in *. rewrite length_app in *. lia. }
        split; [exact (frame_trans _ _ _ _ Hframe Hstep)|].
        destruct Hstep as [? _]. lia.
      + intros Hput.
        pose proof (frame_put (length h) _ _ _ _ _ (Nat.le_refl _) Hput) as Hstep.
        split; [exact (frame_trans _ _ _ _ Hframe Hstep)|].
        destruct Hstep as [? _]. lia.
    - split; [apply frame_refl | lia]. }
  destruct Hinv as [Hframe Hlen]. unfold h1 in Hlen. rewrite length_app in Hlen. simpl in Hlen.
  split; [lia|]. split; [lia|].
  apply (frame_trans _ _ h1); [apply frame_alloc; lia | exact Hframe].
Qed.

(** *** Store values and the trees they stand for *)

Lemma denotes_within_transfer (P Q : nat -> Prop) (h h' : Heap) x :
  (forall l c, P l -> h !! l = Some c -> Q l /\ h' !! l = Some c) ->
  forall v, denotes_within P h v x -> denotes_within Q h' v x.
Proof.
  intros Hmove.
  induction x as [ | | b | n | s | elems IH | xs IH | t | s ]
    using JsValue_nested_ind; intros v Hv; inversion Hv; subst;
    try (constructor; fail).
  - destruct (Hmove _ _ H0 H1) as [HQ Hcell].
    apply (denotes_arr _ _ _ elems0); [exact HQ | exact Hcell |].
    clear - IH H3. revert IH. induction H3 as [|e x es xs' He _ IHes]; intros IH.
    + constructor.
    + apply Forall_cons in IH as [Hx IH]. constructor; [apply Hx, He | apply IHes, IH].
  - destruct (Hmove _ _ H0 H1) as [HQ Hcell].
    apply (denotes_obj _ _ _ props); [exact HQ | exact Hcell | assumption |].
    clear - IH H4. revert IH. induction H4 as [|p q ps qs [Hk Hp] _ IHps]; intros IH.
    + constructor.
    + apply Forall_cons in IH as [Hq IH].
      constructor; [split; [exact Hk | apply Hq, Hp] | apply IHps, IH].
  - destruct (Hmove _ _ H0 H2) as [HQ Hcell]. constructor; assumption.
  - destruct (Hmove _ _ H0 H2) as [HQ Hcell]. constructor; assumption.
Qed.

Lemma props_denote_transfer (P Q : nat -> Prop) (h h' : Heap) props xs :
  (forall l c, P l -> h !! l = Some c -> Q l /\ h' !! l = Some c) ->
  props_denote P h props xs -> props_denote Q h' props xs.
Proof.
  intros Hmove Hprops. eapply Forall2_impl; [exact Hprops|].
  intros p q [Hk Hp]. split; [exact Hk|].
  eapply denotes_within_transfer; eassumption.
Qed.

Lemma plain_in_denotes P h v x :
  denotes_within P h v x -> plain_in h v = tree_isPlainObject x.
Proof. intros Hv. inversion Hv; subst; simpl; try reflexivity; rewrite H0; reflexivity. Qed.

Lemma props_denote_keys P h props xs :
  props_denote P h props xs -> Object_keys props = Object_keys xs.
Proof.
  induction 1 as [|p q ps qs [Hk _] _ IH]; [reflexivity|].
  unfold Object_keys in *. simpl. congruence.
Qed.

Lemma props_denote_lookup P h props xs key :
  props_denote P h props xs ->
  denotes_within P h
    (match obj_lookup key props with Some v => v | None => VUndefined end)
    (obj_get xs key).
Proof.
  unfold obj_get. induction 1 as [|[k v] [k' x] ps qs [Hk Hv] _ IH]; simpl.
  - constructor.
  - simpl in Hk, Hv. subst k'. destruct (String.eqb k key); [exact Hv | exact IH].
Qed.

Lemma props_denote_set P h props xs key v x :
  props_denote P h props xs -> denotes_within P h v x ->
  props_denote P h (obj_set key v props) (obj_set key x xs).
Proof.
  intros Hprops Hv.
  induction Hprops as [|[k v0] [k' x0] ps qs [Hk Hv0] Htail IH]; simpl.
  - constructor; [split; [reflexivity | exact Hv] | constructor].
  - simpl in Hk, Hv0. subst k'. destruct (String.eqb k key).
    + constructor; [split; [reflexivity | exact Hv] | exact Htail].
    + constructor; [split; [reflexivity | exact Hv0] | exact IH].
Qed.

Lemma Object_keys_set_NoDup {V : Type} key (v : V) o :
  NoDup (Object_keys o) -> NoDup (Object_keys (obj_set key v o)).
Proof.
  induction o as [|[k v0] o IH]; simpl; intros Hnd.
  - apply NoDup_singleton.
  - apply NoDup_cons in Hnd as [Hk Hnd]. destruct (String.eqb_spec k key) as [->|Hne].
    + simpl. apply NoDup_cons. split; assumption.
    + simpl. apply NoDup_cons. split; [|apply IH, Hnd].
      rewrite list_elem_of_In, Object_keys_set. rewrite list_elem_of_In in Hk.
      intros [?|?]; congruence.
Qed.

Lemma spread_suffix {V : Type} (o2 : list (string * V)) : forall o1,
  NoDup (Object_keys (o1 ++ o2)) ->
  fold_left
    (fun acc key =>
       match obj_lookup key (o1 ++ o2) with
       | Some v => obj_set key v acc
       | None => acc
       end)
    (Object_keys o2) o1
  = o1 ++ o2.
Proof.
  induction o2 as [|[k v] o2 IH]; intros o1 Hnd; simpl.
  - rewrite app_nil_r. reflexivity.
  - assert (Hfresh : ~ In k (Object_keys o1)).
    { unfold Object_keys in Hnd. rewrite map_app in Hnd. simpl in Hnd.
      apply NoDup_app in Hnd as (_ & Hdisj & _).
      intros Hin%list_elem_of_In. apply (Hdisj k Hin). by left. }
    assert (Hk : obj_lookup k (o1 ++ (k, v) :: o2) = Some v).
    { clear - Hfresh. induction o1 as [|[k1 v1] o1 IH1]; simpl.
      - rewrite String.eqb_refl. reflexivity.
      - destruct (String.eqb_spec k1 k) as [->|Hne]; [simpl in Hfresh; tauto|].
        apply IH1. simpl in Hfresh. tauto. }
    rewrite Hk, obj_set_fresh by exact Hfresh.
    replace (o1 ++ (k, v) :: o2) with ((o1 ++ [(k, v)]) ++ o2) in *
      by (rewrite <- app_assoc; reflexivity).
    apply IH, Hnd.
Qed.

Lemma spread_NoDup {V : Type} (o : list (string * V)) :
  NoDup (Object_keys o) -> spread o [] = o.
Proof. intros Hnd. exact (spread_suffix o [] Hnd). Qed.

(** *** The store run computes the merge of the trees *)

Lemma js_size_property key x xs : In (key, x) xs -> js_size x < js_size (JObj xs).
Proof.
  simpl. induction xs as [|[k0 x0] xs IH]; [intros []|].
  intros [[= -> ->]|Hin]; [lia|]. specialize (IH Hin). lia.
Qed.

Lemma obj_lookup_NoDup {V : Type} key (v : V) o :
  NoDup (Object_keys o) -> In (key, v) o -> obj_lookup key o = Some v.
Proof.
  induction o as [|[k0 v0] o IH]; simpl; [intros _ []|].
  intros [Hk Hnd]%NoDup_cons [[= -> ->]|Hin].
  - rewrite String.eqb_refl. reflexivity.
  - destruct (String.eqb_spec k0 key) as [->|Hne]; [|apply IH; assumption].
    destruct Hk. apply list_elem_of_In, in_map_iff. exists (key, v). split; [reflexivity | exact Hin].
Qed.

Lemma deepMerge_body_merges fuel (h0 : Heap) target source result
      tprops tx sprops (P : nat -> Prop) :
  h0 !! target = Some (CObj tprops) -> props_denote P h0 tprops tx ->
  h0 !! source = Some (CObj sprops) ->
  length h0 <= result -> (forall l, length h0 <= l -> P l) ->
  forall key sv x (hc : Heap) rprops acc,
    obj_lookup key sprops = Some sv -> denotes_within P h0 sv x ->
    merges x -> js_size x <= fuel ->
    frame (length h0) h0 hc -> hc !! result = Some (CObj rprops) ->
    NoDup (Object_keys rprops) ->
    props_denote (fun l => P l /\ l <> result) hc rprops acc ->
    exists h' rprops',
      deepMerge_body (Store.deepMerge fuel) target source result key hc = Some (tt, h')
      /\ frame (length h0) h0 h'
      /\ h' !! result = Some (CObj rprops')
      /\ NoDup (Object_keys rprops')
      /\ props_denote (fun l => P l /\ l <> result) h' rprops'
           (deepMerge_step tx acc (key, x)).
Proof.
  intros Ht Htx Hs Hres Hfresh key sv x hc rprops acc Hsv Hx Hmerges Hsize
         Hframe Hr Hnd Hacc.
  pose proof (lookup_lt_Some _ _ _ Ht) as Htlt.
  pose proof (lookup_lt_Some _ _ _ Hs) as Hslt.
  pose proof (lookup_lt_Some _ _ _ Hr) as Hrlt.
  destruct Hframe as [Hlen Hsame].
  assert (Hold : forall l c, P l -> h0 !! l = Some c ->
                             (P l /\ l <> result) /\ hc !! l = Some c).
  { intros l c HP Hl. pose proof (lookup_lt_Some _ _ _ Hl).
    split; [split; [exact HP | lia]|]. rewrite Hsame by lia. exact Hl. }
  assert (Htv : denotes_within P h0
                 (match obj_lookup key tprops with Some v => v | None => VUndefined end)
                 (obj_get tx key))
    by (apply props_denote_lookup; exact Htx).
  unfold deepMerge_body, get, own_props, Store.isPlainObject, mbind, M_bind, mret, M_ret.
  simpl. unfold props_at. rewrite !Hsame, Ht, Hs, Hsv by lia.
  remember (match obj_lookup key tprops with Some v => v | None => VUndefined end)
    as tv eqn:Etv. clear Etv.
  rewrite (plain_in_denotes _ _ _ _ (denotes_within_transfer _ _ _ _ _ Hold _ Htv)).
  rewrite (plain_in_denotes _ _ _ _ (denotes_within_transfer _ _ _ _ _ Hold _ Hx)).
  simpl.
  destruct (tree_isPlainObject (obj_get tx key) && tree_isPlainObject x) eqn:Hplain.
  - apply andb_true_iff in Hplain as [[tx' Htx']%isPlainObject_JObj [sx' ->]%isPlainObject_JObj].
    rewrite Htx' in *.
    inversion Htv as [ | | | | | t' ? ? ? Ht' _ _ | | | ]; subst.
    inversion Hx as [ | | | | | s' ? ? ? Hs' _ _ | | | ]; subst.
    simpl ref_of.
    destruct (Hmerges sx' eq_refl fuel hc t' s' tx' (fun l => P l /\ l <> result))
      as (merged & hm & Hrun & Hmerged).
    + eapply denotes_within_transfer; [exact Hold | exact Htv].
    + eapply denotes_within_transfer; [exact Hold | exact Hx].
    + exact Hsize.
    + intros l Hl. split; [apply Hfresh; lia | lia].
    + rewrite Hrun.
      apply deepMerge_frame in Hrun as (_ & _ & [Hlenm Hsamem]).
      unfold put. rewrite Hsamem, Hr by lia.
      eexists _, _. split; [reflexivity|]. split; [|split; [|split]].
      * split; [rewrite length_insert; lia|].
        intros l Hl. rewrite list_lookup_insert_ne by lia. rewrite Hsamem by lia.
        apply Hsame, Hl.
      * apply list_lookup_insert_eq. lia.
      * apply Object_keys_set_NoDup, Hnd.
      * assert (Hkeep : forall l c, (P l /\ l <> result) -> hm !! l = Some c ->
                          (P l /\ l <> result)
                          /\ <[result:=CObj (obj_set key (VRef merged) rprops)]> hm !! l
                             = Some c).
        { intros l c [HP Hne] Hl. split; [tauto|].
          rewrite list_lookup_insert_ne by congruence. exact Hl. }
        rewrite merge_value_plain.
        apply props_denote_set.
        -- eapply props_denote_transfer; [exact Hkeep|].
           eapply props_denote_transfer; [|exact Hacc].
           intros l c HP Hl. split; [exact HP|].
           rewrite Hsamem by (eapply lookup_lt_Some; exact Hl). exact Hl.
        -- eapply denotes_within_transfer; [exact Hkeep | exact Hmerged].
  - unfold put. rewrite Hr.
    eexists _, _. split; [reflexivity|]. split; [|split; [|split]].
    + split; [rewrite length_insert; lia|].
      intros l Hl. rewrite list_lookup_insert_ne by lia. apply Hsame, Hl.
    + apply list_lookup_insert_eq. lia.
    + apply Object_keys_set_NoDup, Hnd.
    + assert (Hkeep : forall l c, (P l /\ l <> result) -> hc !! l = Some c ->
                        (P l /\ l <> result)
                        /\ <[result:=CObj (obj_set key sv rprops)]> hc !! l = Some c).
      { intros l c [HP Hne] Hl. split; [tauto|].
        rewrite list_lookup_insert_ne by congruence. exact Hl. }
      apply props_denote_set.
      * eapply props_denote_transfer; [exact Hkeep | exact Hacc].
      * eapply denotes_within_transfer; [exact Hkeep|].
        eapply denotes_within_transfer; [exact Hold | exact Hx].
Qed.

Lemma deepMerge_loop_merges fuel (h0 : Heap) target source result
      tprops tx sprops (P : nat -> Prop) :
  h0 !! target = Some (CObj tprops) -> props_denote P h0 tprops tx ->
  h0 !! source = Some (CObj sprops) ->
  length h0 <= result -> (forall l, length h0 <= l -> P l) ->
  forall rest_s rest_x,
    props_denote P h0 rest_s rest_x ->
    (forall k v, In (k, v) rest_s -> obj_lookup k sprops = Some v) ->
    Forall (fun q => merges (snd q) /\ js_size (snd q) <= fuel) rest_x ->
    forall (hc : Heap) rprops acc,
      frame (length h0) h0 hc -> hc !! result = Some (CObj rprops) ->
      NoDup (Object_keys rprops) ->
      props_denote (fun l => P l /\ l <> result) hc rprops acc ->
      exists h' rprops',
        for_each (Object_keys rest_s) (deepMerge_body (Store.deepMerge fuel) target source result) hc
        = Some (tt, h')
        /\ frame (length h0) h0 h'
        /\ h' !! result = Some (CObj rprops')
        /\ NoDup (Object_keys rprops')
        /\ props_denote (fun l => P l /\ l <> result) h' rprops'
             (fold_left (deepMerge_step tx) rest_x acc).
Proof.
  intros Ht Htx Hs Hres Hfresh rest_s rest_x Hrest.
  induction Hrest as [|[k sv] [k' x] rest_s rest_x [Hk Hsv] _ IH];
    intros Hlook Hall hc rprops acc Hframe Hr Hnd Hacc.
  - exists hc, rprops. repeat split; try assumption; apply Hframe.
  - simpl in Hk, Hsv. subst k'.
    apply Forall_cons in Hall as [[Hmerges Hsize] Hall]. simpl in Hmerges, Hsize.
    destruct (deepMerge_body_merges fuel h0 target source result tprops tx sprops P
                Ht Htx Hs Hres Hfresh k sv x hc rprops acc
                (Hlook k sv (or_introl eq_refl)) Hsv Hmerges Hsize Hframe Hr Hnd Hacc)
      as (h1 & rprops1 & Hbody & Hframe1 & Hr1 & Hnd1 & Hacc1).
    destruct (IH (fun k0 v0 Hin => Hlook k0 v0 (or_intror Hin)) Hall
                 h1 rprops1 _ Hframe1 Hr1 Hnd1 Hacc1)
      as (h2 & rprops2 & Hloop & Hrest2).
    exists h2, rprops2. split; [|exact Hrest2].
    simpl. unfold mbind at 1, M_bind at 1. rewrite Hbody. exact Hloop.
Qed.

Lemma deepMerge_succ fuel target source :
  Store.deepMerge (S fuel) target source
  = (targetProps ← own_props target ;
     result ← alloc (CObj (spread targetProps [])) ;
     keys ← keys_of source ;
     for_each keys (deepMerge_body (Store.deepMerge fuel) target source result) ;;
     mret result).
Proof. reflexivity. Qed.

(** On trees, with fuel no less than the size of the source, the store
    run of [deepMerge] returns an object that stands for the merge of the
    trees. *)
Lemma deepMerge_merges x : merges x.
Proof.
  induction x as [ | | b | n | s | elems _ | xs IH | t | s ]
    using JsValue_nested_ind; intros sx Heq; try discriminate.
  injection Heq as ->.
  intros fuel h target source tx P Htarget Hsource Hfuel Hfresh.
  destruct fuel as [|fuel]; [simpl in Hfuel; lia|].
  inversion Htarget as [ | | | | | ? tprops ? HPt Ht Hndt Htx | | | ]; subst.
  inversion Hsource as [ | | | | | ? sprops ? HPs Hs Hnds Hsx | | | ]; subst.
  pose proof (lookup_lt_Some _ _ _ Ht) as Htlt.
  pose proof (lookup_lt_Some _ _ _ Hs) as Hslt.
  set (result := length h).
  set (h1 := h ++ [CObj (spread tprops [])]).
  assert (Hold : forall l c, P l -> h !! l = Some c ->
                             (P l /\ l <> result) /\ h1 !! l = Some c).
  { intros l c HP Hl. pose proof (lookup_lt_Some _ _ _ Hl). unfold result, h1.
    split; [split; [exact HP | lia]|]. rewrite lookup_app_l by lia. exact Hl. }
  destruct (deepMerge_loop_merges fuel h target source result tprops tx sprops P
              Ht Htx Hs (Nat.le_refl _) Hfresh sprops sx Hsx
              (fun k v => obj_lookup_NoDup k v sprops Hnds))
    with (hc := h1) (rprops := tprops) (acc := tx)
    as (h2 & rprops2 & Hloop & Hframe2 & Hr2 & Hnd2 & Hacc2).
  - apply List.Forall_forall. intros [k x] Hin. simpl. split.
    + rewrite List.Forall_forall in IH. apply (IH (k, x) Hin).
    + pose proof (js_size_property k x sx Hin). lia.
  - apply frame_alloc. lia.
  - unfold h1, result. rewrite lookup_app_r, Nat.sub_diag by lia.
    simpl. rewrite spread_NoDup by exact Hndt. reflexivity.
  - exact Hndt.
  - eapply props_denote_transfer; [exact Hold | exact Htx].
  - exists result, h2. split.
    + rewrite deepMerge_succ.
      unfold mbind, M_bind, own_props, alloc, keys_of, mret, M_ret. simpl.
      replace (props_at h target) with tprops
        by (unfold props_at; rewrite Ht; reflexivity).
      fold h1. fold result.
      replace (props_at h1 source) with sprops
        by (unfold props_at, h1; rewrite lookup_app_l, Hs by lia; reflexivity).
      rewrite Hloop. reflexivity.
    + unfold tree_deepMerge, deepMerge.
      rewrite (spread_NoDup tx)
        by (rewrite <- (props_denote_keys _ _ _ _ Htx); exact Hndt).
      apply (denotes_obj _ _ _ rprops2); [apply Hfresh; lia | exact Hr2 | exact Hnd2 |].
      eapply props_denote_transfer; [|exact Hacc2]. intros l c [HP _] Hl. tauto.
Qed.

Lemma props_denote_has_key P h props xs key :
  props_denote P h props xs -> has_key key props = has_key key xs.
Proof.
  unfold has_key. induction 1 as [|[k v] [k' x] ps qs [Hk _] _ IH]; simpl; [reflexivity|].
  simpl in Hk. subst k'. destruct (String.eqb k key); [reflexivity | exact IH].
Qed.

Lemma props_denote_lookup_Some P h props xs key :
  props_denote P h props xs ->
  match obj_lookup key props, obj_lookup key xs with
  | Some v, Some x => denotes_within P h v x
  | None, None => True
  | _, _ => False
  end.
Proof.
  induction 1 as [|[k v] [k' x] ps qs [Hk Hv] _ IH]; simpl; [exact I|].
  simpl in Hk, Hv. subst k'. destruct (String.eqb k key); [exact Hv | exact IH].
Qed.

Lemma props_denote_spread P h src xs : forall dst ys,
  props_denote P h src xs -> props_denote P h dst ys ->
  props_denote P h (spread src dst) (spread xs ys).
Proof.
  intros dst ys Hsrc. unfold spread.
  rewrite <- (props_denote_keys _ _ _ _ Hsrc).
  revert dst ys. induction (Object_keys src) as [|key keys IH]; intros dst ys Hdst; simpl.
  - exact Hdst.
  - apply IH. pose proof (props_denote_lookup_Some P h src xs key Hsrc) as Hkey.
    destruct (obj_lookup key src), (obj_lookup key xs); try tauto.
    apply props_denote_set; assumption.
Qed.

Lemma Object_keys_spread_NoDup {V : Type} (src dst : list (string * V)) :
  NoDup (Object_keys dst) -> NoDup (Object_keys (spread src dst)).
Proof.
  unfold spread. revert dst.
  induction (Object_keys src) as [|key keys IH]; intros dst Hnd; simpl; [exact Hnd|].
  apply IH. destruct (obj_lookup key src); [apply Object_keys_set_NoDup|]; exact Hnd.
Qed.

Lemma strict_loop_refines (h0 : Heap) incoming filtered iprops ix :
  h0 !! incoming = Some (CObj iprops) ->
  props_denote (fun l => l < length h0) h0 iprops ix ->
  length h0 <= filtered ->
  forall keys (hc : Heap) fprops acc,
    frame (length h0) h0 hc -> hc !! filtered = Some (CObj fprops) ->
    NoDup (Object_keys fprops) ->
    props_denote (fun l => l < length h0) hc fprops acc ->
    exists h' fprops',
      for_each keys (strict_body incoming filtered) hc = Some (tt, h')
      /\ frame (length h0) h0 h'
      /\ length h' = length hc
      /\ h' !! filtered = Some (CObj fprops')
      /\ NoDup (Object_keys fprops')
      /\ props_denote (fun l => l < length h0) h' fprops'
           (fold_left
              (fun acc key =>
                 if has_key key ix then obj_set key (obj_get ix key) acc else acc)
              keys acc).
Proof.
  intros Hi Hix Hf keys.
  pose proof (lookup_lt_Some _ _ _ Hi) as Hilt.
  induction keys as [|key keys IH]; intros hc fprops acc Hframe Hfc Hnd Hacc.
  - exists hc, fprops. repeat split; try assumption; apply Hframe.
  - pose proof (lookup_lt_Some _ _ _ Hfc) as Hflt.
    destruct Hframe as [Hlen Hsame]. simpl.
    unfold mbind at 1, M_bind at 1.
    unfold strict_body at 1, has, get, own_props, mbind, M_bind, mret, M_ret. simpl.
    assert (Hprops : props_at hc incoming = iprops)
      by (unfold props_at; rewrite Hsame, Hi by lia; reflexivity).
    rewrite Hprops, (props_denote_has_key _ _ _ _ key Hix).
    destruct (has_key key ix) eqn:Hkey.
    + unfold put. rewrite Hfc, ?Hprops.
      set (v := match obj_lookup key iprops with Some v => v | None => VUndefined end).
      destruct (IH (<[filtered:=CObj (obj_set key v fprops)]> hc)
                   (obj_set key v fprops) (obj_set key (obj_get ix key) acc))
        as (h' & fprops' & Hloop & Hframe' & Hlen' & Hrest).
      * split; [rewrite length_insert; lia|].
        intros l Hl. rewrite list_lookup_insert_ne by lia. apply Hsame, Hl.
      * apply list_lookup_insert_eq. lia.
      * apply Object_keys_set_NoDup, Hnd.
      * assert (Hkeep : forall l c, l < length h0 -> hc !! l = Some c ->
                          l < length h0
                          /\ <[filtered:=CObj (obj_set key v fprops)]> hc !! l = Some c).
        { intros l c Hl Hc. split; [exact Hl|].
          rewrite list_lookup_insert_ne by lia. exact Hc. }
        apply props_denote_set.
        -- eapply props_denote_transfer; [exact Hkeep | exact Hacc].
        -- eapply denotes_within_transfer; [|apply props_denote_lookup; exact Hix].
           intros l c Hl Hc. cbv beta in Hl. split; [exact Hl|].
           rewrite list_lookup_insert_ne by lia. rewrite Hsame by lia. exact Hc.
      * exists h', fprops'. split; [exact Hloop|]. split; [exact Hframe'|].
        split; [rewrite Hlen', length_insert; reflexivity | exact Hrest].
    + apply (IH hc fprops acc); try assumption. split; assumption.
Qed.

Lemma mergeData_strict_unfold fuel current incoming :
  Store.mergeData fuel current incoming Strict
  = (keys ← keys_of current ;
     filtered ← alloc (CObj []) ;
     for_each keys (strict_body incoming filtered) ;;
     currentProps ← own_props current ;
     filteredProps ← own_props filtered ;
     alloc (CObj (spread filteredProps (spread currentProps [])))).
Proof. reflexivity. Qed.

Lemma strict_body_frame n incoming filtered key (h h' : Heap) :
  n <= filtered -> strict_body incoming filtered key h = Some (tt, h') ->
  frame n h h'.
Proof.
  intros Hn. unfold strict_body, has, get, own_props, mbind, M_bind, mret, M_ret. simpl.
  destruct (has_key key (props_at h incoming)).
  - apply frame_put, Hn.
  - intros [= <-]. apply frame_refl.
Qed.


Lemma denotes_allocated (h : Heap) v x :
  denotes h v x -> denotes_within (fun l => l < length h) h v x.
Proof.
  apply denotes_within_transfer. intros l c _ Hl.
  split; [eapply lookup_lt_Some; exact Hl | exact Hl].
Qed.

(** On trees, with fuel no less than the size of [incoming], [mergeData]
    over the store returns, and what it returns stands for the merge of the
    trees. *)
Lemma mergeData_store_refines fuel current incoming strategy (h : Heap) cx ix :
  denotes h (VRef current) (JObj cx) -> denotes h (VRef incoming) (JObj ix) ->
  js_size (JObj ix) <= fuel ->
  exists l h',
    Store.mergeData fuel current incoming strategy h = Some (l, h')
    /\ denotes h' (VRef l) (JObj (tree_mergeData cx ix strategy)).
Proof.
  intros Hc Hi Hfuel.
  destruct strategy; [| |clear Hfuel|].
  - inversion Hc as [ | | | | | ? cprops ? _ Hcl Hndc Hcx | | | ]; subst.
    inversion Hi as [ | | | | | ? iprops ? _ Hil Hndi Hix | | | ]; subst.
    eexists _, _. split.
    + unfold Store.mergeData, own_props, alloc, mbind, M_bind. simpl.
      unfold props_at. rewrite Hcl, Hil. reflexivity.
    + assert (Hup : forall l c, True -> h !! l = Some c ->
                      True /\ (h ++ [CObj (spread iprops (spread cprops []))]) !! l
                              = Some c).
      { intros l c _ Hl. split; [exact I|].
        rewrite lookup_app_l by (eapply lookup_lt_Some; exact Hl). exact Hl. }
      eapply denotes_obj; [exact I | | |].
      * rewrite lookup_app_r, Nat.sub_diag by lia. reflexivity.
      * apply Object_keys_spread_NoDup, Object_keys_spread_NoDup, NoDup_nil_2.
      * simpl. apply props_denote_spread; [|apply props_denote_spread; [|apply Forall2_nil_2]].
        -- eapply props_denote_transfer; [exact Hup | exact Hix].
        -- eapply props_denote_transfer; [exact Hup | exact Hcx].
  - exists incoming, h. split; [reflexivity | exact Hi].
  - inversion Hc as [ | | | | | ? cprops ? _ Hcl Hndc Hcx | | | ]; subst.
    apply denotes_allocated in Hi.
    inversion Hi as [ | | | | | ? iprops ? _ Hil Hndi Hix | | | ]; subst.
    pose proof (lookup_lt_Some _ _ _ Hcl) as Hclt.
    destruct (strict_loop_refines h incoming (length h) iprops ix Hil Hix (Nat.le_refl _)
                (Object_keys cprops) (h ++ [CObj []]) [] [])
      as (h2 & fprops & Hloop & Hframe & Hlen & Hf & Hndf & Hfx).
    + apply frame_alloc. lia.
    + rewrite lookup_app_r, Nat.sub_diag by lia. reflexivity.
    + apply NoDup_nil_2.
    + constructor.
    + rewrite length_app in Hlen. simpl in Hlen.
      eexists _, _. split.
      * rewrite mergeData_strict_unfold.
        unfold keys_of, own_props, alloc, mbind, M_bind, mret, M_ret. simpl.
        replace (props_at h current) with cprops
          by (unfold props_at; rewrite Hcl; reflexivity).
        rewrite Hloop.
        replace (props_at h2 current) with cprops
          by (unfold props_at; rewrite (proj2 Hframe), Hcl by lia; reflexivity).
        replace (props_at h2 (length h)) with fprops
          by (unfold props_at; rewrite Hf; reflexivity).
        reflexivity.
      * set (h3 := h2 ++ [CObj (spread fprops (spread cprops []))]).
        assert (Hold : forall (P : nat -> Prop) l c, P l -> h !! l = Some c ->
                         True /\ h3 !! l = Some c).
        { intros P l c _ Hl. split; [exact I|].
          pose proof (lookup_lt_Some _ _ _ Hl). unfold h3.
          rewrite lookup_app_l by lia. rewrite (proj2 Hframe) by lia. exact Hl. }
        eapply denotes_obj; [exact I | | |].
        -- unfold h3. rewrite lookup_app_r, Nat.sub_diag by lia. reflexivity.
        -- apply Object_keys_spread_NoDup, Object_keys_spread_NoDup, NoDup_nil_2.
        -- simpl. rewrite <- (props_denote_keys _ _ _ _ Hcx).
           apply props_denote_spread; [|apply props_denote_spread; [|apply Forall2_nil_2]].
           ++ eapply props_denote_transfer; [|exact Hfx].
              intros l c Hl Hcell. split; [exact I|]. unfold h3.
              rewrite lookup_app_l by (eapply lookup_lt_Some; exact Hcell). exact Hcell.
           ++ eapply props_denote_transfer; [exact (Hold _) | exact Hcx].
  - apply (deepMerge_merges (JObj ix) ix eq_refl fuel h current incoming cx
             (fun _ => True) Hc Hi Hfuel).
    intros; exact I.
Qed.



Lemma nested_heap_denotes :
  denotes nested_heap (VRef 3)
    (JObj [("user", JObj [("name", JStr "Ann"); ("tags", JArr [JStr "a"])]);
           ("id", JNum 7)])
  /\ denotes nested_heap (VRef 6)
       (JObj [("user", JObj [("tags", JArr [JStr "b"]); ("age", JNum 3)]);
              ("since", JDate 0)]).
Proof.
  assert (Hnd : forall ks : list string, bool_decide (NoDup ks) = true -> NoDup ks)
    by (intros ks; apply bool_decide_eq_true_1).
  split;
    repeat first
      [ exact I | reflexivity | apply Hnd; reflexivity
      | eapply denotes_obj | eapply denotes_arr | eapply denotes_date
      | constructor ].
Qed.



End StoreFacts.

(** * Further properties *)

(** ** Merge engine: the default strategy, edge cases and repetition *)

Lemma obj_set_same {V : Type} k (v : V) o :
  obj_lookup k o = Some v -> obj_set k v o = o.
Proof.
  induction o as [|[k0 v0] o IH]; simpl; [discriminate|].
  destruct (String.eqb_spec k0 k) as [->|Hne].
  - intros [= ->]. reflexivity.
  - intros Hk. rewrite IH by exact Hk. reflexivity.
Qed.

Lemma Object_keys_spread_distinct {V : Type} (src dst : list (string * V)) :
  NoDup (Object_keys dst) -> NoDup (Object_keys (spread src dst)).
Proof. apply StoreFacts.Object_keys_spread_NoDup. Qed.

Lemma deepMerge_keys_distinct target source : NoDup (Object_keys (deepMerge target source)).
Proof.
  unfold deepMerge.
  assert (Hstart : NoDup (Object_keys (spread target ([] : Obj))))
    by apply Object_keys_spread_distinct, NoDup_nil_2.
  revert Hstart. generalize (spread target []) as acc.
  induction source as [|[key sv] rest IH]; intros acc Hacc; simpl; [exact Hacc|].
  apply IH, StoreFacts.Object_keys_set_NoDup, Hacc.
Qed.

(** X1.  The default strategy is a shallow union: a key of [incoming]
    takes the value of [incoming], any other key of [current] keeps its
    value, the keys are those of either side, and they are distinct. *)
Theorem mergeData_merge_spec (current incoming : Obj) :
  (forall k, obj_lookup k (mergeData current incoming Merge)
             = if has_key k incoming then obj_lookup k incoming
               else obj_lookup k current)
  /\ (forall k, In k (Object_keys (mergeData current incoming Merge))
                <-> In k (Object_keys current) \/ In k (Object_keys incoming))
  /\ NoDup (Object_keys (mergeData current incoming Merge)).
Proof.
  split; [|split].
  - intros k. simpl. rewrite !obj_lookup_spread. simpl.
    destruct (has_key k incoming); [reflexivity|].
    unfold has_key. destruct (obj_lookup k current); reflexivity.
  - intros k. simpl. rewrite !Object_keys_spread. simpl. tauto.
  - simpl. apply Object_keys_spread_distinct, Object_keys_spread_distinct, NoDup_nil_2.
Qed.

(** ** Flattener: the shape of its output *)

Lemma flat_object_set key v (o : Obj) :
  flatten_descends v = false -> flat_object o -> flat_object (obj_set key v o).
Proof.
  intros Hv. unfold flat_object.
  induction o as [|[k0 v0] o IH]; simpl; intros Ho.
  - constructor; [exact Hv | constructor].
  - apply Forall_cons in Ho as [Hv0 Ho]. destruct (String.eqb k0 key).
    + constructor; [exact Hv | exact Ho].
    + constructor; [exact Hv0 | exact (IH Ho)].
Qed.

Lemma flatten_value_shape value : forall newKey result,
  NoDup (Object_keys result) -> flat_object result ->
  NoDup (Object_keys (flatten_value newKey value result))
  /\ flat_object (flatten_value newKey value result).
Proof.
  induction value as [ | | b | n | s | elems _ | props IH | t | s ]
    using JsValue_nested_ind; intros newKey result Hnd Hflat;
    try (split; [apply StoreFacts.Object_keys_set_NoDup, Hnd
                | apply flat_object_set; [reflexivity | exact Hflat]]);
    try (split; assumption).
  simpl. revert result Hnd Hflat.
  induction IH as [|[key v] rest Hv _ IHrest]; intros result Hnd Hflat; [split; assumption|].
  simpl in Hv. destruct (Hv (join_key newKey key) result Hnd Hflat) as [Hnd' Hflat'].
  apply IHrest; assumption.
Qed.

Lemma flattenObject_shape obj parentKey result :
  NoDup (Object_keys result) -> flat_object result ->
  NoDup (Object_keys (flattenObject obj parentKey result))
  /\ flat_object (flattenObject obj parentKey result).
Proof.
  unfold flattenObject. revert result.
  induction obj as [|[key v] rest IH]; intros result Hnd Hflat; [split; assumption|].
  simpl. destruct (flatten_value_shape v (join_key parentKey key) result Hnd Hflat).
  apply IH; assumption.
Qed.

Lemma write_entries_suffix {V : Type} (o2 : list (string * V)) : forall o1,
  NoDup (Object_keys (o1 ++ o2)) ->
  fold_left (fun acc '(k, v) => obj_set k v acc) o2 o1 = o1 ++ o2.
Proof.
  induction o2 as [|[k v] o2 IH]; intros o1 Hnd; simpl.
  - rewrite app_nil_r. reflexivity.
  - assert (Hfresh : ~ In k (Object_keys o1)).
    { unfold Object_keys in Hnd. rewrite map_app in Hnd. simpl in Hnd.
      apply NoDup_app in Hnd as (_ & Hdisj & _).
      intros Hin%list_elem_of_In. apply (Hdisj k Hin). by left. }
    rewrite obj_set_fresh by exact Hfresh.
    replace (o1 ++ (k, v) :: o2) with ((o1 ++ [(k, v)]) ++ o2) in Hnd
      by (rewrite <- app_assoc; reflexivity).
    rewrite IH by exact Hnd. rewrite <- app_assoc. reflexivity.
Qed.

Lemma flattenObject_flat (o : Obj) :
  NoDup (Object_keys o) -> flat_object o -> flattenObject o "" [] = o.
Proof.
  intros Hnd Hflat.
  rewrite <- (write_entries_suffix o []) at 2 by exact Hnd.
  unfold flattenObject. generalize ([] : Obj) as acc.
  induction Hflat as [|[k v] rest Hv _ IH]; intros acc; [reflexivity|].
  simpl in *. rewrite flatten_value_descends, Hv.
  apply NoDup_cons in Hnd as [_ Hnd]. apply IH, Hnd.
Qed.

(** ** Merge engine: deep on flat data, empty sides, repetition *)

Lemma flatten_descends_plain v : flatten_descends v = false -> isPlainObject v = false.
Proof. destruct v; try reflexivity; discriminate. Qed.

Lemma deepMerge_flat_loop target incoming rest : forall acc,
  (forall k v, In (k, v) rest -> obj_lookup k incoming = Some v) ->
  flat_object rest ->
  fold_left (deepMerge_step target) rest acc
  = fold_left
      (fun acc key =>
         match obj_lookup key incoming with
         | Some v => obj_set key v acc
         | None => acc
         end)
      (Object_keys rest) acc.
Proof.
  induction rest as [|[key sv] rest IH]; intros acc Hlook Hflat; [reflexivity|].
  apply Forall_cons in Hflat as [Hsv Hflat]. simpl in Hsv. simpl.
  rewrite (Hlook key sv (or_introl eq_refl)).
  rewrite (flatten_descends_plain sv Hsv), andb_false_r.
  apply IH; [|exact Hflat]. intros k v Hin. apply Hlook. by right.
Qed.

Lemma mergeData_deep_flat current incoming :
  NoDup (Object_keys incoming) -> flat_object incoming ->
  mergeData current incoming Deep = mergeData current incoming Merge.
Proof.
  intros Hnd Hflat. simpl. unfold deepMerge, spread at 2.
  apply deepMerge_flat_loop; [|exact Hflat].
  intros k v Hin. apply StoreFacts.obj_lookup_NoDup; assumption.
Qed.

Lemma strict_filter_empty ks : forall acc : Obj,
  fold_left
    (fun acc key =>
       if has_key key ([] : Obj) then obj_set key (obj_get [] key) acc else acc)
    ks acc
  = acc.
Proof. induction ks as [|k ks IH]; intros acc; simpl; [reflexivity | apply IH]. Qed.

(** The two empty sides, read on own properties. *)
Lemma mergeData_empty_sides_own (o : Obj) :
  NoDup (Object_keys o) ->
  (mergeData o [] Merge = o /\ mergeData o [] Strict = o /\ mergeData o [] Deep = o
   /\ mergeData o [] Replace = [])
  /\ (mergeData [] o Strict = [] /\ mergeData [] o Merge = o
      /\ mergeData [] o Deep = o).
Proof.
  intros Hnd. split; [|split; [|split]].
  - simpl. rewrite strict_filter_empty. unfold deepMerge. simpl.
    unfold spread at 1 3. simpl.
    rewrite (StoreFacts.spread_NoDup o Hnd). repeat split; reflexivity.
  - reflexivity.
  - simpl. unfold spread at 2. simpl. apply StoreFacts.spread_NoDup, Hnd.
  - simpl. unfold deepMerge. unfold spread at 1. simpl.
    rewrite <- (write_entries_suffix o []) at 2 by exact Hnd.
    assert (Hloop : forall acc : Obj,
               fold_left (deepMerge_step []) o acc
               = fold_left (fun acc '(k, v) => obj_set k v acc) o acc).
    { clear Hnd. induction o as [|[k v] o IH]; intros acc; [reflexivity | apply IH]. }
    apply Hloop.
Qed.

Lemma nodup_keys_NoDup ks : nodup_keys ks = true -> NoDup ks.
Proof.
  induction ks as [|k ks IH]; [intros _; constructor|].
  intros [Hk Hks]%nodup_keys_cons. apply NoDup_cons. split; [|exact (IH Hks)].
  rewrite list_elem_of_In. exact Hk.
Qed.

Lemma distinct_keys_object o :
  distinct_keys (JObj o) = true ->
  NoDup (Object_keys o) /\ forall k v, In (k, v) o -> distinct_keys v = true.
Proof.
  intros Hd.
  change (distinct_keys (JObj o))
    with (nodup_keys (Object_keys o)
          && (fix all (entries : Obj) : bool :=
                match entries with
                | [] => true
                | (_, x) :: rest => distinct_keys x && all rest
                end) o) in Hd.
  apply andb_true_iff in Hd as [Hnd Hall]. split; [apply nodup_keys_NoDup, Hnd|].
  clear Hnd. induction o as [|[k0 v0] o IH]; [intros ? ? []|].
  apply andb_true_iff in Hall as [Hv0 Hall].
  intros k v [[= <- <-]|Hin]; [exact Hv0 | exact (IH Hall k v Hin)].
Qed.

Lemma write_known {V : Type} (f : string -> option V) ks (r : list (string * V)) :
  (forall key v, In key ks -> f key = Some v -> obj_lookup key r = Some v) ->
  fold_left
    (fun acc key => match f key with Some v => obj_set key v acc | None => acc end)
    ks r
  = r.
Proof.
  induction ks as [|key ks IH]; intros Hknown; simpl; [reflexivity|].
  destruct (f key) as [v|] eqn:Hkey.
  - rewrite (obj_set_same key v r) by (apply Hknown; [by left | exact Hkey]).
    apply IH. intros k' v' Hin. apply Hknown. by right.
  - apply IH. intros k' v' Hin. apply Hknown. by right.
Qed.

Lemma mergeData_merge_twice current incoming :
  mergeData (mergeData current incoming Merge) incoming Merge
  = mergeData current incoming Merge.
Proof.
  simpl. set (r := spread incoming (spread current [])).
  assert (Hnd : NoDup (Object_keys r))
    by apply Object_keys_spread_distinct, Object_keys_spread_distinct, NoDup_nil_2.
  rewrite (StoreFacts.spread_NoDup r Hnd). unfold spread at 1.
  apply write_known. intros key v _ Hkey. unfold r.
  rewrite obj_lookup_spread. unfold has_key. rewrite Hkey. reflexivity.
Qed.

Lemma mergeData_strict_twice current incoming :
  mergeData (mergeData current incoming Strict) incoming Strict
  = mergeData current incoming Strict.
Proof.
  set (r := mergeData current incoming Strict).
  assert (Hnd : NoDup (Object_keys r))
    by apply Object_keys_spread_distinct, Object_keys_spread_distinct, NoDup_nil_2.
  change (mergeData r incoming Strict)
    with (spread
            (fold_left
               (fun acc key =>
                  if has_key key incoming
                  then obj_set key (obj_get incoming key) acc else acc)
               (Object_keys r) [])
            (spread r [])).
  rewrite (StoreFacts.spread_NoDup r Hnd). unfold spread at 1.
  apply write_known. intros key v _. rewrite obj_lookup_filtered. simpl.
  destruct (bool_decide_reflect (elem_of key (Object_keys r))) as [Hin|]; [|discriminate].
  simpl. destruct (has_key key incoming) eqn:Hi; [|discriminate].
  intros Hv. unfold r. rewrite obj_lookup_strict, Hi.
  apply list_elem_of_In, has_key_In in Hin. unfold has_key in Hin.
  fold r in Hin. unfold r in Hin. rewrite obj_lookup_strict in Hin.
  destruct (has_key key current); [exact Hv | discriminate].
Qed.

Lemma deepMerge_known r source :
  NoDup (Object_keys r) ->
  (forall key sv, In (key, sv) source ->
     obj_lookup key r
     = Some (if isPlainObject (obj_get r key) && isPlainObject sv
             then merge_value (obj_get r key) sv else sv)) ->
  deepMerge r source = r.
Proof.
  intros Hnd Hknown. unfold deepMerge. rewrite (StoreFacts.spread_NoDup r Hnd).
  assert (Hloop : forall rest,
             (forall key sv, In (key, sv) rest -> In (key, sv) source) ->
             fold_left (deepMerge_step r) rest r = r).
  { induction rest as [|[key sv] rest IH]; intros Hsub; [reflexivity|].
    simpl. rewrite obj_set_same by (apply Hknown, Hsub; by left).
    apply IH. intros k v Hin. apply Hsub. by right. }
  apply Hloop. auto.
Qed.

Lemma deepMerge_twice_value v :
  match v with
  | JObj source =>
      distinct_keys v = true ->
      (forall target, deepMerge (deepMerge target source) source = deepMerge target source)
      /\ deepMerge source source = source
  | _ => True
  end.
Proof.
  induction v as [ | | b | n | s | elems _ | source IH | t | s ]
    using JsValue_nested_ind; try exact I.
  intros Hd. apply distinct_keys_object in Hd as [Hnd Hsub].
  rewrite List.Forall_forall in IH.
  assert (Hself : forall sv, (exists key, In (key, sv) source) ->
             (if isPlainObject sv && isPlainObject sv then merge_value sv sv else sv) = sv).
  { intros sv [key Hin]. destruct (isPlainObject sv) eqn:Hp; [|reflexivity].
    apply isPlainObject_JObj in Hp as [s' ->]. simpl andb. cbv iota.
    rewrite merge_value_plain. f_equal.
    exact (proj2 (IH (key, JObj s') Hin (Hsub key _ Hin))). }
  split.
  - intros target. apply deepMerge_known; [apply deepMerge_keys_distinct|].
    intros key sv Hin.
    assert (Hat : obj_lookup key (deepMerge target source)
                  = Some (deep_at (obj_lookup key target) sv)).
    { rewrite deepMerge_unfold, obj_lookup_deep_loop by exact Hnd.
      rewrite (StoreFacts.obj_lookup_NoDup key sv source Hnd Hin). reflexivity. }
    rewrite Hat. f_equal. unfold obj_get. rewrite Hat. unfold deep_at.
    destruct (isPlainObject _ && isPlainObject sv) eqn:Hboth.
    + apply andb_true_iff in Hboth as [_ [s' ->]%isPlainObject_JObj].
      set (c' := as_obj _). simpl as_obj.
      change (isPlainObject (JObj (deepMerge c' s')) && isPlainObject (JObj s'))
        with true.
      cbv iota. rewrite merge_value_plain. f_equal. symmetry.
      exact (proj1 (IH (key, JObj s') Hin (Hsub key _ Hin)) _).
    + symmetry. apply Hself. eauto.
  - apply deepMerge_known; [exact Hnd|].
    intros key sv Hin.
    rewrite (StoreFacts.obj_lookup_NoDup key sv source Hnd Hin). f_equal.
    unfold obj_get. rewrite (StoreFacts.obj_lookup_NoDup key sv source Hnd Hin).
    symmetry. apply Hself. eauto.
Qed.

(** X5.  Merging the same [incoming] a second time changes nothing, under
    each of the four strategies (for [incoming] with distinct keys at
    every level, as in any object). *)
Theorem mergeData_twice (current incoming : Obj) (strategy : MergeStrategy) :
  distinct_keys (JObj incoming) = true ->
  mergeData (mergeData current incoming strategy) incoming strategy
  = mergeData current incoming strategy.
Proof.
  intros Hd. destruct strategy.
  - apply mergeData_merge_twice.
  - reflexivity.
  - apply mergeData_strict_twice.
  - exact (proj1 (deepMerge_twice_value (JObj incoming) Hd) current).
Qed.

Lemma mergeData_twice_witness :
  mergeData (mergeData deep_current deep_incoming Deep) deep_incoming Deep
  = mergeData deep_current deep_incoming Deep.
Proof. apply mergeData_twice. reflexivity. Defined.

(** ** Mapper: collisions and maps that do not apply *)

Lemma find_snoc {A : Type} (f : A -> bool) l x :
  find f (l ++ [x])
  = match find f l with Some y => Some y | None => if f x then Some x else None end.
Proof.
  induction l as [|y l IH]; simpl; [reflexivity|].
  destruct (f y); [reflexivity | exact IH].
Qed.

Lemma applyMapping_loop_last fm data dest ks : forall mapped,
  obj_lookup dest
    (fold_left
       (fun mapped key =>
          let mappedKey :=
            match fieldMap_lookup key fm with
            | Some dest => dest
            | None => key
            end in
          obj_set mappedKey (obj_get data key) mapped)
       ks mapped)
  = match last_source fm dest ks with
    | Some key => Some (obj_get data key)
    | None => obj_lookup dest mapped
    end.
Proof.
  unfold last_source.
  induction ks as [|k0 ks IH]; intros mapped; simpl; [reflexivity|].
  rewrite IH, find_snoc.
  destruct (find _ (rev ks)); [reflexivity|].
  rewrite obj_lookup_set. fold (mapped_key fm k0).
  destruct (String.eqb (mapped_key fm k0) dest); reflexivity.
Qed.

(** The collision rule of the mapping, read on own properties. *)
Lemma applyMapping_last_wins_own (data : Obj) (fm : FieldMap) :
  (forall dest,
      obj_lookup dest (applyMapping data (Some fm))
      = match last_source fm dest (Object_keys data) with
        | Some key => Some (obj_get data key)
        | None => None
        end)
  /\ (forall dest, In dest (Object_keys (applyMapping data (Some fm)))
                   <-> exists key, In key (Object_keys data) /\ mapped_key fm key = dest)
  /\ NoDup (Object_keys (applyMapping data (Some fm))).
Proof.
  split; [|split].
  - intros dest. simpl. apply applyMapping_loop_last.
  - intros dest. simpl. rewrite applyMapping_loop_keys. simpl. tauto.
  - simpl. assert (Hstart : NoDup (Object_keys ([] : Obj))) by constructor.
    revert Hstart. generalize ([] : Obj) as mapped.
    induction (Object_keys data) as [|k ks IH]; intros mapped Hm; simpl; [exact Hm|].
    apply IH, StoreFacts.Object_keys_set_NoDup, Hm.
Qed.

Lemma applyMapping_loop_unmapped fm (data rest : Obj) : forall mapped,
  (forall k v, In (k, v) rest -> obj_lookup k data = Some v) ->
  (forall k, In k (Object_keys rest) -> fieldMap_lookup k fm = None) ->
  fold_left
    (fun mapped key =>
       let mappedKey :=
         match fieldMap_lookup key fm with
         | Some dest => dest
         | None => key
         end in
       obj_set mappedKey (obj_get data key) mapped)
    (Object_keys rest) mapped
  = fold_left (fun acc '(k, v) => obj_set k v acc) rest mapped.
Proof.
  induction rest as [|[k v] rest IH]; intros mapped Hlook Hfree; [reflexivity|].
  simpl. rewrite (Hfree k) by (by left).
  unfold obj_get. rewrite (Hlook k v) by (by left).
  apply IH.
  - intros k' v' Hin. apply Hlook. by right.
  - intros k' Hin. apply Hfree. by right.
Qed.

(** A field map that mentions no key of the data, read on own
    properties. *)
Lemma applyMapping_unrelated_map_own (data : Obj) (fm : FieldMap) :
  NoDup (Object_keys data) ->
  (forall k, In k (Object_keys data) -> fieldMap_lookup k fm = None) ->
  applyMapping data (Some fm) = data /\ applyMapping data (Some []) = data
  /\ applyMapping data None = data.
Proof.
  intros Hnd Hfree.
  assert (Hcopy : forall fm', (forall k, In k (Object_keys data) ->
                                 fieldMap_lookup k fm' = None) ->
                              applyMapping data (Some fm') = data).
  { intros fm' Hfree'.
    transitivity (fold_left (fun acc '(k, v) => obj_set k v acc) data ([] : Obj)).
    - apply (applyMapping_loop_unmapped fm' data data []); [|exact Hfree'].
      intros k v Hin. apply StoreFacts.obj_lookup_NoDup; assumption.
    - apply (write_entries_suffix data []), Hnd. }
  split; [apply Hcopy, Hfree|]. split; [apply Hcopy; reflexivity | reflexivity].
Qed.

(** ** Safe parser: what an error says *)

(** The key the scan throws on is a key of the structure. *)
Lemma scan_occurs v key :
  assertNoPrototypePollution v = Some key -> key_occurs key v.
Proof.
  revert key.
  induction v as [ | | b | n | s | elems IH | props IH | t | s ]
    using JsValue_nested_ind; intros found; try discriminate.
  - simpl. induction IH as [|v rest Hv _ IHrest]; [discriminate|].
    destruct (assertNoPrototypePollution v) as [k|] eqn:Hscan.
    + intros [= <-]. apply (occurs_in_element _ _ v); [by left | exact (Hv k eq_refl)].
    + intros Hrest. specialize (IHrest Hrest).
      inversion IHrest as [ | | ? w Hin Hw ]; subst.
      apply (occurs_in_element _ _ w); [by right | exact Hw].
  - simpl. induction IH as [|[k v] rest Hv _ IHrest]; [discriminate|].
    simpl in Hv. destruct (bool_decide_reflect (k ∈ DANGEROUS_KEYS)) as [Hk|Hk].
    + intros [= <-]. apply (occurs_here _ _ v). by left.
    + destruct (assertNoPrototypePollution v) as [k'|] eqn:Hscan.
      * intros [= <-]. apply (occurs_in_property _ _ k v); [by left | exact (Hv k' eq_refl)].
      * intros Hrest. specialize (IHrest Hrest).
        inversion IHrest as [ ? w Hin | ? k0 w Hin Hw | ]; subst.
        -- apply (occurs_here _ _ w). by right.
        -- apply (occurs_in_property _ _ k0 w); [by right | exact Hw].
Qed.

(** X8.  Each failure of [parseJson] carries one of three messages, and
    the message tells the cause: "Invalid JSON file" when the text does
    not parse; the top-level message when the parsed value is not a
    non-null, non-array object; and otherwise a message that quotes a key
    which is one of the reserved names and is a key of an object of the
    parsed structure, at some depth. *)
Theorem parseJson_error_cause (JSON_parse : string -> option JsValue)
    (text : string) (e : JsonAutoFillError) :
  parseJson JSON_parse text = inl e ->
  (e = mkError "Invalid JSON file" PARSE_ERROR /\ JSON_parse text = None)
  \/ (e = mkError "JSON must be a top-level object (not an array or primitive)" PARSE_ERROR
      /\ exists v, JSON_parse text = Some v /\ ~ top_level_object v)
  \/ (exists key v,
        e = dangerous_key_error key /\ key ∈ DANGEROUS_KEYS
        /\ JSON_parse text = Some v /\ top_level_object v /\ key_occurs key v).
Proof.
  unfold parseJson. destruct (JSON_parse text) as [parsed|]; [|intros [= <-]; by left].
  destruct (negb (String.eqb (typeof parsed) "object") || is_null parsed
            || Array_isArray parsed) eqn:Htop.
  - intros [= <-]. right. left. split; [reflexivity|]. exists parsed.
    split; [reflexivity|]. intros H%top_level_test. congruence.
  - apply top_level_test in Htop.
    destruct (assertNoPrototypePollution parsed) as [key|] eqn:Hscan; [|discriminate].
    intros [= <-]. destruct (scan_found parsed key Hscan) as [Hkey _].
    pose proof (scan_occurs parsed key Hscan) as Hoccurs.
    right. right. exists key, parsed. tauto.
Qed.

Lemma parseJson_error_cause_witness :
  exists key v,
    dangerous_key_error "__proto__" = dangerous_key_error key /\ key ∈ DANGEROUS_KEYS
    /\ parse_as (JObj polluted_input) "text" = Some v
    /\ top_level_object v /\ key_occurs key v.
Proof.
  destruct (parseJson_error_cause (parse_as (JObj polluted_input)) "text"
              (dangerous_key_error "__proto__"))
    as [[Habs _]|[[Habs _]|Hkey]]; [vm_compute; reflexivity | | | exact Hkey];
    discriminate Habs.
Defined.

(** ** Reserved keys do not survive the default pipeline *)

Lemma DANGEROUS_KEYS_no_dot k : k ∈ DANGEROUS_KEYS -> has_dot k = false.
Proof.
  unfold DANGEROUS_KEYS. rewrite !elem_of_union, !elem_of_singleton.
  intros [[->| ->]| ->]; reflexivity.
Qed.

Lemma has_dot_append a b : has_dot (a +:+ "." +:+ b) = true.
Proof. induction a as [|c a IH]; simpl; [reflexivity|]. rewrite IH. apply orb_true_r. Qed.

Lemma join_key_safe parentKey key :
  parentKey ∉ DANGEROUS_KEYS -> key ∉ DANGEROUS_KEYS ->
  join_key parentKey key ∉ DANGEROUS_KEYS.
Proof.
  intros _ Hkey. unfold join_key. destruct (String.eqb parentKey ""); [exact Hkey|].
  intros Hin%DANGEROUS_KEYS_no_dot. rewrite has_dot_append in Hin. discriminate.
Qed.

Lemma flatten_value_safe value : forall newKey (result : Obj),
  ~ has_reserved_key value -> newKey ∉ DANGEROUS_KEYS ->
  (forall k, In k (Object_keys result) -> k ∉ DANGEROUS_KEYS) ->
  forall k, In k (Object_keys (flatten_value newKey value result)) -> k ∉ DANGEROUS_KEYS.
Proof.
  assert (Hleaf : forall newKey v (result : Obj),
             newKey ∉ DANGEROUS_KEYS ->
             (forall k, In k (Object_keys result) -> k ∉ DANGEROUS_KEYS) ->
             forall k, In k (Object_keys (obj_set newKey v result)) -> k ∉ DANGEROUS_KEYS).
  { intros newKey v result Hnew Hres k [->|Hin]%Object_keys_set; auto. }
  induction value as [ | | b | n | s | elems _ | props IH | t | s ]
    using JsValue_nested_ind; intros newKey result Hclean Hnew Hres;
    try (apply Hleaf; assumption); try exact Hres.
  simpl.
  assert (Hprops : forall key v, In (key, v) props ->
                     (key ∉ DANGEROUS_KEYS) /\ ~ has_reserved_key v).
  { intros key v Hin. split; intros Hbad; apply Hclean.
    - exact (reserved_here _ _ _ Hin Hbad).
    - exact (reserved_in_property _ _ _ Hin Hbad). }
  clear Hclean. revert result Hres.
  induction IH as [|[key v] rest Hv _ IHrest]; intros result Hres; [exact Hres|].
  destruct (Hprops key v (or_introl eq_refl)) as [Hkey Hvclean].
  apply IHrest.
  - intros key' v' Hin. apply Hprops. by right.
  - apply Hv; [exact Hvclean | apply join_key_safe; assumption | exact Hres].
Qed.

Section PipelineSafety.

Variable JSON_parse : string -> option JsValue.

(** X9.  Flattening an object that holds no reserved key at any depth
    yields no reserved key; hence a text that the pipeline accepts, with
    no field map and no transform configured, reaches the caller as data
    none of whose keys is [__proto__], [constructor] or [prototype]. *)
Theorem reserved_keys_stay_out :
  (forall o k, ~ has_reserved_key (JObj o) ->
               In k (Object_keys (flattenObject o "" [])) -> k ∉ DANGEROUS_KEYS)
  /\ (forall text options data cancelled k,
        processJsonData JSON_parse (InputText text) options = Return (data, cancelled) ->
        opt options fieldMap = None -> opt options transform = None ->
        In k (Object_keys data) -> k ∉ DANGEROUS_KEYS).
Proof.
  assert (Hflat : forall o k, ~ has_reserved_key (JObj o) ->
                    In k (Object_keys (flattenObject o "" [])) -> k ∉ DANGEROUS_KEYS).
  { intros o k Hclean.
    replace (flattenObject o "" []) with (flatten_value "" (JObj o) [])
      by exact (flatten_value_descends "" (JObj o) []).
    apply flatten_value_safe; [exact Hclean | | intros ? []].
    unfold DANGEROUS_KEYS. rewrite !elem_of_union, !elem_of_singleton.
    intros [[?|?]|?]; discriminate. }
  split; [exact Hflat|].
  intros text options data cancelled k Hrun Hmap Htransform.
  rewrite processJsonData_text in Hrun.
  destruct (parseJson JSON_parse text) as [e|parsed] eqn:Hparse; [discriminate|].
  apply processJsonData_data in Hrun. rewrite Htransform, Hmap in Hrun.
  injection Hrun as <-. simpl.
  assert (Hclean : ~ has_reserved_key (JObj parsed)).
  { unfold parseJson in Hparse. destruct (JSON_parse text) as [v|]; [|discriminate].
    destruct (negb _ || _ || _); [discriminate|].
    destruct (assertNoPrototypePollution v) eqn:Hscan; [discriminate|].
    injection Hparse as <-. apply scan_clean in Hscan.
    destruct v; simpl; try exact Hscan;
      intros Hbad; inversion Hbad as [? ? ? Hin|? ? ? Hin|]; destruct Hin. }
  unfold flattened_input. destruct (opt options flatten) as [[|]|].
  - apply Hflat, Hclean.
  - intros Hin Hbad. apply in_map_iff in Hin as ([k' v] & <- & Hin).
    apply Hclean. exact (reserved_here _ _ _ Hin Hbad).
  - apply Hflat, Hclean.
Qed.

(** X10.  Whatever data [processJsonData] returns for an object input,
    cancelled or not, has passed the configured validation: [validate]
    returned a truthy value on it.  And when [validate] returns a falsy
    value ([false], but also [undefined], [null], [0] or the empty
    string) on the transformed data, the pipeline fails with
    [VALIDATION_ERROR], whatever the pre-fill gate would say. *)
Theorem validation_guards_data (obj : Obj) (options : option Options) :
  (forall data cancelled check,
      processJsonData JSON_parse (InputObject obj) options = Return (data, cancelled) ->
      opt options validate = Some check ->
      exists r, check data = Return r /\ truthy r = true)
  /\ (forall data check r,
        transformed_input options obj = Return data ->
        opt options validate = Some check ->
        check data = Return r -> truthy r = false ->
        processJsonData JSON_parse (InputObject obj) options
        = Throw (ThrowAutoFill validation_failed)).
Proof.
  split.
  - intros data cancelled check Hrun Hcheck.
    pose proof (processJsonData_data JSON_parse _ _ _ _ Hrun) as Hdata.
    rewrite processJsonData_object in Hrun. cbv zeta in Hrun.
    rewrite Hdata, Hcheck in Hrun. simpl in Hrun.
    destruct (check data) as [r|]; [|discriminate]. simpl in Hrun.
    exists r. split; [reflexivity|].
    destruct (truthy r); [reflexivity | discriminate].
  - intros data check r Hdata Hcheck Hr Hfalsy.
    rewrite processJsonData_object. cbv zeta.
    unfold transformed_input in Hdata. rewrite Hdata, Hcheck. simpl.
    rewrite Hr. simpl. rewrite Hfalsy. reflexivity.
Qed.

End PipelineSafety.

(** ** The three bindings *)

Lemma obj_lookup_filter_key (p : string -> bool) k (o : Obj) :
  obj_lookup k (List.filter (fun entry => p (fst entry)) o)
  = if p k then obj_lookup k o else None.
Proof.
  induction o as [|[k0 v0] o IH]; simpl; [destruct (p k); reflexivity|].
  destruct (p k0) eqn:Hk0; simpl.
  - destruct (String.eqb_spec k0 k) as [->|Hne]; [rewrite Hk0; reflexivity | exact IH].
  - destruct (String.eqb_spec k0 k) as [->|Hne]; [rewrite Hk0 in *; exact IH | exact IH].
Qed.

Lemma Object_keys_filter (p : string * JsValue -> bool) (o : Obj) k :
  In k (Object_keys (List.filter p o)) -> In k (Object_keys o).
Proof.
  unfold Object_keys. rewrite !in_map_iff. intros (e & He & Hin%filter_In).
  exists e. tauto.
Qed.

Lemma getFieldsToSet_strict_loop current incoming rest : forall pre,
  NoDup (Object_keys (pre ++ rest)) ->
  (forall k v, In (k, v) rest -> obj_lookup k incoming = Some v) ->
  fold_left
    (fun result key =>
       if has_key key current then obj_set key (obj_get incoming key) result
       else result)
    (Object_keys rest) (strict_fields current pre)
  = strict_fields current (pre ++ rest).
Proof.
  induction rest as [|[k v] rest IH]; intros pre Hnd Hlook; simpl.
  - rewrite app_nil_r. reflexivity.
  - replace (pre ++ (k, v) :: rest) with ((pre ++ [(k, v)]) ++ rest) in *
      by (rewrite <- app_assoc; reflexivity).
    rewrite <- IH; [|exact Hnd | intros k' v' Hin; apply Hlook; by right].
    f_equal. unfold strict_fields. rewrite List.filter_app. simpl.
    destruct (has_key k current); [|rewrite app_nil_r; reflexivity].
    unfold obj_get. rewrite (Hlook k v) by (by left).
    apply obj_set_fresh. intros Hin%Object_keys_filter.
    unfold Object_keys in Hnd. rewrite !map_app in Hnd. simpl in Hnd.
    apply NoDup_app in Hnd as ((_ & Hdisj & _)%NoDup_app & _ & _).
    apply (Hdisj k); [apply list_elem_of_In, Hin | by left].
Qed.

Lemma formik_strict_loop current data validate rest : forall pre,
  (forall k v, In (k, v) rest -> obj_lookup k data = Some v) ->
  fold_left
    (fun made key =>
       if has_key key current
       then made ++ [FormikSetFieldValue key (obj_get data key) validate]
       else made)
    (Object_keys rest)
    (map (fun '(key, value) => FormikSetFieldValue key value validate)
       (strict_fields current pre))
  = map (fun '(key, value) => FormikSetFieldValue key value validate)
      (strict_fields current (pre ++ rest)).
Proof.
  induction rest as [|[k v] rest IH]; intros pre Hlook; simpl.
  - rewrite app_nil_r. reflexivity.
  - replace (pre ++ (k, v) :: rest) with ((pre ++ [(k, v)]) ++ rest)
      by (rewrite <- app_assoc; reflexivity).
    rewrite <- IH by (intros k' v' Hin; apply Hlook; by right).
    f_equal. unfold strict_fields. rewrite List.filter_app, map_app. simpl.
    destruct (has_key k current); [|rewrite app_nil_r; reflexivity].
    unfold obj_get. rewrite (Hlook k v) by (by left). reflexivity.
Qed.

(** The fields a strict fill touches, read on own properties. *)
Lemma strict_fill_parity_own (current data : Obj) (validate : bool)
    (options : option RHFOptions) :
  NoDup (Object_keys data) ->
  formik_apply Strict validate current data
  = map (fun '(key, value) => FormikSetFieldValue key value validate)
      (strict_fields current data)
  /\ getFieldsToSet current data Strict = strict_fields current data
  /\ (exists setOptions,
        rhf_apply Strict options current data
        = map (fun '(key, value) => RHFSetValue key value setOptions)
            (strict_fields current data))
  /\ (forall k, obj_lookup k (mergeData current data Strict)
                = match obj_lookup k (strict_fields current data) with
                  | Some v => Some v
                  | None => obj_lookup k current
                  end).
Proof.
  intros Hnd.
  assert (Hlook : forall k v, In (k, v) data -> obj_lookup k data = Some v)
    by (intros k v Hin; apply StoreFacts.obj_lookup_NoDup; assumption).
  assert (Hfields : getFieldsToSet current data Strict = strict_fields current data)
    by exact (getFieldsToSet_strict_loop current data data [] Hnd Hlook).
  split; [exact (formik_strict_loop current data validate data [] Hlook)|].
  split; [exact Hfields|]. split.
  - eexists. unfold rhf_apply. rewrite Hfields. reflexivity.
  - intros k. rewrite obj_lookup_strict. unfold strict_fields.
    rewrite (obj_lookup_filter_key (fun key => has_key key current)).
    destruct (has_key k current) eqn:Hc.
    + unfold has_key. destruct (obj_lookup k data); reflexivity.
    + unfold has_key in Hc. destruct (obj_lookup k current); [discriminate | reflexivity].
Qed.

Lemma notifications_app made made' :
  notifications (made ++ made') = notifications made ++ notifications made'.
Proof.
  induction made as [|[ | | | | event] made IH]; simpl; try exact IH; [reflexivity|].
  rewrite IH. reflexivity.
Qed.

Lemma callbacks_app made made' :
  callbacks (made ++ made') = callbacks made ++ callbacks made'.
Proof.
  induction made as [|[ | | | ] made IH]; simpl; try exact IH; try reflexivity;
    rewrite IH; reflexivity.
Qed.

Lemma formik_apply_silent strategy validate values data :
  notifications (formik_apply strategy validate values data) = [].
Proof.
  destruct strategy; try reflexivity. simpl.
  assert (Hloop : forall keys made, notifications made = [] ->
            notifications
              (fold_left
                 (fun made key =>
                    if has_key key values
                    then made ++ [FormikSetFieldValue key (obj_get data key) validate]
                    else made)
                 keys made) = []).
  { induction keys as [|k keys IH]; intros made Hmade; simpl; [exact Hmade|].
    apply IH. destruct (has_key k values); [|exact Hmade].
    rewrite notifications_app, Hmade. reflexivity. }
  apply Hloop. reflexivity.
Qed.

Lemma rhf_apply_silent strategy options values data :
  notifications (rhf_apply strategy options values data) = [].
Proof.
  unfold rhf_apply.
  destruct strategy; try reflexivity;
    match goal with
    | |- notifications (map _ ?l) = [] =>
        induction l as [|[k v] rest IH]; [reflexivity | exact IH]
    end.
Qed.

(** The cases of the callbacks that end a fill. *)
Ltac callback_cases shared data :=
  let after := fresh "after" in
  let success := fresh "success" in
  let handler := fresh "handler" in
  unfold call_optional, binding_finish, catch_clause, binding_catch;
  destruct (opt shared onAfterFill) as [after|];
    [destruct (after data) as [[]|?]|];
    (destruct (opt shared onSuccess) as [success|];
       [try destruct (success data) as [[]|?]|]);
    (destruct (opt shared onError) as [handler|];
       [try destruct (handler _) as [[]|?]|]).

Section BindingFacts.

Variable JSON_parse : string -> option JsValue.

(** X12.  The three bindings settle alike and notify the caller alike:
    for every input, every option set and every current state, the Formik
    binding and the React Hook Form binding resolve to the same value, or
    reject with the same error, as the plain-state binding run with the
    shared options, and they call [onAfterFill], [onSuccess] and [onError]
    with the same arguments in the same order. *)
Theorem bindings_settle_alike (formik : option FormikOptions)
    (rhf : option RHFOptions) (current : Obj) (jsonInput : JsonInput) :
  (settled (processJson JSON_parse (option_map formik_shared formik) current jsonInput)
   = binding_settled (processJson_formik JSON_parse formik current jsonInput)
   /\ callbacks (calls (processJson JSON_parse (option_map formik_shared formik)
                          current jsonInput))
      = notifications (binding_calls (processJson_formik JSON_parse formik
                                        current jsonInput)))
  /\ (settled (processJson JSON_parse (option_map rhf_shared rhf) current jsonInput)
      = binding_settled (processJson_rhf JSON_parse rhf current jsonInput)
      /\ callbacks (calls (processJson JSON_parse (option_map rhf_shared rhf)
                             current jsonInput))
         = notifications (binding_calls (processJson_rhf JSON_parse rhf
                                           current jsonInput))).
Proof.
  assert (Hcatch : forall shared t state,
             settled (catch_clause shared t state [])
             = binding_settled (binding_catch shared t [])
             /\ callbacks (calls (catch_clause shared t state []))
                = notifications (binding_calls (binding_catch shared t []))).
  { intros shared t state. unfold catch_clause, binding_catch.
    destruct (opt shared onError) as [report|];
      [destruct (report _) as [[]|t']|]; simpl; split; reflexivity. }
  split.
  - unfold processJson, processJson_formik.
    change (match formik with Some o => Some (formik_shared o) | None => None end)
      with (option_map formik_shared formik).
    destruct (processJsonData JSON_parse jsonInput (option_map formik_shared formik))
      as [[data [|]]|t]; [split; reflexivity | | apply Hcatch].
    assert (Hsilent := formik_apply_silent
                         (configured_strategy (option_map formik_shared formik))
                         (should_validate formik) current data).
    revert Hsilent.
    generalize (formik_apply (configured_strategy (option_map formik_shared formik))
                  (should_validate formik) current data).
    intros made Hsilent.
    callback_cases (option_map formik_shared formik) data;
      simpl; rewrite ?notifications_app, ?callbacks_app, ?Hsilent; simpl;
      split; reflexivity.
  - unfold processJson, processJson_rhf.
    change (match rhf with Some o => Some (rhf_shared o) | None => None end)
      with (option_map rhf_shared rhf).
    destruct (processJsonData JSON_parse jsonInput (option_map rhf_shared rhf))
      as [[data [|]]|t]; [split; reflexivity | | apply Hcatch].
    assert (Hsilent := rhf_apply_silent
                         (configured_strategy (option_map rhf_shared rhf))
                         rhf current data).
    revert Hsilent.
    generalize (rhf_apply (configured_strategy (option_map rhf_shared rhf))
                  rhf current data).
    intros made Hsilent.
    callback_cases (option_map rhf_shared rhf) data;
      simpl; rewrite ?notifications_app, ?callbacks_app, ?Hsilent; simpl;
      split; reflexivity.
Qed.

(** X13.  Outside the strict strategy the Formik binding hands
    [setValues] the very object the plain-state binding stores: when the
    pipeline returns data and the fill is not cancelled, the calls of the
    Formik binding are one [setValues] with the form data of the
    plain-state run from the same values, validating unless
    [shouldValidate] says otherwise, followed by the callbacks of that
    run. *)
Theorem formik_hands_merged_values (formik : option FormikOptions)
    (values : Obj) (jsonInput : JsonInput) (data : Obj) :
  configured_strategy (option_map formik_shared formik) <> Strict ->
  processJsonData JSON_parse jsonInput (option_map formik_shared formik)
  = Return (data, false) ->
  binding_calls (processJson_formik JSON_parse formik values jsonInput)
  = FormikSetValues
      (formData (processJson JSON_parse (option_map formik_shared formik)
                   values jsonInput))
      (should_validate formik)
    :: map Notify
         (callbacks (calls (processJson JSON_parse (option_map formik_shared formik)
                              values jsonInput))).
Proof.
  intros Hstrategy Hdata.
  unfold processJson, processJson_formik.
  change (match formik with Some o => Some (formik_shared o) | None => None end)
    with (option_map formik_shared formik).
  rewrite Hdata. cbv iota.
  set (shared := option_map formik_shared formik) in *.
  assert (Happly : formik_apply (configured_strategy shared) (should_validate formik)
                     values data
                   = [FormikSetValues
                        (mergeData values data (configured_strategy shared))
                        (should_validate formik)])
    by (destruct (configured_strategy shared); try reflexivity; contradiction).
  rewrite Happly. unfold configured_strategy.
  callback_cases shared data; reflexivity.
Qed.

(** X14.  The React Hook Form binding treats the deep strategy as the
    merge strategy: under either, a run makes the same calls and settles
    the same way, and when the pipeline returns data and the fill is not
    cancelled it calls [setValue] once for every entry of the data, with
    the value of the data itself, whatever the form holds under that key;
    no recursive merge with the current values takes place. *)
Theorem rhf_deep_sets_incoming (shared : Options) (setOptions resetting : option Obj)
    (currentValues : Obj) (jsonInput : JsonInput) :
  processJson_rhf JSON_parse
    (Some (mkRHFOptions (with_strategy Deep shared) setOptions resetting))
    currentValues jsonInput
  = processJson_rhf JSON_parse
      (Some (mkRHFOptions (with_strategy Merge shared) setOptions resetting))
      currentValues jsonInput
  /\ (forall data,
        processJsonData JSON_parse jsonInput (Some (with_strategy Deep shared))
        = Return (data, false) ->
        binding_calls
          (processJson_rhf JSON_parse
             (Some (mkRHFOptions (with_strategy Deep shared) setOptions resetting))
             currentValues jsonInput)
        = map (fun '(key, value) =>
                 RHFSetValue key value
                   (match setOptions with
                    | Some s => s
                    | None => default_setValueOptions
                    end))
            data
          ++ map Notify
               (callbacks
                  (calls (processJson JSON_parse (Some (with_strategy Deep shared))
                            currentValues jsonInput)))).
Proof.
  split; [reflexivity|].
  intros data Hdata. unfold processJson, processJson_rhf.
  cbn [rhf_shared]. rewrite Hdata. cbv iota.
  change (configured_strategy (Some (with_strategy Deep shared))) with Deep.
  unfold rhf_apply, getFieldsToSet. cbn [setValueOptions].
  generalize (map (fun '(key, value) =>
                     RHFSetValue key value
                       (match setOptions with
                        | Some s => s
                        | None => default_setValueOptions
                        end)) data).
  intros made.
  callback_cases (Some (with_strategy Deep shared)) data;
    simpl; rewrite ?app_nil_r, <- ?app_assoc; reflexivity.
Qed.

End BindingFacts.

Lemma formik_hands_merged_values_witness :
  binding_calls
    (processJson_formik parse_nothing None deep_current (InputObject deep_incoming))
  = [FormikSetValues
       (deep_current
        ++ [("user.tags", JArr [JStr "b"]); ("user.address.city", JStr "Bergen");
            ("since", JDate 0)])
       true].
Proof.
  apply (formik_hands_merged_values parse_nothing None deep_current
           (InputObject deep_incoming)
           [("user.tags", JArr [JStr "b"]); ("user.address.city", JStr "Bergen");
            ("since", JDate 0)]);
    [discriminate | reflexivity].
Defined.

Lemma rhf_deep_sets_incoming_witness :
  binding_calls
    (processJson_rhf parse_nothing
       (Some (mkRHFOptions
                (with_strategy Deep
                   (mkOptions None None (Some false) None None None None None None))
                None None))
       deep_current (InputObject deep_incoming))
  = [RHFSetValue "user"
       (JObj [("tags", JArr [JStr "b"]); ("address", JObj [("city", JStr "Bergen")])])
       default_setValueOptions;
     RHFSetValue "since" (JDate 0) default_setValueOptions]
  /\ obj_lookup "user" (mergeData deep_current deep_incoming Deep)
     = Some (JObj [("name", JStr "Ann"); ("tags", JArr [JStr "b"]);
                   ("address", JObj [("city", JStr "Bergen"); ("zip", JStr "0150")])]).
Proof.
  split; [|reflexivity].
  apply (proj2 (rhf_deep_sets_incoming parse_nothing
                  (mkOptions None None (Some false) None None None None None None)
                  None None deep_current (InputObject deep_incoming))
           deep_incoming).
  reflexivity.
Defined.

(** ** The adapters: paste, drop and upload *)

Lemma files_read_app made made' :
  files_read (made ++ made') = files_read made ++ files_read made'.
Proof.
  induction made as [|[text|error|file] made IH]; simpl; try exact IH; [reflexivity|].
  rewrite IH. reflexivity.
Qed.

Lemma errors_reported_app made made' :
  errors_reported (made ++ made') = errors_reported made ++ errors_reported made'.
Proof.
  induction made as [|[text|error|file] made IH]; simpl; try exact IH; [reflexivity|].
  rewrite IH. reflexivity.
Qed.

Lemma report_calls onError error made :
  files_read (snd (report onError error made)) = files_read made
  /\ (exists said, errors_reported (snd (report onError error made))
                   = errors_reported made ++ said
                   /\ (said = [] \/ said = [error])
                   /\ (onError <> None -> said = [error])).
Proof.
  unfold report. destruct onError as [f|]; simpl.
  - rewrite files_read_app, errors_reported_app, app_nil_r. split; [reflexivity|].
    exists [error]. split; [reflexivity|]. split; [by right | reflexivity].
  - split; [reflexivity|]. exists []. rewrite app_nil_r.
    split; [reflexivity|]. split; [by left | congruence].
Qed.

Lemma report_returns onError error made :
  returns onError -> fst (report onError error made) = Return tt.
Proof.
  unfold report, returns. destruct onError as [f|]; simpl; [|reflexivity].
  intros Hf. apply Hf.
Qed.

Lemma drop_loop_safe maxFileSize onError jsonFiles : forall made,
  exists read said,
    files_read (snd (drop_loop maxFileSize onError jsonFiles made))
    = files_read made ++ read
    /\ errors_reported (snd (drop_loop maxFileSize onError jsonFiles made))
       = errors_reported made ++ said
    /\ (forall file, In file read ->
          In file jsonFiles /\ (file_size file <= maxFileSize)%N)
    /\ (forall error, In error said ->
          exists file, In file jsonFiles /\ (maxFileSize < file_size file)%N
                       /\ error = drop_too_large_error file maxFileSize).
Proof.
  induction jsonFiles as [|file rest IH]; intros made; simpl.
  - exists [], []. rewrite !app_nil_r.
    split; [reflexivity|]. split; [reflexivity|]. split; intros ? [].
  - destruct (N.ltb_spec maxFileSize (file_size file)) as [Hlarge|Hsmall].
    + destruct (report_calls onError (drop_too_large_error file maxFileSize) made)
        as (Hread & said & Hsaid & Hcases & _).
      destruct (report onError (drop_too_large_error file maxFileSize) made)
        as [[[]|t] made'] eqn:Hreport; simpl in Hread, Hsaid.
      * destruct (IH made') as (read & said' & Hr & Hs & Hfiles & Herrors).
        exists read, (said ++ said'). rewrite Hr, Hs, Hread, Hsaid, app_assoc.
        split; [reflexivity|]. split; [reflexivity|]. split.
        -- intros f Hin. destruct (Hfiles f Hin). split; [by right | assumption].
        -- intros e [Hin|Hin]%in_app_or.
           ++ exists file. split; [by left|]. split; [assumption|].
              destruct Hcases as [->| ->]; [destruct Hin|].
              destruct Hin as [<-|[]]. reflexivity.
           ++ destruct (Herrors e Hin) as (f & Hf & Hrest).
              exists f. split; [by right | assumption].
      * exists [], said. simpl. rewrite Hread, Hsaid, app_nil_r.
        split; [reflexivity|]. split; [reflexivity|]. split; [intros ? []|].
        intros e Hin. exists file. split; [by left|]. split; [assumption|].
        destruct Hcases as [->| ->]; [destruct Hin|].
        destruct Hin as [<-|[]]. reflexivity.
    + destruct (IH (made ++ [ReadAsText file])) as (read & said & Hr & Hs & Hfiles & Herrors).
      exists (file :: read), said. rewrite Hr, Hs, files_read_app, errors_reported_app.
      simpl. rewrite <- app_assoc, app_nil_r.
      split; [reflexivity|]. split; [reflexivity|]. split.
      * intros f [<-|Hin]; [split; [by left | assumption]|].
        destruct (Hfiles f Hin). split; [by right | assumption].
      * intros e Hin. destruct (Herrors e Hin) as (f & Hf & Hrest).
        exists f. split; [by right | assumption].
Qed.

Lemma drop_loop_complete maxFileSize onError jsonFiles : forall made,
  returns onError ->
  fst (drop_loop maxFileSize onError jsonFiles made) = Return tt
  /\ files_read (snd (drop_loop maxFileSize onError jsonFiles made))
     = files_read made
       ++ List.filter (fun file => (file_size file <=? maxFileSize)%N) jsonFiles.
Proof.
  intros made Hreturns. revert made.
  induction jsonFiles as [|file rest IH]; intros made; simpl.
  - rewrite app_nil_r. split; reflexivity.
  - destruct (N.ltb_spec maxFileSize (file_size file)) as [Hlarge|Hsmall].
    + assert (Hfst := report_returns onError (drop_too_large_error file maxFileSize)
                        made Hreturns).
      destruct (report_calls onError (drop_too_large_error file maxFileSize) made)
        as (Hread & _).
      destruct (report onError (drop_too_large_error file maxFileSize) made)
        as [[[]|t] made'] eqn:Hreport; simpl in Hfst, Hread; [|discriminate].
      destruct (IH made') as [Hdone Hfiles]. rewrite Hdone, Hfiles, Hread.
      replace (file_size file <=? maxFileSize)%N with false
        by (symmetry; apply N.leb_gt; assumption).
      split; reflexivity.
    + destruct (IH (made ++ [ReadAsText file])) as [Hdone Hfiles].
      rewrite Hdone, Hfiles, files_read_app. simpl.
      replace (file_size file <=? maxFileSize)%N with true
        by (symmetry; apply N.leb_le; assumption).
      rewrite <- app_assoc. split; reflexivity.
Qed.

Lemma filter_readable maxFileSize files :
  List.filter (fun file => (file_size file <=? maxFileSize)%N)
    (List.filter is_json_file files)
  = List.filter (readable maxFileSize) files.
Proof.
  induction files as [|file files IH]; [reflexivity|]. unfold readable. simpl.
  destruct (is_json_file file); simpl; [|exact IH].
  destruct (file_size file <=? maxFileSize)%N; [f_equal|]; exact IH.
Qed.

(** The handler itself, before any reader ends. *)
Lemma handleDrop_handler (maxFileSize : N)
    (onError : option (JsonAutoFillError -> Completion unit)) (files : list File) :
  handleDrop true maxFileSize onError files = (Return tt, [])
  /\ (forall file,
        In file (files_read (snd (handleDrop false maxFileSize onError files))) ->
        In file files /\ readable maxFileSize file = true)
  /\ (forall error,
        In error (errors_reported (snd (handleDrop false maxFileSize onError files))) ->
        (error = no_json_files_error /\ List.filter is_json_file files = [])
        \/ (exists file, In file files /\ is_json_file file = true
                         /\ (maxFileSize < file_size file)%N
                         /\ error = drop_too_large_error file maxFileSize))
  /\ (returns onError ->
        fst (handleDrop false maxFileSize onError files) = Return tt
        /\ files_read (snd (handleDrop false maxFileSize onError files))
           = List.filter (readable maxFileSize) files).
Proof.
  split; [reflexivity|]. unfold handleDrop. simpl.
  destruct (List.filter is_json_file files) as [|first rest] eqn:Hjson.
  - simpl. destruct (report_calls onError no_json_files_error [])
      as (Hread & said & Hsaid & Hcases & _). simpl in *.
    split; [rewrite Hread; intros ? []|]. split.
    + rewrite Hsaid. intros e Hin. left. split; [|reflexivity].
      destruct Hcases as [->| ->]; [destruct Hin|]. destruct Hin as [<-|[]]. reflexivity.
    + intros Hreturns. split; [apply report_returns, Hreturns|].
      rewrite Hread, <- filter_readable, Hjson. reflexivity.
  - change (length (first :: rest) =? 0)%nat with false. cbv iota.
    rewrite <- Hjson.
    destruct (drop_loop_safe maxFileSize onError (List.filter is_json_file files) [])
      as (read & said & Hr & Hs & Hfiles & Herrors). simpl in Hr, Hs.
    split; [|split].
    + rewrite Hr. intros f Hin. destruct (Hfiles f Hin) as [[Hf Hj]%filter_In Hsize].
      split; [assumption|]. unfold readable. rewrite Hj. apply N.leb_le, Hsize.
    + rewrite Hs. intros e Hin. right.
      destruct (Herrors e Hin) as (f & [Hf Hj]%filter_In & Hsize & ->).
      exists f. repeat split; assumption.
    + intros Hreturns.
      destruct (drop_loop_complete maxFileSize onError
                  (List.filter is_json_file files) [] Hreturns) as [Hdone Hall].
      split; [exact Hdone|]. rewrite Hall. simpl. apply filter_readable.
Qed.

Lemma texts_forwarded_app made made' :
  texts_forwarded (made ++ made') = texts_forwarded made ++ texts_forwarded made'.
Proof.
  induction made as [|[text|error|file] made IH]; simpl; try exact IH; [reflexivity|].
  rewrite IH. reflexivity.
Qed.

Lemma report_forwards onError error made :
  texts_forwarded (snd (report onError error made)) = texts_forwarded made.
Proof.
  unfold report. destruct onError; simpl; [|reflexivity].
  rewrite texts_forwarded_app. simpl. apply app_nil_r.
Qed.

Lemma drop_loop_forwards maxFileSize onError jsonFiles : forall made,
  texts_forwarded (snd (drop_loop maxFileSize onError jsonFiles made))
  = texts_forwarded made.
Proof.
  induction jsonFiles as [|file rest IH]; intros made; [reflexivity|]. simpl.
  destruct (maxFileSize <? file_size file)%N.
  - pose proof (report_forwards onError (drop_too_large_error file maxFileSize) made)
      as Hreport.
    destruct (report onError (drop_too_large_error file maxFileSize) made)
      as [[[]|t] made']; simpl in Hreport; [rewrite IH|]; exact Hreport.
  - rewrite IH, texts_forwarded_app. simpl. apply app_nil_r.
Qed.

Lemma handleDrop_forwards disabled maxFileSize onError files :
  texts_forwarded (snd (handleDrop disabled maxFileSize onError files)) = [].
Proof.
  unfold handleDrop. destruct disabled; [reflexivity|].
  destruct (length (List.filter is_json_file files) =? 0)%nat.
  - apply report_forwards.
  - apply drop_loop_forwards.
Qed.

(** What the readers of the files [read] call. *)
Lemma readers_calls onJsonLoaded onError outcome (read : list File) :
  (forall error,
      In error (errors_reported
                  (flat_map (fun file => snd (drop_reader_done onJsonLoaded onError file
                                                (outcome file))) read)) ->
      exists file, In file read /\ outcome file = Failed
                   /\ error = drop_read_error file)
  /\ (forall text,
        In text (texts_forwarded
                   (flat_map (fun file => snd (drop_reader_done onJsonLoaded onError file
                                                 (outcome file))) read)) ->
        exists file, In file read /\ outcome file = Loaded (Some text)).
Proof.
  induction read as [|file read [IHerrors IHtexts]]; [split; intros ? []|].
  simpl. split.
  - intros error. rewrite errors_reported_app, in_app_iff. intros [Hin|Hin].
    + exists file. split; [by left|]. unfold drop_reader_done, report in Hin.
      destruct (outcome file) as [[text|]|]; try destruct Hin as [].
      destruct onError; simpl in Hin; [|destruct Hin].
      destruct Hin as [<-|[]]. split; reflexivity.
    + destruct (IHerrors error Hin) as (f & Hf & Hrest). exists f. split; [by right | exact Hrest].
  - intros text. rewrite texts_forwarded_app, in_app_iff. intros [Hin|Hin].
    + exists file. split; [by left|]. unfold drop_reader_done, report in Hin.
      destruct (outcome file) as [[text'|]|]; simpl in Hin.
      * destruct Hin as [<-|[]]. reflexivity.
      * destruct Hin.
      * destruct onError; simpl in Hin; destruct Hin.
    + destruct (IHtexts text Hin) as (f & Hf & Hrest). exists f. split; [by right | exact Hrest].
Qed.

(** X15.  The drop handler reads exactly the JSON files within the limit.
    Whatever the callbacks do, every file it starts to read is one of the
    dropped files, has a name ending in [.json] or the type
    [application/json], and is not larger than the limit (a file of
    exactly the limit is read), and a disabled handler does nothing.
    Over the whole drop, the handler and the readers it starts, every
    error handed to [onError] is one of three: the one for no JSON file
    at all, the one for a JSON file over the limit, or the read error of
    a file that was read and whose reader failed; and every text handed
    to [onJsonLoaded] is what the reader of one of the files read
    loaded.  When [onError] returns, the files read are all the dropped
    files that pass the two tests, in the order they were dropped, and
    the handler returns; files that are not JSON are passed over in
    silence as soon as one JSON file is among them. *)
Theorem handleDrop_reads (maxFileSize : N)
    (onJsonLoaded : string -> Completion unit)
    (onError : option (JsonAutoFillError -> Completion unit))
    (outcome : File -> ReadOutcome) (files : list File) :
  drop_session true maxFileSize onJsonLoaded onError outcome files = []
  /\ (forall file,
        In file (files_read (snd (handleDrop false maxFileSize onError files))) ->
        In file files /\ readable maxFileSize file = true)
  /\ (forall error,
        In error (errors_reported
                    (drop_session false maxFileSize onJsonLoaded onError outcome files)) ->
        (error = no_json_files_error /\ List.filter is_json_file files = [])
        \/ (exists file, In file files /\ is_json_file file = true
                         /\ (maxFileSize < file_size file)%N
                         /\ error = drop_too_large_error file maxFileSize)
        \/ (exists file, In file files /\ readable maxFileSize file = true
                         /\ outcome file = Failed
                         /\ error = drop_read_error file))
  /\ (forall text,
        In text (texts_forwarded
                   (drop_session false maxFileSize onJsonLoaded onError outcome files)) ->
        exists file, In file files /\ readable maxFileSize file = true
                     /\ outcome file = Loaded (Some text))
  /\ (returns onError ->
        fst (handleDrop false maxFileSize onError files) = Return tt
        /\ files_read (snd (handleDrop false maxFileSize onError files))
           = List.filter (readable maxFileSize) files).
Proof.
  destruct (handleDrop_handler maxFileSize onError files)
    as (_ & Hread & Herrors & Hcomplete).
  destruct (readers_calls onJsonLoaded onError outcome
              (files_read (snd (handleDrop false maxFileSize onError files))))
    as [Hfailed Hloaded].
  split; [reflexivity|]. split; [exact Hread|]. split; [|split; [|exact Hcomplete]].
  - intros error. unfold drop_session. cbv zeta.
    rewrite errors_reported_app, in_app_iff. intros [Hin|Hin].
    + destruct (Herrors error Hin) as [?|?]; [by left | right; by left].
    + destruct (Hfailed error Hin) as (file & Hfile & Hout & ->).
      destruct (Hread file Hfile) as [? ?].
      right. right. exists file. repeat split; assumption.
  - intros text. unfold drop_session. cbv zeta.
    rewrite texts_forwarded_app, handleDrop_forwards. simpl. intros Hin.
    destruct (Hloaded text Hin) as (file & Hfile & Hout).
    destruct (Hread file Hfile) as [? ?]. exists file. repeat split; assumption.
Qed.

Lemma processFile_cases maxFileSize onError file made :
  processFile maxFileSize onError file made
  = if negb (is_json_file file)
    then report onError (invalid_type_error file) made
    else if readable maxFileSize file
         then (Return tt, made ++ [ReadAsText file])
         else report onError (upload_too_large_error file maxFileSize) made.
Proof.
  unfold processFile, readable, is_json_file. rewrite negb_orb.
  destruct (negb (endsWith (file_name file) ".json")
            && negb (String.eqb (file_type file) "application/json")) eqn:Htest;
    [reflexivity|].
  rewrite <- negb_orb in Htest. apply negb_false_iff in Htest. rewrite Htest. simpl.
  rewrite N.leb_antisym. destruct (maxFileSize <? file_size file)%N; reflexivity.
Qed.

Lemma upload_loop_reads maxFileSize onError fileList : forall made,
  returns onError ->
  fst (upload_loop maxFileSize onError fileList made) = Return tt
  /\ files_read (snd (upload_loop maxFileSize onError fileList made))
     = files_read made ++ List.filter (readable maxFileSize) fileList
  /\ (onError <> None ->
      map code (errors_reported (snd (upload_loop maxFileSize onError fileList made)))
      = map code (errors_reported made)
        ++ map (fun file => if is_json_file file then FILE_TOO_LARGE
                            else INVALID_FILE_TYPE)
             (List.filter (fun file => negb (readable maxFileSize file)) fileList)).
Proof.
  intros made Hreturns. revert made.
  assert (Hrejected : forall file rest made error,
            readable maxFileSize file = false ->
            code error = (if is_json_file file then FILE_TOO_LARGE
                          else INVALID_FILE_TYPE) ->
            (forall made,
                fst (upload_loop maxFileSize onError rest made) = Return tt
                /\ files_read (snd (upload_loop maxFileSize onError rest made))
                   = files_read made ++ List.filter (readable maxFileSize) rest
                /\ (onError <> None ->
                    map code (errors_reported
                                (snd (upload_loop maxFileSize onError rest made)))
                    = map code (errors_reported made)
                      ++ map (fun file => if is_json_file file then FILE_TOO_LARGE
                                          else INVALID_FILE_TYPE)
                           (List.filter
                              (fun file => negb (readable maxFileSize file)) rest))) ->
            let run :=
              match report onError error made with
              | (Return _, made) => upload_loop maxFileSize onError rest made
              | (Throw t, made) => (Throw t, made)
              end in
            fst run = Return tt
            /\ files_read (snd run)
               = files_read made ++ List.filter (readable maxFileSize) (file :: rest)
            /\ (onError <> None ->
                map code (errors_reported (snd run))
                = map code (errors_reported made)
                  ++ map (fun file => if is_json_file file then FILE_TOO_LARGE
                                      else INVALID_FILE_TYPE)
                       (List.filter
                          (fun file => negb (readable maxFileSize file))
                          (file :: rest)))).
  { intros file rest made error Hreadable Hcode IH. simpl List.filter.
    rewrite Hreadable. simpl negb. cbv iota.
    assert (Hfst := report_returns onError error made Hreturns).
    destruct (report_calls onError error made) as (Hread & said & Hsaid & _ & Hsome).
    destruct (report onError error made) as [[[]|t] made'] eqn:Hreport;
      simpl in Hfst, Hread, Hsaid; [|discriminate].
    destruct (IH made') as (Hdone & Hfiles & Hcodes). cbv zeta.
    rewrite Hdone, Hfiles, Hread.
    split; [reflexivity|]. split; [reflexivity|].
    intros Hconfigured.
    rewrite (Hcodes Hconfigured), Hsaid, (Hsome Hconfigured), map_app.
    simpl. rewrite Hcode, <- app_assoc. reflexivity. }
  induction fileList as [|file rest IH]; intros made.
  - simpl. rewrite !app_nil_r. split; [reflexivity|]. split; reflexivity.
  - cbn [upload_loop]. rewrite processFile_cases.
    destruct (is_json_file file) eqn:Hjson; simpl negb; cbv iota.
    + destruct (readable maxFileSize file) eqn:Hreadable.
      * destruct (IH (made ++ [ReadAsText file])) as (Hdone & Hfiles & Hcodes).
        simpl List.filter. rewrite Hreadable. simpl negb. cbv iota.
        rewrite Hdone, Hfiles, files_read_app. simpl. rewrite <- app_assoc.
        split; [reflexivity|]. split; [reflexivity|].
        intros Hsome. rewrite (Hcodes Hsome), errors_reported_app. simpl.
        rewrite app_nil_r. reflexivity.
      * apply (Hrejected file rest made _ Hreadable); [|exact IH].
        rewrite Hjson. reflexivity.
    + assert (Hreadable : readable maxFileSize file = false)
        by (unfold readable; rewrite Hjson; reflexivity).
      apply (Hrejected file rest made _ Hreadable); [|exact IH].
      rewrite Hjson. reflexivity.
Qed.

(** X16.  The uploader and the drop handler accept the same files: when
    [onError] returns, the change handler of the uploader starts to read
    exactly the files the drop handler would read from the same list, in
    the same order: those that are JSON by name or by type and not larger
    than the limit.  They differ in what they report: the uploader
    reports every other file, [INVALID_FILE_TYPE] for one that is not
    JSON (whatever its size) and [FILE_TOO_LARGE] for a JSON file over
    the limit. *)
Theorem uploader_and_drop_accept_alike (maxFileSize : N)
    (onError : option (JsonAutoFillError -> Completion unit)) (files : list File) :
  returns onError ->
  fst (handleChange maxFileSize onError (Some files)) = Return tt
  /\ files_read (snd (handleChange maxFileSize onError (Some files)))
     = List.filter (readable maxFileSize) files
  /\ files_read (snd (handleChange maxFileSize onError (Some files)))
     = files_read (snd (handleDrop false maxFileSize onError files))
  /\ (onError <> None ->
      map code (errors_reported (snd (handleChange maxFileSize onError (Some files))))
      = map (fun file => if is_json_file file then FILE_TOO_LARGE
                         else INVALID_FILE_TYPE)
          (List.filter (fun file => negb (readable maxFileSize file)) files)).
Proof.
  intros Hreturns. unfold handleChange.
  destruct (upload_loop_reads maxFileSize onError files [] Hreturns)
    as (Hdone & Hfiles & Hcodes). simpl in Hfiles, Hcodes.
  split; [exact Hdone|]. split; [exact Hfiles|]. split; [|exact Hcodes].
  rewrite Hfiles. unfold handleDrop. simpl.
  destruct (List.filter is_json_file files) as [|first rest] eqn:Hjson.
  - simpl. destruct (report_calls onError no_json_files_error []) as (Hread & _).
    rewrite Hread, <- filter_readable, Hjson. reflexivity.
  - change (length (first :: rest) =? 0)%nat with false. cbv iota. rewrite <- Hjson.
    destruct (drop_loop_complete maxFileSize onError
                (List.filter is_json_file files) [] Hreturns) as [_ Hall].
    rewrite Hall. simpl. symmetry. apply filter_readable.
Qed.

Lemma uploader_and_drop_accept_alike_witness :
  files_read (snd (handleChange DEFAULT_MAX_FILE_SIZE None (Some sample_files)))
  = [mkFile "form.json" "application/json" 2048]
  /\ files_read (snd (handleDrop false DEFAULT_MAX_FILE_SIZE None sample_files))
     = [mkFile "form.json" "application/json" 2048].
Proof.
  destruct (uploader_and_drop_accept_alike DEFAULT_MAX_FILE_SIZE None sample_files I)
    as (_ & Hupload & Hsame & _).
  split; [exact Hupload | rewrite <- Hsame; exact Hupload].
Defined.

Lemma handlePaste_cases trim JSON_parse enabled onJsonPasted onError clipboard :
  handlePaste trim JSON_parse enabled onJsonPasted onError clipboard
  = match (if enabled then clipboard else None) with
    | None => (Return tt, [])
    | Some raw =>
        if String.eqb (trim raw) ""
           || negb (startsWith (trim raw) "{" || startsWith (trim raw) "[")
        then (Return tt, [])
        else match JSON_parse (trim raw) with
             | None => report onError paste_error []
             | Some _ =>
                 match onJsonPasted (trim raw) with
                 | Return _ => (Return tt, [Forward (trim raw)])
                 | Throw _ => report onError paste_error [Forward (trim raw)]
                 end
             end
    end.
Proof.
  unfold handlePaste. destruct enabled; [|reflexivity]. simpl negb. cbv iota.
  destruct clipboard as [raw|]; [|reflexivity]. cbv zeta.
  destruct (String.eqb (trim raw) ""); [reflexivity|].
  destruct (startsWith (trim raw) "{"), (startsWith (trim raw) "[");
    simpl; try reflexivity;
    destruct (JSON_parse (trim raw)); try reflexivity;
    destruct (onJsonPasted (trim raw)); reflexivity.
Qed.

Lemma parseJson_of_parsed JSON_parse text parsed e :
  JSON_parse text = Some parsed -> parseJson JSON_parse text = inl e ->
  e = top_level_error \/ exists key, e = dangerous_key_error key.
Proof.
  intros Hparse. unfold parseJson. rewrite Hparse.
  destruct (negb _ || _ || _); [intros [= <-]; by left|].
  destruct (assertNoPrototypePollution parsed) as [key|];
    [intros [= <-]; right; by exists key | discriminate].
Qed.

(** X17.  The paste handler forwards only text that parses.  Whatever
    the clipboard holds and whatever the callbacks do, a text handed to
    [onJsonPasted] is the clipboard text with the white space around it
    trimmed off, the handler is enabled, the text starts with an opening
    brace or bracket, and the platform parser accepts it; so the parser of
    the library, run on that text, never answers with its syntax error: it
    returns the object, or refuses a value that is not an object at the
    top level, or refuses a reserved key.  Every error handed to
    [onError] is the one fixed [PARSE_ERROR] of the handler, and it is
    reported when the trimmed text does not parse and also when
    [onJsonPasted] itself throws.  The handler makes at most two calls. *)
Theorem handlePaste_forwards_parseable (trim : string -> string)
    (JSON_parse : string -> option JsValue)
    (enabled : bool) (onJsonPasted : string -> Completion unit)
    (onError : option (JsonAutoFillError -> Completion unit))
    (clipboard : option string) :
  (forall t,
      In (Forward t)
         (snd (handlePaste trim JSON_parse enabled onJsonPasted onError clipboard)) ->
      enabled = true
      /\ (exists raw, clipboard = Some raw /\ t = trim raw)
      /\ (startsWith t "{" = true \/ startsWith t "[" = true)
      /\ (exists parsed, JSON_parse t = Some parsed)
      /\ (forall e, parseJson JSON_parse t = inl e ->
            e = top_level_error \/ exists key, e = dangerous_key_error key))
  /\ (forall e,
        In (Report e)
           (snd (handlePaste trim JSON_parse enabled onJsonPasted onError clipboard)) ->
        e = paste_error
        /\ exists raw, clipboard = Some raw
                       /\ (JSON_parse (trim raw) = None
                           \/ exists thrown, onJsonPasted (trim raw) = Throw thrown))
  /\ (forall raw thrown,
        enabled = true -> clipboard = Some raw -> trim raw <> "" ->
        startsWith (trim raw) "{" = true \/ startsWith (trim raw) "[" = true ->
        JSON_parse (trim raw) = None \/ onJsonPasted (trim raw) = Throw thrown ->
        errors_reported
          (snd (handlePaste trim JSON_parse enabled onJsonPasted onError clipboard))
        = match onError with Some _ => [paste_error] | None => [] end)
  /\ length (snd (handlePaste trim JSON_parse enabled onJsonPasted onError clipboard)) <= 2.
Proof.
  rewrite handlePaste_cases.
  destruct enabled;
    [|simpl; split; [intros ? []|]; split; [intros ? []|];
      split; [discriminate | simpl; lia]].
  destruct clipboard as [raw|];
    [|simpl; split; [intros ? []|]; split; [intros ? []|];
      split; [discriminate | simpl; lia]].
  destruct (String.eqb_spec (trim raw) "") as [Hempty|Hne];
    [simpl; split; [intros ? []|]; split; [intros ? []|];
     split; [intros ? ? _ [= <-] Hbad; contradiction | simpl; lia]|].
  destruct (startsWith (trim raw) "{" || startsWith (trim raw) "[") eqn:Hlooks;
    [|simpl; split; [intros ? []|]; split; [intros ? []|];
      split; [|simpl; lia];
      intros ? ? _ [= <-] _ [Hb|Hb];
      apply orb_false_iff in Hlooks as [? ?]; congruence].
  apply orb_true_iff in Hlooks. simpl.
  assert (Hforward : forall t parsed,
            JSON_parse (trim raw) = Some parsed -> Forward (trim raw) = Forward t ->
            true = true
            /\ (exists raw0, Some raw = Some raw0 /\ t = trim raw0)
            /\ (startsWith t "{" = true \/ startsWith t "[" = true)
            /\ (exists parsed, JSON_parse t = Some parsed)
            /\ (forall e, parseJson JSON_parse t = inl e ->
                  e = top_level_error \/ exists key, e = dangerous_key_error key)).
  { intros t parsed Hparse [= <-]. split; [reflexivity|].
    split; [by exists raw|]. split; [exact Hlooks|]. split; [by exists parsed|].
    intros e. apply (parseJson_of_parsed _ _ parsed), Hparse. }
  destruct (JSON_parse (trim raw)) as [parsed|] eqn:Hparse.
  - destruct (onJsonPasted (trim raw)) as [[]|thrown] eqn:Hpasted.
    + split; [|split; [intros e [Hin|[]]; discriminate|split; [|simpl; lia]]].
      * intros t [Hin|[]]. exact (Hforward t parsed eq_refl Hin).
      * intros raw0 thrown _ [= <-] _ _ [Hbad|Hbad]; congruence.
    + unfold report. split; [|split; [|split]].
      * intros t Hin. apply (Hforward t parsed eq_refl).
        destruct onError; simpl in Hin;
          [destruct Hin as [?|[?|[]]]; [assumption | discriminate]
          |destruct Hin as [?|[]]; assumption].
      * intros e Hin. assert (He : e = paste_error).
        { destruct onError; simpl in Hin;
            [destruct Hin as [?|[[= <-]|[]]]; [discriminate | reflexivity]
            |destruct Hin as [?|[]]; discriminate]. }
        split; [exact He|]. exists raw. split; [reflexivity|]. right. by exists thrown.
      * intros raw0 thrown' _ [= <-] _ _ _. destruct onError; reflexivity.
      * destruct onError; simpl; lia.
  - unfold report. split; [|split; [|split]].
    + intros t Hin. destruct onError; simpl in Hin;
        [destruct Hin as [?|[]]; discriminate | destruct Hin].
    + intros e Hin. assert (He : e = paste_error).
      { destruct onError; simpl in Hin;
          [destruct Hin as [[= <-]|[]]; reflexivity | destruct Hin]. }
      split; [exact He|]. exists raw. split; [reflexivity|]. by left.
    + intros raw0 thrown _ [= <-] _ _ _. destruct onError; reflexivity.
    + destruct onError; simpl; lia.
Qed.

(** X18.  For a size below 2^53 bytes, where every natural number is a
    number of the language, [formatBytes] prints a size of a kibibyte or
    more rounded to the nearest tenth of its unit, the upper one on a
    tie, and never below 1.0: the figure in the KB branch lies between
    1.0 and 1024.0, so the 51 sizes just below a mebibyte print as
    [1024.0 KB]; and every size from the default limit up to 1101004
    bytes prints as [1.0 MB], so that for a file a few bytes over the
    default limit the error of the drop handler names the same figure for
    the file and for the maximum. *)
Theorem formatBytes_rounds (bytes : N) :
  ((1024 <= bytes < 1048576)%N ->
     exists tenths,
       formatBytes bytes
       = (pretty.pretty (tenths / 10)%N +:+ "." +:+ pretty.pretty (tenths mod 10)%N)
         +:+ " KB"
       /\ (10 * bytes < 1024 * tenths + 512 <= 10 * bytes + 1024)%N
       /\ (10 <= tenths <= 10240)%N)
  /\ ((1048576 <= bytes < 9007199254740992)%N ->
        exists tenths,
          formatBytes bytes
          = (pretty.pretty (tenths / 10)%N +:+ "." +:+ pretty.pretty (tenths mod 10)%N)
            +:+ " MB"
          /\ (10 * bytes < 1048576 * tenths + 524288 <= 10 * bytes + 1048576)%N
          /\ (10 <= tenths)%N)
  /\ ((1048525 <= bytes < 1048576)%N -> formatBytes bytes = "1024.0 KB")
  /\ ((1048576 <= bytes <= 1101004)%N ->
        formatBytes bytes = "1.0 MB"
        /\ forall name type,
             message (drop_too_large_error (mkFile name type bytes)
                        DEFAULT_MAX_FILE_SIZE)
             = "File " +:+ quote +:+ name +:+ quote +:+ " is too large ("
               +:+ "1.0 MB" +:+ "). Maximum: " +:+ "1.0 MB" +:+ ".").
Proof.
  assert (Hkb : (1024 <= bytes < 1048576)%N ->
                formatBytes bytes = toFixed1 bytes 1024 +:+ " KB").
  { intros [Hlow Hhigh]. unfold formatBytes.
    replace (bytes <? 1024)%N with false by (symmetry; apply N.ltb_ge; assumption).
    replace (bytes <? 1048576)%N with true by (symmetry; apply N.ltb_lt; assumption).
    reflexivity. }
  assert (Hmb : (1048576 <= bytes)%N ->
                formatBytes bytes = toFixed1 bytes 1048576 +:+ " MB").
  { intros Hlow. unfold formatBytes.
    replace (bytes <? 1024)%N with false by (symmetry; apply N.ltb_ge; lia).
    replace (bytes <? 1048576)%N with false by (symmetry; apply N.ltb_ge; assumption).
    reflexivity. }
  split; [|split; [|split]].
  - intros Hrange. exists ((10 * bytes * 2 + 1024) / (2 * 1024))%N.
    split; [rewrite (Hkb Hrange); unfold toFixed1; reflexivity|].
    assert (Hdiv := N.div_mod (10 * bytes * 2 + 1024) (2 * 1024) ltac:(lia)).
    assert (Hmod := N.mod_lt (10 * bytes * 2 + 1024) (2 * 1024) ltac:(lia)).
    revert Hdiv Hmod.
    generalize ((10 * bytes * 2 + 1024) / (2 * 1024))%N
               ((10 * bytes * 2 + 1024) mod (2 * 1024))%N.
    intros q r Hdiv Hmod. lia.
  - intros [Hrange _]. exists ((10 * bytes * 2 + 1048576) / (2 * 1048576))%N.
    split; [rewrite (Hmb Hrange); unfold toFixed1; reflexivity|].
    assert (Hdiv := N.div_mod (10 * bytes * 2 + 1048576) (2 * 1048576) ltac:(lia)).
    assert (Hmod := N.mod_lt (10 * bytes * 2 + 1048576) (2 * 1048576) ltac:(lia)).
    revert Hdiv Hmod.
    generalize ((10 * bytes * 2 + 1048576) / (2 * 1048576))%N
               ((10 * bytes * 2 + 1048576) mod (2 * 1048576))%N.
    intros q r Hdiv Hmod. lia.
  - intros Hrange. rewrite Hkb by lia. unfold toFixed1.
    replace ((10 * bytes * 2 + 1024) / (2 * 1024))%N with 10240%N;
      [vm_compute; reflexivity|].
    apply (N.div_unique _ _ _ (10 * bytes * 2 + 1024 - 2 * 1024 * 10240)); lia.
  - intros Hrange.
    assert (Hfigure : formatBytes bytes = "1.0 MB").
    { rewrite Hmb by lia. unfold toFixed1.
      replace ((10 * bytes * 2 + 1048576) / (2 * 1048576))%N with 10%N;
        [vm_compute; reflexivity|].
      apply (N.div_unique _ _ _ (10 * bytes * 2 + 1048576 - 2 * 1048576 * 10)); lia. }
    split; [exact Hfigure|]. intros name type.
    unfold drop_too_large_error. cbn [message file_name file_size].
    rewrite Hfigure.
    replace (formatBytes DEFAULT_MAX_FILE_SIZE) with "1.0 MB"
      by (vm_compute; reflexivity).
    reflexivity.
Qed.

(** ** Sharing between a merged object and its inputs *)

Module StoreSharing.

Import Store.

Lemma props_at_frame n (h h' : Heap) l :
  frame n h h' -> l < n -> props_at h' l = props_at h l.
Proof.
  intros [_ Hsame] Hl. unfold props_at. rewrite (Hsame l Hl). reflexivity.
Qed.

Lemma obj_lookup_spread_empty {V : Type} key (props : list (string * V)) :
  obj_lookup key (spread props []) = obj_lookup key props.
Proof.
  rewrite obj_lookup_spread. unfold has_key.
  destruct (obj_lookup key props); reflexivity.
Qed.

Lemma obj_lookup_own_key {V : Type} key (props : list (string * V)) :
  In key (Object_keys props) -> exists v, obj_lookup key props = Some v.
Proof.
  intros Hin. destruct (obj_lookup key props) as [v|] eqn:Hlook; [by exists v|].
  apply obj_lookup_None in Hlook. contradiction.
Qed.

Lemma built_from_put origin result key v (h h' : Heap) :
  built_from origin result h -> origin key v ->
  put result key v h = Some (tt, h') ->
  built_from origin result h'.
Proof.
  intros (props & Hcell & Hprops) Hv [= <-]. rewrite Hcell.
  exists (obj_set key v props). split.
  - apply list_lookup_insert_eq. apply lookup_lt_is_Some_1. by exists (CObj props).
  - intros k w. rewrite obj_lookup_set.
    destruct (String.eqb_spec key k) as [<-|Hne]; [intros [= <-]; exact Hv | apply Hprops].
Qed.

Lemma deepMerge_shares fuel target source (h : Heap) l h' :
  target < length h -> source < length h ->
  Store.deepMerge fuel target source h = Some (l, h') ->
  length h <= l
  /\ forall key v,
       obj_lookup key (props_at h' l) = Some v ->
       obj_lookup key (props_at h source) = Some v
       \/ obj_lookup key (props_at h target) = Some v
       \/ exists m, v = VRef m /\ length h < m.
Proof.
  intros Htarget Hsource. destruct fuel as [|fuel]; [discriminate|].
  simpl. unfold mbind, M_bind, own_props, alloc, keys_of, mret, M_ret. simpl.
  set (h1 := h ++ [CObj (spread (props_at h target) [])]).
  set (origin := fun key v =>
         obj_lookup key (props_at h source) = Some v
         \/ obj_lookup key (props_at h target) = Some v
         \/ exists m, v = VRef m /\ length h < m).
  destruct (for_each _ _ h1) as [[[] h2]|] eqn:Hloop; [|discriminate].
  intros [= <- <-]. split; [lia|].
  assert (Hfirst : frame (length h) h h1) by (apply StoreFacts.frame_alloc; lia).
  assert (Hkeys : props_at h1 source = props_at h source)
    by exact (props_at_frame _ _ _ _ Hfirst Hsource).
  rewrite Hkeys in Hloop.
  assert (Hinv : frame (length h) h h2 /\ length h < length h2
                 /\ built_from origin (length h) h2).
  { revert Hloop.
    apply (StoreFacts.for_each_partial
             (fun hc => frame (length h) h hc /\ length h < length hc
                        /\ built_from origin (length h) hc)).
    - intros key hc hn Hkey (Hframe & Hlen & Hbuilt).
      unfold deepMerge_body, get, own_props, Store.isPlainObject, mbind, M_bind,
        mret, M_ret. simpl.
      rewrite (props_at_frame _ _ _ source Hframe Hsource).
      destruct (obj_lookup_own_key key _ Hkey) as [sv Hsv]. rewrite Hsv.
      destruct (plain_in hc _ && plain_in hc sv).
      + destruct (Store.deepMerge fuel _ _ hc) as [[merged hm]|] eqn:Hrec; [|discriminate].
        intros Hput.
        apply StoreFacts.deepMerge_frame in Hrec as (Hnew & _ & Hrec).
        assert (Hbuilt' : built_from origin (length h) hm).
        { destruct Hbuilt as (props & Hcell & Hprops). exists props.
          split; [|exact Hprops]. destruct Hrec as [_ Hsame].
          rewrite (Hsame (length h) Hlen). exact Hcell. }
        pose proof (StoreFacts.frame_put (length h) _ _ _ _ _ (Nat.le_refl _) Hput) as Hp.
        assert (Hstep : frame (length h) hc hn).
        { apply (StoreFacts.frame_trans _ _ hm); [|exact Hp].
          apply (StoreFacts.frame_weaken (length hc)); [lia | exact Hrec]. }
        split; [exact (StoreFacts.frame_trans _ _ _ _ Hframe Hstep)|].
        split; [destruct Hstep as [? _]; lia|].
        apply (built_from_put origin _ key (VRef merged) hm hn Hbuilt'); [|exact Hput].
        right. right. exists merged. split; [reflexivity | lia].
      + intros Hput.
        pose proof (StoreFacts.frame_put (length h) _ _ _ _ _ (Nat.le_refl _) Hput) as Hstep.
        split; [exact (StoreFacts.frame_trans _ _ _ _ Hframe Hstep)|].
        split; [destruct Hstep as [? _]; lia|].
        apply (built_from_put origin _ key sv hc hn Hbuilt); [|exact Hput].
        left. exact Hsv.
    - split; [exact Hfirst|]. split; [unfold h1; rewrite length_app; simpl; lia|].
      exists (spread (props_at h target) []). split.
      + unfold h1. rewrite lookup_app_r by lia. rewrite Nat.sub_diag. reflexivity.
      + intros key v. rewrite obj_lookup_spread_empty. intros Hv. right. by left. }
  destruct Hinv as (_ & _ & props & Hcell & Hprops).
  intros key v. unfold props_at. rewrite Hcell. apply Hprops.
Qed.

Lemma strict_shares current incoming (h : Heap) l h' :
  current < length h -> incoming < length h ->
  Store.mergeData 0 current incoming Strict h = Some (l, h') ->
  length h <= l
  /\ forall key v,
       obj_lookup key (props_at h' l) = Some v ->
       obj_lookup key (props_at h incoming) = Some v
       \/ obj_lookup key (props_at h current) = Some v.
Proof.
  intros Hcurrent Hincoming. rewrite StoreFacts.mergeData_strict_unfold.
  unfold keys_of, own_props, alloc, mbind, M_bind, mret, M_ret. simpl.
  set (h1 := h ++ [CObj []]).
  set (origin := fun key v => obj_lookup key (props_at h incoming) = Some v).
  destruct (for_each _ _ h1) as [[[] h2]|] eqn:Hloop; [|discriminate].
  intros [= <- <-].
  assert (Hfirst : frame (length h) h h1) by (apply StoreFacts.frame_alloc; lia).
  assert (Hinv : frame (length h) h h2 /\ length h < length h2
                 /\ built_from origin (length h) h2).
  { revert Hloop.
    apply (StoreFacts.for_each_partial
             (fun hc => frame (length h) h hc /\ length h < length hc
                        /\ built_from origin (length h) hc)).
    - intros key hc hn _ (Hframe & Hlen & Hbuilt) Hbody.
      pose proof (StoreFacts.strict_body_frame (length h) _ _ _ _ _
                    (Nat.le_refl _) Hbody) as Hstep.
      split; [exact (StoreFacts.frame_trans _ _ _ _ Hframe Hstep)|].
      split; [destruct Hstep as [? _]; lia|].
      revert Hbody.
      unfold strict_body, has, get, own_props, mbind, M_bind, mret, M_ret. simpl.
      rewrite (props_at_frame _ _ _ incoming Hframe Hincoming).
      unfold has_key.
      destruct (obj_lookup key (props_at h incoming)) as [v|] eqn:Hv.
      + intros Hput.
        rewrite ?(props_at_frame _ _ _ incoming Hframe Hincoming), ?Hv in Hput.
        apply (built_from_put origin _ key v hc hn Hbuilt); [exact Hv|exact Hput].
      + intros [= <-]. exact Hbuilt.
    - split; [exact Hfirst|]. split; [unfold h1; rewrite length_app; simpl; lia|].
      exists []. split.
      + unfold h1. rewrite lookup_app_r by lia. rewrite Nat.sub_diag. reflexivity.
      + intros key v. discriminate. }
  destruct Hinv as (Hframe & Hlen & props & Hcell & Hprops).
  split; [lia|]. intros key v. unfold props_at at 1.
  rewrite lookup_app_r by lia. rewrite Nat.sub_diag. simpl.
  rewrite obj_lookup_spread, obj_lookup_spread_empty.
  rewrite (props_at_frame _ _ _ current Hframe Hcurrent).
  unfold props_at at 1 2. rewrite Hcell.
  destruct (has_key key props) eqn:Hhas; [|intros Hv; by right].
  intros Hv. left. apply Hprops, Hv.
Qed.

(** Where the values of the merged object come from: whenever the merge
    returns, under a strategy other than [replace], the returned object
    is new and each of its properties holds the very value that the
    incoming or the current object holds under that key, or, under the
    deep strategy, a reference to an object created by the merge. *)
Lemma mergeData_shares fuel current incoming strategy (h : Heap) l h' :
  current < length h -> incoming < length h -> strategy <> Replace ->
  Store.mergeData fuel current incoming strategy h = Some (l, h') ->
  length h <= l
  /\ forall key v,
       obj_lookup key (props_at h' l) = Some v ->
       obj_lookup key (props_at h incoming) = Some v
       \/ obj_lookup key (props_at h current) = Some v
       \/ (strategy = Deep /\ exists m, v = VRef m /\ length h < m).
Proof.
  intros Hcurrent Hincoming Hstrategy Hrun.
  destruct strategy; [| contradiction | |].
  - revert Hrun. unfold Store.mergeData, own_props, alloc, mbind, M_bind. simpl.
    intros [= <- <-]. split; [lia|]. intros key v. unfold props_at at 1.
    rewrite lookup_app_r by lia. rewrite Nat.sub_diag. simpl.
    rewrite obj_lookup_spread, obj_lookup_spread_empty.
    destruct (has_key key (props_at h incoming)); intros Hv; [by left | right; by left].
  - destruct (strict_shares current incoming h l h' Hcurrent Hincoming Hrun)
      as [Hnew Hw].
    split; [exact Hnew|]. intros key v Hv.
    destruct (Hw key v Hv) as [?|?]; [by left | right; by left].
  - destruct (deepMerge_shares fuel current incoming h l h' Hcurrent Hincoming Hrun)
      as [Hnew Hw].
    split; [exact Hnew|]. intros key v Hv.
    destruct (Hw key v Hv) as [?|[?|?]]; [by left | right; by left | right; right].
    split; [reflexivity | assumption].
Qed.

End StoreSharing.

(** ** With the prototype chain *)

(** *** Assignments and own properties *)

Lemma assign_other {V : Type} (effect : V -> Chain.SetterEffect) key (v : V) o :
  key <> "__proto__" -> Chain.assign effect key v o = Some (obj_set key v o).
Proof.
  intros Hkey. unfold Chain.assign.
  destruct (String.eqb_spec key "__proto__"); [contradiction | reflexivity].
Qed.

Lemma assign_own {V : Type} (effect : V -> Chain.SetterEffect) key (v : V) o :
  has_key key o = true -> Chain.assign effect key v o = Some (obj_set key v o).
Proof.
  intros Hown. unfold Chain.assign. rewrite Hown, andb_false_r. reflexivity.
Qed.

(** An assignment never creates the key [__proto__]. *)
Lemma assign_keeps_proto_out {V : Type} (effect : V -> Chain.SetterEffect)
    key (v : V) o o' :
  has_key "__proto__" o = false -> Chain.assign effect key v o = Some o' ->
  has_key "__proto__" o' = false.
Proof.
  intros Hout. unfold Chain.assign.
  destruct (String.eqb_spec key "__proto__") as [->|Hne]; simpl.
  - rewrite Hout. simpl. destruct (effect v); intros [= <-]; exact Hout.
  - intros [= <-]. unfold has_key in *. rewrite obj_lookup_set.
    destruct (String.eqb_spec key "__proto__"); [contradiction | exact Hout].
Qed.

Lemma inherited_proto : Chain.inherited "__proto__" = true.
Proof. reflexivity. Qed.

Lemma not_inherited_not_proto key : Chain.inherited key = false -> key <> "__proto__".
Proof. intros Hkey ->. discriminate. Qed.

Lemma get_not_inherited o key :
  Chain.inherited key = false ->
  Chain.get o key = match obj_lookup key o with
                    | Some v => Chain.Own v
                    | None => Chain.Nothing
                    end.
Proof.
  unfold Chain.inherited, Chain.get, has_key.
  intros [Hproto Hfun]%orb_false_iff. rewrite Hproto.
  destruct (obj_lookup key Chain.Object_prototype_functions); [discriminate|].
  reflexivity.
Qed.

Lemma Object_keys_data o : Object_keys (Chain.data o) = Object_keys o.
Proof.
  unfold Object_keys, Chain.data. rewrite map_map. apply map_ext. intros [k v]. reflexivity.
Qed.

Lemma obj_lookup_data key o :
  obj_lookup key (Chain.data o) = Chain.Data <$> obj_lookup key o.
Proof.
  induction o as [|[k v] o IH]; [reflexivity|]. simpl.
  destruct (String.eqb k key); [reflexivity | exact IH].
Qed.

Lemma data_obj_set key v o :
  obj_set key (Chain.Data v) (Chain.data o) = Chain.data (obj_set key v o).
Proof.
  induction o as [|[k w] o IH]; [reflexivity|]. simpl.
  destruct (String.eqb k key); [reflexivity|]. simpl. rewrite IH. reflexivity.
Qed.

Lemma data_spread src dst :
  spread (Chain.data src) (Chain.data dst) = Chain.data (spread src dst).
Proof.
  unfold spread. rewrite Object_keys_data.
  generalize (Object_keys src). intros keys. revert dst.
  induction keys as [|key keys IH]; intros dst; [reflexivity|]. simpl.
  rewrite obj_lookup_data.
  destruct (obj_lookup key src) as [v|]; simpl; [rewrite data_obj_set|]; apply IH.
Qed.

(** *** The strict strategy *)

Lemma strict_loop_agrees incoming keys : forall acc,
  Forall (fun key => Chain.inherited key = false) keys ->
  fold_left (Chain.strict_step incoming) keys (Some (Chain.data acc))
  = Some (Chain.data
            (fold_left
               (fun acc key =>
                  if has_key key incoming then obj_set key (obj_get incoming key) acc
                  else acc)
               keys acc)).
Proof.
  induction keys as [|key keys IH]; intros acc Hkeys; [reflexivity|].
  apply Forall_cons in Hkeys as [Hkey Hkeys]. simpl.
  rewrite <- (IH _ Hkeys). f_equal.
  unfold Chain.has. rewrite Hkey, orb_false_r.
  destruct (has_key key incoming) eqn:Hown; [|reflexivity].
  rewrite get_not_inherited by exact Hkey.
  unfold obj_get, has_key in *.
  destruct (obj_lookup key incoming) as [v|]; [|discriminate]. simpl.
  rewrite assign_other by (apply not_inherited_not_proto, Hkey).
  rewrite data_obj_set. reflexivity.
Qed.

(** On a [current] none of whose keys is a name of [Object.prototype],
    the strict strategy computes what its own-property reading says. *)
Lemma strict_agrees current incoming :
  Chain.plain_keys current ->
  Chain.mergeData current incoming Strict
  = Some (Chain.data (mergeData current incoming Strict)).
Proof.
  intros Hkeys. unfold Chain.mergeData, mergeData.
  change (@Some (list (string * Chain.Stored)) [])
    with (Some (Chain.data [])).
  rewrite (strict_loop_agrees incoming (Object_keys current) [] Hkeys). simpl.
  change (@nil (string * Chain.Stored)) with (Chain.data []).
  rewrite !data_spread. reflexivity.
Qed.

(** C2.  The strict strategy tests [key in incoming], which also finds
    what [incoming] inherits.  For [current = {constructor: "x", name: ""}]
    and [incoming = {name: "Bob"}], [incoming] has no key [constructor], so
    the claim keeps the value of [current]; the code finds the inherited
    function [Object] and stores it.  On a key that is not a name of
    [Object.prototype] the code does what the claim says: the scenario of
    the claim evaluates to [{name: "Bob", email: ""}]. *)
Theorem strict_reads_inherited_names :
  Chain.mergeData [("constructor", JStr "x"); ("name", JStr "")]
    [("name", JStr "Bob")] Strict
  = Some [("constructor", Chain.BuiltinFunction "Object");
          ("name", Chain.Data (JStr "Bob"))]
  /\ has_key "constructor" [("name", JStr "Bob")] = false
  /\ Chain.mergeData [("name", JStr ""); ("email", JStr "")]
       [("name", JStr "Bob"); ("age", JNum 30)] Strict
     = Some [("name", Chain.Data (JStr "Bob")); ("email", Chain.Data (JStr ""))].
Proof. split; [|split]; reflexivity. Qed.

(** *** The deep strategy *)

Lemma no_proto_key_cons key v rest :
  Chain.no_proto_key (JObj ((key, v) :: rest)) = true
  <-> key <> "__proto__" /\ Chain.no_proto_key v = true
      /\ Chain.no_proto_key (JObj rest) = true.
Proof.
  simpl. rewrite !andb_true_iff, negb_true_iff.
  destruct (String.eqb_spec key "__proto__"); intuition congruence.
Qed.

Lemma get_not_proto target key :
  key <> "__proto__" -> Chain.plain_found (Chain.get target key)
                        = isPlainObject (obj_get target key).
Proof.
  intros Hkey. unfold Chain.get, obj_get.
  destruct (obj_lookup key target) as [v|]; [reflexivity|].
  destruct (String.eqb_spec key "__proto__"); [contradiction|].
  destruct (obj_lookup key Chain.Object_prototype_functions); reflexivity.
Qed.

(** One turn of the loop, on a key other than [__proto__]. *)
Lemma deepMerge_step_agrees target key sv result :
  key <> "__proto__" ->
  (forall tv, Chain.merge_value tv sv = Some (merge_value tv sv)) ->
  Chain.deepMerge_step target (Some result) (key, sv)
  = Some (deepMerge_step target result (key, sv)).
Proof.
  intros Hkey Hrec. unfold Chain.deepMerge_step, deepMerge_step. simpl.
  pose proof (get_not_proto target key Hkey) as Hplain.
  unfold Chain.get, obj_get in *.
  destruct (obj_lookup key target) as [tv|].
  - simpl in Hplain.
    destruct (isPlainObject tv && isPlainObject sv); [rewrite Hrec; simpl|];
      apply assign_other, Hkey.
  - destruct (String.eqb_spec key "__proto__"); [contradiction|].
    destruct (obj_lookup key Chain.Object_prototype_functions);
      apply assign_other, Hkey.
Qed.

Lemma chain_merge_value_unfold target source :
  Chain.merge_value (JObj target) (JObj source) = JObj <$> Chain.deepMerge target source.
Proof.
  unfold Chain.deepMerge. simpl. f_equal.
  generalize (Some (spread target [])) as result.
  induction source as [|[key sv] rest IH]; intros result; [reflexivity|].
  simpl. rewrite IH. reflexivity.
Qed.

Lemma merge_value_agrees sv : forall tv,
  Chain.no_proto_key sv = true -> Chain.merge_value tv sv = Some (merge_value tv sv).
Proof.
  induction sv as [ | | b | n | s | elems _ | source IH | t | s ]
    using JsValue_nested_ind; intros tv Hfree;
    try (destruct tv; reflexivity).
  destruct tv as [ | | b | n | s | elems | target | t | s ]; try reflexivity.
  rewrite chain_merge_value_unfold, merge_value_plain.
  unfold Chain.deepMerge, deepMerge.
  generalize (spread target []) as result.
  induction IH as [|[key sv] rest Hsv _ IHrest]; intros result; [reflexivity|].
  apply no_proto_key_cons in Hfree as (Hkey & Hv & Hrest). cbn [fold_left].
  rewrite deepMerge_step_agrees by (exact Hkey || (intros tv; apply Hsv, Hv)).
  apply IHrest, Hrest.
Qed.

(** When no object of [source] has the key [__proto__], [deepMerge]
    computes what its own-property reading says. *)
Lemma deepMerge_agrees target source :
  Chain.no_proto_key (JObj source) = true ->
  Chain.deepMerge target source = Some (deepMerge target source).
Proof.
  intros Hfree.
  pose proof (merge_value_agrees (JObj source) (JObj target) Hfree) as Hmerge.
  rewrite chain_merge_value_unfold, merge_value_plain in Hmerge.
  destruct (Chain.deepMerge target source); simpl in Hmerge; congruence.
Qed.

(** C3.  [deepMerge] assigns [result[key] = sourceVal] for every key of
    the source, and for the key [__proto__] that assignment reaches the
    setter that every object inherits instead of creating a property.
    With [incoming = {"__proto__": 1, b: 2}], whose keys are its own (as
    in the value of [JSON.parse]), the deep merge into [{a: 1}] is
    [{a: 1, b: 2}]: the key [__proto__], which only [incoming] has, is not
    kept, and its value is lost, where the claim has it overwrite.  The
    default strategy, a spread, keeps it. *)
Theorem deep_loses_proto_key :
  Chain.mergeData [("a", JNum 1)] [("__proto__", JNum 1); ("b", JNum 2)] Deep
  = Some (Chain.data [("a", JNum 1); ("b", JNum 2)])
  /\ has_key "__proto__" [("__proto__", JNum 1); ("b", JNum 2)] = true
  /\ Chain.mergeData [("a", JNum 1)] [("__proto__", JNum 1); ("b", JNum 2)] Merge
     = Some (Chain.data [("a", JNum 1); ("__proto__", JNum 1); ("b", JNum 2)]).
Proof. split; [|split]; reflexivity. Qed.

(** *** Flattening *)

Lemma chain_flatten_value_obj newKey props result :
  Chain.flatten_value newKey (JObj props) result
  = fold_left
      (fun result '(key, value) => Chain.flatten_value (join_key newKey key) value result)
      props result.
Proof.
  simpl. revert result.
  induction props as [|[key v] rest IH]; intros result; [reflexivity | apply IH].
Qed.

Lemma chain_flattenObject_root obj result :
  Chain.flattenObject obj "" result = Chain.flatten_value "" (JObj obj) (Some result).
Proof. rewrite chain_flatten_value_obj. reflexivity. Qed.

(** Flattening assigns the leaves, in order, under their joined paths. *)
Lemma chain_flatten_value_leaves value : forall path result,
  Chain.flatten_value (join_path path) value result
  = fold_left
      (fun result '(q, x) =>
         result ← result ; Chain.assign Chain.data_effect (join_path q) x result)
      (leaves_value path value) result.
Proof.
  induction value as [ | | b | n | s | elems _ | props IH | t | s ]
    using JsValue_nested_ind; intros path result; try reflexivity.
  simpl. revert result.
  induction IH as [|[key v] rest Hv _ IHrest]; intros result; [reflexivity|].
  simpl in Hv. rewrite fold_left_app, <- Hv, join_path_snoc. apply IHrest.
Qed.

Lemma assign_leaves_agree (leaves : list (list string * JsValue)) : forall result,
  Forall (fun leaf => join_path (fst leaf) <> "__proto__") leaves ->
  fold_left
    (fun result '(q, x) =>
       result ← result ; Chain.assign Chain.data_effect (join_path q) x result)
    leaves (Some result)
  = Some (fold_left (fun r '(q, x) => obj_set (join_path q) x r) leaves result).
Proof.
  induction leaves as [|[q x] rest IH]; intros result Hall; [reflexivity|].
  apply Forall_cons in Hall as [Hq Hall]. simpl in Hq.
  cbn -[Chain.assign join_path]. rewrite assign_other by exact Hq. apply IH, Hall.
Qed.

(** When no leaf lies at the path [__proto__], [flattenObject] computes
    what its own-property reading says. *)
Lemma flattenObject_agrees obj result :
  Forall (fun leaf => join_path (fst leaf) <> "__proto__") (leaves_value [] (JObj obj)) ->
  Chain.flattenObject obj "" result = Some (flattenObject obj "" result).
Proof.
  intros Hleaves. rewrite chain_flattenObject_root.
  change "" with (join_path []) at 1.
  rewrite (chain_flatten_value_leaves (JObj obj) [] (Some result)).
  rewrite assign_leaves_agree by exact Hleaves.
  rewrite flattenObject_leaves. reflexivity.
Qed.

Lemma join_key_not_proto parentKey key :
  key <> "__proto__" -> join_key parentKey key <> "__proto__".
Proof.
  unfold join_key. intros Hkey. destruct (String.eqb parentKey ""); [exact Hkey|].
  intros Heq. pose proof (has_dot_append parentKey key) as Hdot.
  rewrite Heq in Hdot. discriminate.
Qed.

Lemma no_proto_key_leaves value : forall path,
  Chain.no_proto_key value = true -> join_path path <> "__proto__" ->
  Forall (fun leaf => join_path (fst leaf) <> "__proto__") (leaves_value path value).
Proof.
  induction value as [ | | b | n | s | elems _ | props IH | t | s ]
    using JsValue_nested_ind; intros path Hfree Hpath;
    try (repeat constructor; exact Hpath).
  induction IH as [|[key v] rest Hv _ IHrest]; [constructor|].
  apply no_proto_key_cons in Hfree as (Hkey & Hfree & Hrest).
  change (leaves_value path (JObj ((key, v) :: rest)))
    with (leaves_value (path ++ [key]) v ++ leaves_value path (JObj rest)).
  apply Forall_app. split; [|apply IHrest, Hrest].
  apply Hv; [exact Hfree|]. rewrite join_path_snoc. apply join_key_not_proto, Hkey.
Qed.

Lemma flattenObject_agrees_free obj result :
  Chain.no_proto_key (JObj obj) = true ->
  Chain.flattenObject obj "" result = Some (flattenObject obj "" result).
Proof.
  intros Hfree. apply flattenObject_agrees, no_proto_key_leaves; [exact Hfree|].
  discriminate.
Qed.

(** *** Mapping *)

Lemma mappedKey_agrees fieldMap key :
  has_key key fieldMap = true \/ Chain.inherited key = false ->
  Chain.mappedKey fieldMap key = mapped_key fieldMap key.
Proof.
  unfold Chain.mappedKey, mapped_key, has_key.
  assert (Hsame : forall (fm : FieldMap), fieldMap_lookup key fm = obj_lookup key fm).
  { induction fm as [|[k d] fm IH]; [reflexivity|]. simpl. rewrite IH. reflexivity. }
  rewrite <- Hsame.
  destruct (fieldMap_lookup key fieldMap); [reflexivity|].
  intros [?|Hkey]; [discriminate|].
  unfold Chain.inherited, has_key in Hkey.
  apply orb_false_iff in Hkey as [-> Hfun].
  destruct (obj_lookup key Chain.Object_prototype_functions); [discriminate | reflexivity].
Qed.

(** When every key of the data is either mentioned by the field map or
    not a name of [Object.prototype], and no destination is [__proto__],
    [applyMapping] computes what its own-property reading says. *)
Lemma applyMapping_agrees data fieldMap :
  Chain.mappable data fieldMap ->
  Chain.applyMapping data (Some fieldMap) = Some (applyMapping data (Some fieldMap)).
Proof.
  unfold Chain.mappable, Chain.applyMapping, applyMapping.
  generalize (@nil (string * JsValue)) as mapped.
  generalize (Object_keys data) as keys.
  induction keys as [|key keys IH]; intros mapped Hall; [reflexivity|].
  apply Forall_cons in Hall as [[Hkey Hdest] Hall].
  cbn -[Chain.assign Chain.mappedKey obj_get].
  rewrite mappedKey_agrees by exact Hkey.
  rewrite assign_other by exact Hdest. apply IH, Hall.
Qed.

(** C7.  [applyMapping] looks a source key up with [fieldMap[key] ?? key],
    which also finds what the field map inherits.  The text
    [{"toString": 1, "b": 2}] holds no reserved key and passes [parseJson];
    its flattening is itself; the field map of the scenario does not
    mention [toString], so the claim lets the key pass under its name;
    the code finds the inherited function and files the value under the
    text of that function.  The key [b], which no object inherits, passes
    through. *)
Theorem mapping_reads_inherited_names :
  parseJson (parse_as (JObj [("toString", JNum 1); ("b", JNum 2)])) "text"
  = inr [("toString", JNum 1); ("b", JNum 2)]
  /\ Chain.flattenObject [("toString", JNum 1); ("b", JNum 2)] "" []
     = Some [("toString", JNum 1); ("b", JNum 2)]
  /\ fieldMap_lookup "toString" scenario_fieldMap = None
  /\ Chain.applyMapping [("toString", JNum 1); ("b", JNum 2)] (Some scenario_fieldMap)
     = Some [("function toString() { [native code] }", JNum 1); ("b", JNum 2)].
Proof. repeat split; reflexivity. Qed.

(** *** The round trip *)

Lemma join_path_has_dot k q : k <> "" -> q <> [] -> has_dot (join_path (k :: q)) = true.
Proof.
  intros Hk Hq. destruct (exists_last Hq) as (q' & s & ->).
  rewrite app_comm_cons, join_path_snoc. unfold join_key.
  destruct (String.eqb_spec (join_path (k :: q')) "") as [Hempty|_];
    [exfalso; exact (join_path_not_empty k q' Hk Hempty)|].
  apply has_dot_append.
Qed.

Lemma recovers_leaves_not_proto o :
  recovers true o ->
  Forall (fun leaf => join_path (fst leaf) <> "__proto__") (leaves_value [] (JObj o)).
Proof.
  intros Ho. eapply Forall_impl; [apply recovers_leaves_shape; exact Ho|].
  intros leaf (k & q & -> & _ & _ & Hk & Hproto). simpl.
  destruct q as [|s q]; [exact (Hproto eq_refl eq_refl)|].
  intros Heq.
  pose proof (join_path_has_dot k (s :: q) (Hk eq_refl ltac:(discriminate))
                ltac:(discriminate)) as Hdot.
  rewrite Heq in Hdot. discriminate.
Qed.

Lemma chain_flattenObject_atomic key value rest parentKey result :
  Array_isArray value || instanceof_Date value = true ->
  join_key parentKey key <> "__proto__" ->
  Chain.flattenObject ((key, value) :: rest) parentKey result
  = Chain.flattenObject rest parentKey (obj_set (join_key parentKey key) value result).
Proof.
  intros Hv Hkey. unfold Chain.flattenObject. cbn [fold_left]. f_equal.
  destruct value; try discriminate; cbn -[Chain.assign join_key];
    apply assign_other, Hkey.
Qed.

(** C6 (as the code has it).  For every nested object (its keys distinct
    at every level, as in any object) all of whose leaf values are
    primitives, none of whose keys contains a dot, which holds no empty
    object below its root, and whose root holds no object under the empty
    key and no leaf under [__proto__], [flattenObject] returns a flat
    object from which rebuilding by dot paths recovers the object exactly;
    empty keys are recovered everywhere else.  And [flattenObject] never
    descends into an array or a date: at any prefix, such a value is
    written as it is under its dot-joined key, when that key is not
    [__proto__]. *)
Theorem flatten_roundtrip :
  (forall o : Obj,
      distinct_keys (JObj o) = true -> primitive_leaves (JObj o) = true ->
      dot_free_keys (JObj o) = true -> no_empty_object (JObj o) = true ->
      root_kept o = true ->
      exists flat, Chain.flattenObject o "" [] = Some flat /\ unflatten flat = o)
  /\ (forall key value rest parentKey result,
        Array_isArray value || instanceof_Date value = true ->
        join_key parentKey key <> "__proto__" ->
        Chain.flattenObject ((key, value) :: rest) parentKey result
        = Chain.flattenObject rest parentKey
            (obj_set (join_key parentKey key) value result)).
Proof.
  split.
  - intros o Hd Hp Hs He Hroot.
    assert (Ho : recovers true o)
      by (apply recovers_of_checks; try assumption; intros _; exact Hroot).
    exists (flattenObject o "" []). split.
    + apply flattenObject_agrees, recovers_leaves_not_proto, Ho.
    + apply unflatten_flattenObject, Ho.
  - apply chain_flattenObject_atomic.
Qed.

Lemma flatten_roundtrip_witness :
  (exists flat, Chain.flattenObject nested_sample "" [] = Some flat
                /\ unflatten flat = nested_sample)
  /\ (exists flat, Chain.flattenObject empty_key_sample "" [] = Some flat
                   /\ unflatten flat = empty_key_sample)
  /\ Chain.flattenObject [("tags", JArr [JObj [("a", JNum 1)]]); ("at", JDate 0)] "p" []
     = Chain.flattenObject [("at", JDate 0)] "p" [("p.tags", JArr [JObj [("a", JNum 1)]])].
Proof.
  destruct flatten_roundtrip as [Hround Hatomic]. split; [|split].
  - apply Hround; reflexivity.
  - apply Hround; reflexivity.
  - apply (Hatomic "tags" (JArr [JObj [("a", JNum 1)]]) [("at", JDate 0)] "p" []);
      [reflexivity | discriminate].
Defined.

(** C6 as stated fails: a key that contains a dot, an object under the
    empty key of the root, or an empty nested object is not recovered,
    though every leaf is a primitive. *)
Lemma flatten_roundtrip_counterexample :
  (primitive_leaves (JObj [("a.b", JNum 1)]) = true
   /\ Chain.flattenObject [("a.b", JNum 1)] "" [] = Some [("a.b", JNum 1)]
   /\ unflatten [("a.b", JNum 1)] = [("a", JObj [("b", JNum 1)])]
   /\ unflatten [("a.b", JNum 1)] <> [("a.b", JNum 1)])
  /\ (primitive_leaves (JObj [("", JObj [("a", JNum 1)])]) = true
      /\ Chain.flattenObject [("", JObj [("a", JNum 1)])] "" [] = Some [("a", JNum 1)]
      /\ unflatten [("a", JNum 1)] <> [("", JObj [("a", JNum 1)])])
  /\ (primitive_leaves (JObj [("a", JObj [])]) = true
      /\ Chain.flattenObject [("a", JObj [])] "" [] = Some []
      /\ unflatten [] <> [("a", JObj [])]).
Proof. repeat split; done. Qed.

(** ** On keys that no object inherits *)

(** X20.  On a [current] none of whose keys is a property name of
    [Object.prototype], the strict strategy returns an object with
    exactly the keys of [current]: a key of [current] is bound to the
    value of [incoming] when [incoming] has that key and to the value of
    [current] otherwise, and a key that only [incoming] has is dropped.
    The code, with its [in] test, then computes what the reading on own
    properties computes. *)
Theorem strict_on_plain_keys (current incoming : Obj) :
  Chain.plain_keys current ->
  Chain.mergeData current incoming Strict
  = Some (Chain.data (mergeData current incoming Strict))
  /\ (forall k, In k (Object_keys (mergeData current incoming Strict))
                <-> In k (Object_keys current))
  /\ (forall k, obj_lookup k (mergeData current incoming Strict)
                = if has_key k current
                  then (if has_key k incoming
                        then obj_lookup k incoming else obj_lookup k current)
                  else None).
Proof.
  intros Hkeys. split; [apply strict_agrees, Hkeys|].
  destruct (mergeData_strict_own current incoming) as (Hsame & Hlook & _).
  split; assumption.
Qed.

Lemma strict_on_plain_keys_witness :
  Chain.mergeData [("name", JStr ""); ("email", JStr "")]
    [("name", JStr "Bob"); ("age", JNum 30)] Strict
  = Some (Chain.data [("name", JStr "Bob"); ("email", JStr "")]).
Proof.
  refine (proj1 (strict_on_plain_keys [("name", JStr ""); ("email", JStr "")]
                   [("name", JStr "Bob"); ("age", JNum 30)] _)).
  repeat constructor.
Defined.

(** X21.  When no object of [incoming] has the key [__proto__], the deep
    strategy binds every key as follows: when both sides hold a plain
    object under it (an object that is not null, not an array, not a date
    and not a regular expression) the two are deep-merged recursively;
    in every other case where [incoming] has the key, the value of
    [incoming] overwrites; a key that only [current] has keeps its value.
    The keys of the result are those of either side, and the nested
    result is again a deep merge, so the rule holds at every depth. *)
Theorem deep_without_proto_key (current incoming : Obj) :
  NoDup (Object_keys incoming) ->
  Chain.no_proto_key (JObj incoming) = true ->
  Chain.mergeData current incoming Deep
  = Some (Chain.data (mergeData current incoming Deep))
  /\ (forall v, isPlainObject v = true
                <-> typeof v = "object" /\ v <> JNull /\ Array_isArray v = false
                    /\ instanceof_Date v = false /\ instanceof_RegExp v = false)
  /\ (forall k,
        obj_lookup k (mergeData current incoming Deep)
        = match obj_lookup k incoming, obj_lookup k current with
          | Some sv, Some tv =>
              if isPlainObject tv && isPlainObject sv
              then Some (JObj (mergeData (as_obj tv) (as_obj sv) Deep))
              else Some sv
          | Some sv, None => Some sv
          | None, kept => kept
          end)
  /\ (forall k, In k (Object_keys (mergeData current incoming Deep))
                <-> In k (Object_keys current) \/ In k (Object_keys incoming)).
Proof.
  intros Hnd Hfree. split; [|exact (mergeData_deep_own current incoming Hnd)].
  unfold Chain.mergeData. rewrite deepMerge_agrees by exact Hfree. reflexivity.
Qed.

Lemma deep_without_proto_key_witness :
  Chain.mergeData deep_current deep_incoming Deep
  = Some (Chain.data (mergeData deep_current deep_incoming Deep))
  /\ obj_lookup "user" (mergeData deep_current deep_incoming Deep)
     = Some (JObj [("name", JStr "Ann"); ("tags", JArr [JStr "b"]);
                   ("address", JObj [("city", JStr "Bergen"); ("zip", JStr "0150")])]).
Proof.
  assert (Hnd : NoDup (Object_keys deep_incoming))
    by (apply (bool_decide_unpack _); vm_compute; reflexivity).
  destruct (deep_without_proto_key deep_current deep_incoming Hnd eq_refl)
    as (Hrun & _ & Hat & _).
  split; [exact Hrun|]. rewrite Hat. reflexivity.
Defined.

(** X22.  The scenario of the field map: the input
    [{user: {first_name: "Jane", last_name: "Doe", contact: {email:
    "j@x.com"}}}], given as an object or as a text that parses to it,
    with the field map of the scenario and flattening left at its
    default, goes through the pipeline to exactly
    [{firstName: "Jane", lastName: "Doe", email: "j@x.com"}]; on the way,
    flattening gives the three dotted keys and the mapping renames them,
    none of them being a name that an object inherits.  And whenever
    every key of the data is either mentioned by the field map or not a
    property name of [Object.prototype], and none is sent to [__proto__],
    a key that the field map does not mention is a key of the mapped
    object, with its own value unless another key is mapped onto it. *)
Theorem mapping_passes_other_keys :
  (forall JSON_parse : string -> option JsValue,
      processJsonData JSON_parse (InputObject scenario_input) (Some scenario_options)
      = Return (scenario_output, false)
      /\ forall text, JSON_parse text = Some (JObj scenario_input) ->
           processJsonData JSON_parse (InputText text) (Some scenario_options)
           = Return (scenario_output, false))
  /\ Chain.flattenObject scenario_input "" []
     = Some [("user.first_name", JStr "Jane"); ("user.last_name", JStr "Doe");
             ("user.contact.email", JStr "j@x.com")]
  /\ Chain.applyMapping
       [("user.first_name", JStr "Jane"); ("user.last_name", JStr "Doe");
        ("user.contact.email", JStr "j@x.com")]
       (Some scenario_fieldMap)
     = Some scenario_output
  /\ (forall data fm key,
        Chain.mappable data fm ->
        In key (Object_keys data) -> fieldMap_lookup key fm = None ->
        exists mapped,
          Chain.applyMapping data (Some fm) = Some mapped
          /\ In key (Object_keys mapped)
          /\ ((forall k, In k (Object_keys data) -> fieldMap_lookup k fm <> Some key) ->
              obj_lookup key mapped = obj_lookup key data)).
Proof.
  split; [|split; [reflexivity|]; split; [reflexivity|]].
  - intros JSON_parse. split; [reflexivity|].
    intros text Hparse. rewrite processJsonData_text. unfold parseJson.
    rewrite Hparse. simpl negb. cbv iota.
    rewrite scan_scenario_input. reflexivity.
  - intros data fm key Hdomain Hkey Hfree.
    exists (applyMapping data (Some fm)).
    split; [apply applyMapping_agrees, Hdomain|].
    exact (applyMapping_pass_through data fm key Hkey Hfree).
Qed.

(** *** The output of the flattener *)

Lemma chain_flatten_value_none value : forall newKey,
  Chain.flatten_value newKey value None = None.
Proof.
  induction value as [ | | b | n | s | elems _ | props IH | t | s ]
    using JsValue_nested_ind; intros newKey; try reflexivity.
  rewrite chain_flatten_value_obj.
  induction IH as [|[key v] rest Hv _ IHrest]; [reflexivity|].
  cbn [fold_left]. simpl in Hv. rewrite Hv. exact IHrest.
Qed.

Lemma chain_flatten_loop_none newKey (props : Obj) :
  fold_left
    (fun result '(key, value) => Chain.flatten_value (join_key newKey key) value result)
    props None = None.
Proof.
  induction props as [|[key v] rest IH]; [reflexivity|].
  cbn [fold_left]. rewrite chain_flatten_value_none. exact IH.
Qed.

Lemma chain_flatten_value_shape value : forall newKey result result',
  Chain.flatten_value newKey value (Some result) = Some result' ->
  flattened result -> flattened result'.
Proof.
  assert (Hleaf : forall newKey v result result',
             flatten_descends v = false ->
             Chain.assign Chain.data_effect newKey v result = Some result' ->
             flattened result -> flattened result').
  { intros newKey v result result' Hv Hassign (Hnd & Hflat & Hout).
    pose proof (assign_keeps_proto_out _ _ _ _ _ Hout Hassign) as Hout'.
    revert Hassign Hout'. unfold Chain.assign.
    destruct (String.eqb newKey "__proto__" && negb (has_key newKey result)).
    - destruct (Chain.data_effect v); try discriminate;
        intros [= <-] _; repeat split; assumption.
    - intros [= <-] Hout'. split; [apply StoreFacts.Object_keys_set_NoDup, Hnd|].
      split; [apply flat_object_set; assumption | exact Hout']. }
  induction value as [ | | b | n | s | elems _ | props IH | t | s ]
    using JsValue_nested_ind; intros newKey result result';
    try (apply Hleaf; reflexivity).
  - rewrite chain_flatten_value_obj. revert result.
    induction IH as [|[key v] rest Hv _ IHrest]; intros result;
      [intros [= <-]; tauto|].
    cbn [fold_left]. simpl in Hv.
    destruct (Chain.flatten_value (join_key newKey key) v (Some result))
      as [result1|] eqn:Hfirst.
    + intros Hrest Hshape. apply (IHrest result1 Hrest). exact (Hv _ _ _ Hfirst Hshape).
    + rewrite chain_flatten_loop_none. discriminate.
  - intros [= <-]. tauto.
Qed.

Lemma flattened_no_proto_key o : flattened o -> Chain.no_proto_key (JObj o) = true.
Proof.
  intros (_ & Hflat & Hout). induction o as [|[key v] rest IH]; [reflexivity|].
  apply Forall_cons in Hflat as [Hv Hflat]. simpl in Hv.
  unfold has_key in Hout. simpl in Hout.
  destruct (String.eqb_spec key "__proto__") as [->|Hne]; [discriminate|].
  apply no_proto_key_cons. split; [exact Hne|]. split; [|apply IH; assumption].
  destruct v; try reflexivity; discriminate.
Qed.

(** X2.  [flattenObject] stays within the model on every object that
    holds no key [__proto__] at any depth.  Whenever it stays within the
    model (no value of the data became the prototype of its result), its
    output has distinct keys, none of which is [__proto__], and holds no
    value that [flattenObject] would descend into (no plain object, no
    regular expression); flattening it again changes nothing. *)
Theorem flattenObject_idempotent (o : Obj) :
  (Chain.no_proto_key (JObj o) = true ->
   exists flat, Chain.flattenObject o "" [] = Some flat)
  /\ (forall flat,
        Chain.flattenObject o "" [] = Some flat ->
        NoDup (Object_keys flat)
        /\ has_key "__proto__" flat = false
        /\ (forall k v, In (k, v) flat -> flatten_descends v = false)
        /\ Chain.flattenObject flat "" [] = Some flat).
Proof.
  split; [intros Hfree; eexists; apply flattenObject_agrees_free, Hfree|].
  intros flat Hrun. rewrite chain_flattenObject_root in Hrun.
  assert (Hshape : flattened flat).
  { apply (chain_flatten_value_shape _ _ _ _ Hrun).
    split; [constructor|]. split; [constructor | reflexivity]. }
  destruct Hshape as (Hnd & Hflat & Hout).
  split; [exact Hnd|]. split; [exact Hout|]. split.
  - intros k v Hin. unfold flat_object in Hflat. rewrite List.Forall_forall in Hflat.
    exact (Hflat (k, v) Hin).
  - rewrite flattenObject_agrees_free
      by (apply flattened_no_proto_key; repeat split; assumption).
    rewrite flattenObject_flat by assumption. reflexivity.
Qed.

Lemma flattenObject_idempotent_witness :
  Chain.flattenObject
    [("user.first_name", JStr "Jane"); ("user.last_name", JStr "Doe");
     ("user.contact.email", JStr "j@x.com")] "" []
  = Some [("user.first_name", JStr "Jane"); ("user.last_name", JStr "Doe");
          ("user.contact.email", JStr "j@x.com")].
Proof.
  apply (proj2 (flattenObject_idempotent scenario_input)). reflexivity.
Defined.

(** X3.  On data that comes out of [flattenObject], and more generally on
    any [incoming] with distinct keys, none of them [__proto__], and no
    value that is an object to descend into, the deep strategy returns
    exactly what the default strategy returns. *)
Theorem mergeData_deep_on_flattened (current : Obj) :
  (forall incoming,
      NoDup (Object_keys incoming) ->
      (forall k v, In (k, v) incoming -> flatten_descends v = false) ->
      has_key "__proto__" incoming = false ->
      Chain.mergeData current incoming Deep = Chain.mergeData current incoming Merge)
  /\ (forall o flat,
        Chain.flattenObject o "" [] = Some flat ->
        Chain.mergeData current flat Deep = Chain.mergeData current flat Merge).
Proof.
  assert (Hflat : forall incoming, flattened incoming ->
            Chain.mergeData current incoming Deep
            = Chain.mergeData current incoming Merge).
  { intros incoming Hshape. pose proof (flattened_no_proto_key incoming Hshape) as Hfree.
    destruct Hshape as (Hnd & Hflat & _).
    unfold Chain.mergeData. rewrite deepMerge_agrees by exact Hfree. simpl.
    change (deepMerge current incoming) with (mergeData current incoming Deep).
    rewrite mergeData_deep_flat by assumption. simpl.
    change (@nil (string * Chain.Stored)) with (Chain.data []).
    rewrite !data_spread. reflexivity. }
  split.
  - intros incoming Hnd Hvalues Hout. apply Hflat. split; [exact Hnd|].
    split; [|exact Hout]. apply List.Forall_forall. intros [k v] Hin. exact (Hvalues k v Hin).
  - intros o flat Hrun. apply Hflat.
    rewrite chain_flattenObject_root in Hrun.
    apply (chain_flatten_value_shape _ _ _ _ Hrun).
    split; [constructor|]. split; [constructor | reflexivity].
Qed.

Lemma mergeData_deep_on_flattened_witness :
  Chain.mergeData deep_current [("user", JArr [JStr "x"]); ("since", JDate 0)] Deep
  = Chain.mergeData deep_current [("user", JArr [JStr "x"]); ("since", JDate 0)] Merge.
Proof.
  apply (proj1 (mergeData_deep_on_flattened deep_current)).
  - apply (bool_decide_unpack _). vm_compute. reflexivity.
  - intros k v [[= <- <-]|[[= <- <-]|[]]]; reflexivity.
  - reflexivity.
Defined.

(** *** The empty sides *)

Lemma chain_deepMerge_empty_target (o : Obj) : forall result,
  has_key "__proto__" o = false ->
  fold_left (Chain.deepMerge_step []) o (Some result)
  = Some (fold_left (fun acc '(k, v) => obj_set k v acc) o result).
Proof.
  induction o as [|[key v] o IH]; intros result Hout; [reflexivity|].
  unfold has_key in Hout. simpl in Hout.
  destruct (String.eqb_spec key "__proto__") as [->|Hne]; [discriminate|].
  cbn [fold_left]. rewrite <- (IH (obj_set key v result)) by exact Hout.
  f_equal. unfold Chain.deepMerge_step. cbn [mbind option_bind].
  unfold Chain.get. cbn [obj_lookup].
  destruct (String.eqb_spec key "__proto__"); [contradiction|].
  destruct (obj_lookup key Chain.Object_prototype_functions);
    apply assign_other, Hne.
Qed.

(** X4.  Importing the empty object changes nothing under the default
    and deep strategies and clears the form under replace; under strict
    it changes nothing when no key of the form is a property name of
    [Object.prototype].  Into an empty form, strict imports nothing and
    the default strategy imports everything, and so does the deep
    strategy when the imported object has no key [__proto__]. *)
Theorem mergeData_empty_sides (o : Obj) :
  NoDup (Object_keys o) ->
  (Chain.mergeData o [] Merge = Some (Chain.data o)
   /\ Chain.mergeData o [] Deep = Some (Chain.data o)
   /\ Chain.mergeData o [] Replace = Some []
   /\ (Chain.plain_keys o -> Chain.mergeData o [] Strict = Some (Chain.data o)))
  /\ (Chain.mergeData [] o Strict = Some []
      /\ Chain.mergeData [] o Merge = Some (Chain.data o)
      /\ (has_key "__proto__" o = false ->
          Chain.mergeData [] o Deep = Some (Chain.data o))).
Proof.
  intros Hnd.
  destruct (mergeData_empty_sides_own o Hnd)
    as ((Hmerge & Hstrict & Hdeep & _) & (_ & Hinto & _)).
  assert (Hcopy : spread o [] = o) by exact (StoreFacts.spread_NoDup o Hnd).
  split; [split; [|split; [|split]] | split; [|split]].
  - unfold Chain.mergeData. unfold spread at 1. simpl.
    change (@nil (string * Chain.Stored)) with (Chain.data []).
    rewrite data_spread, Hcopy. reflexivity.
  - unfold Chain.mergeData, Chain.deepMerge. simpl. rewrite Hcopy. reflexivity.
  - reflexivity.
  - intros Hkeys. rewrite strict_agrees by exact Hkeys. rewrite Hstrict. reflexivity.
  - reflexivity.
  - unfold Chain.mergeData. unfold spread at 2. simpl.
    change (@nil (string * Chain.Stored)) with (Chain.data []).
    rewrite data_spread, Hcopy. reflexivity.
  - intros Hout. unfold Chain.mergeData, Chain.deepMerge. unfold spread. simpl.
    rewrite chain_deepMerge_empty_target by exact Hout.
    rewrite (write_entries_suffix o []) by exact Hnd. reflexivity.
Qed.

Lemma mergeData_empty_sides_witness :
  Chain.mergeData [("name", JStr "Ann"); ("age", JNum 3)] [] Strict
  = Some (Chain.data [("name", JStr "Ann"); ("age", JNum 3)])
  /\ Chain.mergeData [] [("name", JStr "Ann"); ("age", JNum 3)] Deep
     = Some (Chain.data [("name", JStr "Ann"); ("age", JNum 3)]).
Proof.
  assert (Hnd : NoDup (Object_keys [("name", JStr "Ann"); ("age", JNum 3)]))
    by (apply (bool_decide_unpack _); vm_compute; reflexivity).
  destruct (mergeData_empty_sides [("name", JStr "Ann"); ("age", JNum 3)] Hnd)
    as ((_ & _ & _ & Hstrict) & (_ & _ & Hdeep)).
  split; [apply Hstrict; repeat constructor | apply Hdeep; reflexivity].
Defined.

(** *** Collisions and unrelated maps *)

(** X6.  Whenever every key of the data is either mentioned by the field
    map or not a property name of [Object.prototype], and none is sent
    to [__proto__], a destination key holds the value of the last source
    key, in the order of the keys of the data, that the map sends to it
    (a key the map does not mention is sent to itself): when two source
    keys collide, the later one wins.  A destination that no source key
    is sent to is absent, and the keys of the result are distinct. *)
Theorem applyMapping_last_wins (data : Obj) (fm : FieldMap) :
  Chain.mappable data fm ->
  exists mapped,
    Chain.applyMapping data (Some fm) = Some mapped
    /\ (forall dest,
          obj_lookup dest mapped
          = match last_source fm dest (Object_keys data) with
            | Some key => Some (obj_get data key)
            | None => None
            end)
    /\ (forall dest, In dest (Object_keys mapped)
                     <-> exists key, In key (Object_keys data) /\ mapped_key fm key = dest)
    /\ NoDup (Object_keys mapped).
Proof.
  intros Hdomain. exists (applyMapping data (Some fm)).
  split; [apply applyMapping_agrees, Hdomain|].
  exact (applyMapping_last_wins_own data fm).
Qed.

Lemma applyMapping_last_wins_witness :
  exists mapped,
    Chain.applyMapping [("first", JStr "a"); ("given", JStr "b"); ("age", JNum 3)]
      (Some [("first", "name"); ("given", "name")]) = Some mapped
    /\ obj_lookup "name" mapped = Some (JStr "b")
    /\ obj_lookup "first" mapped = None.
Proof.
  destruct (applyMapping_last_wins
              [("first", JStr "a"); ("given", JStr "b"); ("age", JNum 3)]
              [("first", "name"); ("given", "name")])
    as (mapped & Hrun & Hat & _).
  - repeat constructor; try (by left); try (by right); discriminate.
  - exists mapped. split; [exact Hrun|]. rewrite !Hat. split; reflexivity.
Defined.

(** X7.  When no key of the data is a property name of
    [Object.prototype], a field map that mentions no key of the data
    (the empty map among them) leaves the data exactly as it is, key
    order included; without a field map the data itself is returned. *)
Theorem applyMapping_unrelated_map (data : Obj) (fm : FieldMap) :
  NoDup (Object_keys data) ->
  Chain.plain_keys data ->
  (forall k, In k (Object_keys data) -> fieldMap_lookup k fm = None) ->
  Chain.applyMapping data (Some fm) = Some data
  /\ Chain.applyMapping data (Some []) = Some data
  /\ Chain.applyMapping data None = Some data.
Proof.
  intros Hnd Hkeys Hfree.
  assert (Hdomain : forall fm', (forall k, In k (Object_keys data) ->
                                   fieldMap_lookup k fm' = None) ->
                                Chain.mappable data fm').
  { intros fm' Hfree'. unfold Chain.mappable, Chain.plain_keys in *.
    rewrite List.Forall_forall in *. intros key Hkey.
    split; [right; exact (Hkeys key Hkey)|].
    unfold mapped_key. rewrite (Hfree' key Hkey).
    apply not_inherited_not_proto, Hkeys, Hkey. }
  destruct (applyMapping_unrelated_map_own data fm Hnd Hfree) as (Hfm & Hempty & _).
  split; [|split; [|reflexivity]].
  - rewrite applyMapping_agrees by exact (Hdomain fm Hfree). f_equal. exact Hfm.
  - rewrite applyMapping_agrees by (apply Hdomain; reflexivity).
    f_equal. exact Hempty.
Qed.

Lemma applyMapping_unrelated_map_witness :
  Chain.applyMapping [("b", JNum 1); ("a", JNum 2)] (Some [("c", "d")])
  = Some [("b", JNum 1); ("a", JNum 2)].
Proof.
  apply (applyMapping_unrelated_map [("b", JNum 1); ("a", JNum 2)] [("c", "d")]).
  - apply (bool_decide_unpack _). vm_compute. reflexivity.
  - repeat constructor.
  - intros k [<-|[<-|[]]]; reflexivity.
Defined.

(** *** The strict fill of the bindings *)

Lemma chain_has_plain key (o : Obj) :
  Chain.inherited key = false -> Chain.has key o = has_key key o.
Proof. intros Hkey. unfold Chain.has. rewrite Hkey. apply orb_false_r. Qed.

Lemma formik_apply_strict_agrees validate values data :
  Chain.plain_keys data ->
  Chain.formik_apply_strict validate values data
  = formik_apply Strict validate values data.
Proof.
  unfold Chain.plain_keys, Chain.formik_apply_strict, formik_apply.
  intros Hkeys.
  assert (Hloop : forall keys, Forall (fun key => Chain.inherited key = false) keys ->
            forall made,
              fold_left
                (fun made key =>
                   if Chain.has key values
                   then made ++ [FormikSetFieldValue key (obj_get data key) validate]
                   else made)
                keys made
              = fold_left
                  (fun made key =>
                     if has_key key values
                     then made ++ [FormikSetFieldValue key (obj_get data key) validate]
                     else made)
                  keys made).
  { induction 1 as [|key keys Hkey _ IH]; intros made; [reflexivity|].
    cbn [fold_left]. rewrite chain_has_plain by exact Hkey. apply IH. }
  apply Hloop, Hkeys.
Qed.

Lemma getFieldsToSet_agrees current incoming strategy :
  Chain.plain_keys incoming ->
  Chain.getFieldsToSet current incoming strategy
  = Some (getFieldsToSet current incoming strategy).
Proof.
  destruct strategy; try reflexivity.
  unfold Chain.plain_keys, Chain.getFieldsToSet, getFieldsToSet.
  generalize (@nil (string * JsValue)) as result.
  generalize (Object_keys incoming) as keys.
  intros keys result Hkeys. revert result.
  induction Hkeys as [|key keys Hkey _ IH]; intros result; [reflexivity|].
  cbn [fold_left mbind option_bind]. rewrite chain_has_plain by exact Hkey.
  destruct (has_key key current); [|apply IH].
  rewrite assign_other by exact (not_inherited_not_proto key Hkey). apply IH.
Qed.

Lemma rhf_apply_agrees strategy options current data :
  Chain.plain_keys data ->
  Chain.rhf_apply strategy options current data
  = Some (rhf_apply strategy options current data).
Proof.
  intros Hkeys. unfold Chain.rhf_apply, rhf_apply.
  rewrite getFieldsToSet_agrees by exact Hkeys. destruct strategy; reflexivity.
Qed.

(** X11.  Under the strict strategy, on data none of whose keys is a
    property name of [Object.prototype], the three bindings touch the
    same fields: the Formik binding calls [setFieldValue], and the React
    Hook Form binding [setValue], exactly for the entries of the data
    whose key the current values already have, in the order of the data
    and with the values of the data; and when no key of the current
    values is such a name either, the object the merge engine builds for
    the plain-state binding holds those values under those keys and the
    current value under every other key. *)
Theorem strict_fill_parity (current data : Obj) (validate : bool)
    (options : option RHFOptions) :
  NoDup (Object_keys data) ->
  Chain.plain_keys data ->
  Chain.formik_apply_strict validate current data
  = map (fun '(key, value) => FormikSetFieldValue key value validate)
      (strict_fields current data)
  /\ Chain.getFieldsToSet current data Strict = Some (strict_fields current data)
  /\ (exists setOptions,
        Chain.rhf_apply Strict options current data
        = Some (map (fun '(key, value) => RHFSetValue key value setOptions)
                  (strict_fields current data)))
  /\ (Chain.plain_keys current ->
      exists merged,
        Chain.mergeData current data Strict = Some (Chain.data merged)
        /\ forall k, obj_lookup k merged
                     = match obj_lookup k (strict_fields current data) with
                       | Some v => Some v
                       | None => obj_lookup k current
                       end).
Proof.
  intros Hnd Hkeys.
  destruct (strict_fill_parity_own current data validate options Hnd)
    as (Hformik & Hfields & (setOptions & Hrhf) & Hmerged).
  split; [rewrite formik_apply_strict_agrees by exact Hkeys; exact Hformik|].
  split; [rewrite getFieldsToSet_agrees by exact Hkeys; rewrite Hfields; reflexivity|].
  split.
  - exists setOptions. rewrite rhf_apply_agrees by exact Hkeys. rewrite Hrhf.
    reflexivity.
  - intros Hcurrent. exists (mergeData current data Strict).
    split; [apply strict_agrees, Hcurrent | exact Hmerged].
Qed.

Lemma strict_fill_parity_witness :
  Chain.formik_apply_strict true [("name", JStr ""); ("email", JStr "")]
    [("age", JNum 30); ("name", JStr "Bob")]
  = [FormikSetFieldValue "name" (JStr "Bob") true]
  /\ Chain.getFieldsToSet [("name", JStr ""); ("email", JStr "")]
       [("age", JNum 30); ("name", JStr "Bob")] Strict
     = Some [("name", JStr "Bob")].
Proof.
  assert (Hnd : NoDup (Object_keys [("age", JNum 30); ("name", JStr "Bob")]))
    by (apply (bool_decide_unpack _); vm_compute; reflexivity).
  assert (Hkeys : Chain.plain_keys [("age", JNum 30); ("name", JStr "Bob")])
    by repeat constructor.
  destruct (strict_fill_parity [("name", JStr ""); ("email", JStr "")]
              [("age", JNum 30); ("name", JStr "Bob")] true None Hnd Hkeys)
    as (Hformik & Hfields & _).
  split; [exact Hformik | exact Hfields].
Defined.

(** *** Sharing between a merged object and its inputs *)

(** X19.  The merge copies one level.  Let the current and the incoming
    object stand for trees in the store, and let the strategy not be
    [replace]; under [strict] let no key of [current] be a property name
    of [Object.prototype], and under [deep] let no object of [incoming]
    hold the key [__proto__].  Then the merge returns (given fuel no less
    than the size of [incoming]); the returned object is new and stands
    for the merge of the two trees, which is what the code computes with
    its [in] tests and assignments; and each of its properties holds the
    very value that the incoming or the current object holds under that
    key: for a nested object, array or date the same reference, not a
    copy.  The one exception is the deep strategy, which may hold a
    reference to an object it created itself.  So a later change inside
    a nested value of the result is a change inside the input it came
    from. *)
Theorem mergeData_copies_one_level fuel current incoming strategy
    (h : list Store.Cell) (cx ix : Obj) :
  Store.denotes h (Store.VRef current) (JObj cx) ->
  Store.denotes h (Store.VRef incoming) (JObj ix) ->
  js_size (JObj ix) <= fuel ->
  strategy <> Replace ->
  (strategy = Strict -> Chain.plain_keys cx) ->
  (strategy = Deep -> Chain.no_proto_key (JObj ix) = true) ->
  exists l h',
    Store.mergeData fuel current incoming strategy h = Some (l, h')
    /\ length h <= l
    /\ Chain.mergeData cx ix strategy = Some (Chain.data (mergeData cx ix strategy))
    /\ Store.denotes h' (Store.VRef l) (JObj (mergeData cx ix strategy))
    /\ forall key v,
         obj_lookup key (Store.props_at h' l) = Some v ->
         obj_lookup key (Store.props_at h incoming) = Some v
         \/ obj_lookup key (Store.props_at h current) = Some v
         \/ (strategy = Deep /\ exists m, v = Store.VRef m /\ length h < m).
Proof.
  intros Hc Hi Hfuel Hstrategy Hstrict Hdeep.
  destruct (StoreFacts.mergeData_store_refines
              fuel current incoming strategy h cx ix Hc Hi Hfuel)
    as (l & h' & Hrun & Hl).
  assert (Hclt : current < length h).
  { inversion Hc; subst. eapply lookup_lt_Some; eassumption. }
  assert (Hilt : incoming < length h).
  { inversion Hi; subst. eapply lookup_lt_Some; eassumption. }
  destruct (StoreSharing.mergeData_shares
              fuel current incoming strategy h l h' Hclt Hilt Hstrategy Hrun)
    as [Hnew Hbound].
  exists l, h'. split; [exact Hrun|]. split; [exact Hnew|].
  split; [|split; [exact Hl | exact Hbound]].
  destruct strategy.
  - unfold Chain.mergeData. simpl.
    change (@nil (string * Chain.Stored)) with (Chain.data []).
    rewrite !data_spread. reflexivity.
  - contradiction.
  - apply strict_agrees, Hstrict. reflexivity.
  - unfold Chain.mergeData. rewrite deepMerge_agrees by (apply Hdeep; reflexivity).
    reflexivity.
Qed.

Lemma mergeData_copies_one_level_witness :
  exists l h',
    Store.mergeData 8 3 6 Deep Store.nested_heap = Some (l, h')
    /\ length Store.nested_heap <= l
    /\ Store.denotes h' (Store.VRef l)
         (JObj [("user", JObj [("name", JStr "Ann"); ("tags", JArr [JStr "b"]);
                               ("age", JNum 3)]);
                ("id", JNum 7); ("since", JDate 0)]).
Proof.
  destruct StoreFacts.nested_heap_denotes as [Hc Hi].
  destruct (mergeData_copies_one_level 8 3 6 Deep Store.nested_heap _ _ Hc Hi)
    as (l & h' & Hrun & Hnew & _ & Hl & _);
    [simpl; lia | discriminate | discriminate | reflexivity |].
  exists l, h'. split; [exact Hrun|]. split; [exact Hnew | exact Hl].
Defined.
